(** * Rice: the position-state core ([src/chess.cpp])

    A shallow embedding of [Board::applyFen], [Board::makeMove],
    [Board::unmakeMove], the null-move pair and the piece primitives,
    together with the properties the specification states about them.

    Integers of the program are [Z] with their wrap-around written out,
    the two arrays of [Board] ([piecesBB], [board]) are lists read and
    written by index, and every access the C++ leaves undefined (an index
    out of bounds, [back()] of an empty vector, an over-wide shift) makes
    the embedded computation fail. *)

From Stdlib Require Import ZArith Lia Bool List String Ascii.
From stdpp Require Import base list.
Import ListNotations.
Local Open Scope Z_scope.

(** ** Enumerations of [chess.hpp] *)

Inductive Color := White | Black.

Inductive PieceType := PAWN | KNIGHT | BISHOP | ROOK | QUEEN | KING | NONETYPE.

(** [NonePiece] is the enumerator [None] of the source (the name is taken
    by [option] here). *)
Inductive Piece :=
| WhitePawn | WhiteKnight | WhiteBishop | WhiteRook | WhiteQueen | WhiteKing
| BlackPawn | BlackKnight | BlackBishop | BlackRook | BlackQueen | BlackKing
| NonePiece.

Definition Color_eqb (a b : Color) : bool :=
  match a, b with White, White | Black, Black => true | _, _ => false end.

Definition PieceType_eqb (a b : PieceType) : bool :=
  match a, b with
  | PAWN, PAWN | KNIGHT, KNIGHT | BISHOP, BISHOP | ROOK, ROOK
  | QUEEN, QUEEN | KING, KING | NONETYPE, NONETYPE => true
  | _, _ => false
  end.

(** The numeric value of an enumerator: [WhitePawn] is 0, [None] is 12. *)
Definition Piece_to_nat (p : Piece) : nat :=
  match p with
  | WhitePawn => 0 | WhiteKnight => 1 | WhiteBishop => 2 | WhiteRook => 3
  | WhiteQueen => 4 | WhiteKing => 5
  | BlackPawn => 6 | BlackKnight => 7 | BlackBishop => 8 | BlackRook => 9
  | BlackQueen => 10 | BlackKing => 11
  | NonePiece => 12
  end%nat.

Definition Piece_eqb (a b : Piece) : bool := Nat.eqb (Piece_to_nat a) (Piece_to_nat b).

(** [operator~] on colours. *)
Definition flip (c : Color) : Color :=
  match c with White => Black | Black => White end.

(** Modelled from the spec: [makePiece] of chess.hpp is absent; a piece
    identity is a piece type together with a colour, 6 types x 2 colours. *)
Definition makePiece (pt : PieceType) (c : Color) : Piece :=
  match pt, c with
  | PAWN, White => WhitePawn | KNIGHT, White => WhiteKnight
  | BISHOP, White => WhiteBishop | ROOK, White => WhiteRook
  | QUEEN, White => WhiteQueen | KING, White => WhiteKing
  | PAWN, Black => BlackPawn | KNIGHT, Black => BlackKnight
  | BISHOP, Black => BlackBishop | ROOK, Black => BlackRook
  | QUEEN, Black => BlackQueen | KING, Black => BlackKing
  | NONETYPE, _ => NonePiece
  end.

(** Modelled from the spec: [type_of_piece] of chess.hpp is absent. *)
Definition type_of_piece (p : Piece) : PieceType :=
  match p with
  | WhitePawn | BlackPawn => PAWN
  | WhiteKnight | BlackKnight => KNIGHT
  | WhiteBishop | BlackBishop => BISHOP
  | WhiteRook | BlackRook => ROOK
  | WhiteQueen | BlackQueen => QUEEN
  | WhiteKing | BlackKing => KING
  | NonePiece => NONETYPE
  end.

(** [piece < BlackPawn ? White : Black], as the accumulator calls write it. *)
Definition color_of_piece (p : Piece) : Color :=
  if (Piece_to_nat p <? 6)%nat then White else Black.

(** ** Squares, files and ranks *)

Definition MAX_SQ : Z := 64.
Definition NO_SQ : Z := 64.

Definition FILE_C : Z := 2.
Definition FILE_D : Z := 3.
Definition FILE_F : Z := 5.
Definition FILE_G : Z := 6.

(** A conversion [Square(e)] from an [int] expression: the enumeration is
    stored in eight bits. *)
Definition Square (x : Z) : Z := x mod 256.

(** Modelled from the spec: the square helpers of chess.hpp are absent;
    squares are numbered 0..63, rank by rank from a1, file a first. *)
Definition square_file (sq : Z) : Z := Z.land sq 7.
Definition square_rank (sq : Z) : Z := Z.shiftr sq 3.
Definition file_rank_square (f r : Z) : Z := Z.shiftl r 3 + f.

Definition in_board (sq : Z) : bool := (0 <=? sq) && (sq <? MAX_SQ).

(** ** Sixty-four bit words *)

Definition U64_MAX : Z := Z.ones 64.

(** [~x] on a 64-bit word. *)
Definition not64 (x : Z) : Z := Z.land (Z.lnot x) U64_MAX.

Definition is_u64 (x : Z) : bool := (0 <=? x) && (x <? 2 ^ 64).

(** Modelled from the spec: the attack table [PawnAttacks(sq, c)] of
    chess.hpp is absent; entry [(sq, c)] is the set of squares a pawn of
    colour [c] standing on [sq] attacks: one rank ahead (towards rank 8 for
    White, towards rank 1 for Black), on the two neighbouring files. *)
Definition PawnAttacks (sq : Z) (c : Color) : Z :=
  let left := if 0 <? square_file sq then true else false in
  let right := if square_file sq <? 7 then true else false in
  match c with
  | White =>
      Z.lor (if left && (sq + 7 <? 64) then Z.shiftl 1 (sq + 7) else 0)
            (if right && (sq + 9 <? 64) then Z.shiftl 1 (sq + 9) else 0)
  | Black =>
      Z.lor (if left && (0 <=? sq - 9) then Z.shiftl 1 (sq - 9) else 0)
            (if right && (0 <=? sq - 7) then Z.shiftl 1 (sq - 7) else 0)
  end.

(** ** Castling rights *)

Definition wk : Z := 1.
Definition wq : Z := 2.
Definition bk : Z := 4.
Definition bq : Z := 8.

Definition SQ_A1 : Z := 0.
Definition SQ_H1 : Z := 7.
Definition SQ_A8 : Z := 56.
Definition SQ_H8 : Z := 63.

(** ** Moves

    Modelled from the spec: the packed [Move] and its accessors [from],
    [to], [piece] and [promoted] are declared in chess.hpp (absent); a move
    exposes its origin square, its destination square, a piece type (the
    promoted-to type for a promotion) and a promotion flag. *)
Record Move := mkMove {
  from : Z;
  to : Z;
  piece : PieceType;
  promoted : bool
}.

(** ** Position state *)

Record State := mkState {
  enPassant : Z;
  castling : Z;
  halfMove : Z;
  capturedPiece : Piece
}.

(** The three history vectors are kept with their [back()] at the head of
    the list: [emplace_back] is a cons, [pop_back] drops the head. *)
Record Board := mkBoard {
  piecesBB : list Z;
  board : list Piece;
  sideToMove : Color;
  enPassantSquare : Z;
  castlingRights : Z;
  halfMoveClock : Z;
  fullMoveNumber : Z;
  hashKey : Z;
  pawnKey : Z;
  hashHistory : list Z;
  pawnKeyHistory : list Z;
  stateHistory : list State
}.

Definition set_piecesBB (v : list Z) (b : Board) : Board :=
  mkBoard v (board b) (sideToMove b) (enPassantSquare b) (castlingRights b)
    (halfMoveClock b) (fullMoveNumber b) (hashKey b) (pawnKey b)
    (hashHistory b) (pawnKeyHistory b) (stateHistory b).
Definition set_board (v : list Piece) (b : Board) : Board :=
  mkBoard (piecesBB b) v (sideToMove b) (enPassantSquare b) (castlingRights b)
    (halfMoveClock b) (fullMoveNumber b) (hashKey b) (pawnKey b)
    (hashHistory b) (pawnKeyHistory b) (stateHistory b).
Definition set_sideToMove (v : Color) (b : Board) : Board :=
  mkBoard (piecesBB b) (board b) v (enPassantSquare b) (castlingRights b)
    (halfMoveClock b) (fullMoveNumber b) (hashKey b) (pawnKey b)
    (hashHistory b) (pawnKeyHistory b) (stateHistory b).
Definition set_enPassantSquare (v : Z) (b : Board) : Board :=
  mkBoard (piecesBB b) (board b) (sideToMove b) v (castlingRights b)
    (halfMoveClock b) (fullMoveNumber b) (hashKey b) (pawnKey b)
    (hashHistory b) (pawnKeyHistory b) (stateHistory b).
Definition set_castlingRights (v : Z) (b : Board) : Board :=
  mkBoard (piecesBB b) (board b) (sideToMove b) (enPassantSquare b) v
    (halfMoveClock b) (fullMoveNumber b) (hashKey b) (pawnKey b)
    (hashHistory b) (pawnKeyHistory b) (stateHistory b).
Definition set_halfMoveClock (v : Z) (b : Board) : Board :=
  mkBoard (piecesBB b) (board b) (sideToMove b) (enPassantSquare b)
    (castlingRights b) v (fullMoveNumber b) (hashKey b) (pawnKey b)
    (hashHistory b) (pawnKeyHistory b) (stateHistory b).
Definition set_fullMoveNumber (v : Z) (b : Board) : Board :=
  mkBoard (piecesBB b) (board b) (sideToMove b) (enPassantSquare b)
    (castlingRights b) (halfMoveClock b) v (hashKey b) (pawnKey b)
    (hashHistory b) (pawnKeyHistory b) (stateHistory b).
Definition set_hashKey (v : Z) (b : Board) : Board :=
  mkBoard (piecesBB b) (board b) (sideToMove b) (enPassantSquare b)
    (castlingRights b) (halfMoveClock b) (fullMoveNumber b) v (pawnKey b)
    (hashHistory b) (pawnKeyHistory b) (stateHistory b).
Definition set_pawnKey (v : Z) (b : Board) : Board :=
  mkBoard (piecesBB b) (board b) (sideToMove b) (enPassantSquare b)
    (castlingRights b) (halfMoveClock b) (fullMoveNumber b) (hashKey b) v
    (hashHistory b) (pawnKeyHistory b) (stateHistory b).
Definition set_hashHistory (v : list Z) (b : Board) : Board :=
  mkBoard (piecesBB b) (board b) (sideToMove b) (enPassantSquare b)
    (castlingRights b) (halfMoveClock b) (fullMoveNumber b) (hashKey b)
    (pawnKey b) v (pawnKeyHistory b) (stateHistory b).
Definition set_pawnKeyHistory (v : list Z) (b : Board) : Board :=
  mkBoard (piecesBB b) (board b) (sideToMove b) (enPassantSquare b)
    (castlingRights b) (halfMoveClock b) (fullMoveNumber b) (hashKey b)
    (pawnKey b) (hashHistory b) v (stateHistory b).
Definition set_stateHistory (v : list State) (b : Board) : Board :=
  mkBoard (piecesBB b) (board b) (sideToMove b) (enPassantSquare b)
    (castlingRights b) (halfMoveClock b) (fullMoveNumber b) (hashKey b)
    (pawnKey b) (hashHistory b) (pawnKeyHistory b) v.

(** ** The evaluator, seen from the board

    [NNUE::Net] lives in nnue.h, outside this file's reach; the board only
    calls it.  The net is therefore the sequence of calls it has received,
    oldest first.  [nnue_refresh] records the bitboards and the mailbox the
    net is handed. *)
Inductive NNUECall :=
| nnue_push
| nnue_pull
| nnue_refresh (bbs : list Z) (mailbox : list Piece)
| nnue_reset_accumulators
| nnue_updateAccumulator_add (pt : PieceType) (c : Color) (sq kSQ_White kSQ_Black : Z)
| nnue_updateAccumulator_remove (pt : PieceType) (c : Color) (sq kSQ_White kSQ_Black : Z)
| nnue_updateAccumulator_move (pt : PieceType) (c : Color) (fromSq toSq kSQ_White kSQ_Black : Z).

Definition Net := list NNUECall.

(** ** A state-and-failure monad for the member functions *)

Definition World : Type := Board * Net.

Definition M (A : Type) : Type := World -> option (A * World).

Definition ret {A} (a : A) : M A := fun w => Some (a, w).

Definition bind {A B} (m : M A) (k : A -> M B) : M B :=
  fun w => match m w with
           | Some (a, w') => k a w'
           | None => None
           end.

(** Undefined behaviour of the source. *)
Definition ub {A} : M A := fun _ => None.

Definition gets {A} (f : Board -> A) : M A := fun w => Some (f (fst w), w).

Definition modify (f : Board -> Board) : M unit :=
  fun w => Some (tt, (f (fst w), snd w)).

Definition call (c : NNUECall) : M unit :=
  fun w => Some (tt, (fst w, snd w ++ [c])).

Definition when (c : bool) (m : M unit) : M unit := if c then m else ret tt.

Declare Scope M_scope.
Delimit Scope M_scope with M.
Notation "x <- m ;; k" := (bind m (fun x => k))
  (at level 100, m at next level, right associativity) : M_scope.
Notation "m ;;; k" := (bind m (fun _ => k))
  (at level 100, right associativity) : M_scope.
Local Open Scope M_scope.

(** *** Array accesses *)

(** [piecesBB[piece]] as an rvalue; the array has twelve entries. *)
Definition piecesBB_get (piece : Piece) : M Z :=
  bbs <- gets piecesBB ;;
  match bbs !! Piece_to_nat piece with
  | Some bb => ret bb
  | None => ub
  end.

(** [piecesBB[piece] = v]. *)
Definition piecesBB_put (piece : Piece) (v : Z) : M unit :=
  bbs <- gets piecesBB ;;
  if (Piece_to_nat piece <? length bbs)%nat
  then modify (set_piecesBB (<[Piece_to_nat piece := v]> bbs))
  else ub.

(** [board[sq]] as an rvalue. *)
Definition board_get (sq : Z) : M Piece :=
  brd <- gets board ;;
  if in_board sq
  then match brd !! Z.to_nat sq with
       | Some p => ret p
       | None => ub
       end
  else ub.

(** [board[sq] = v]. *)
Definition board_put (sq : Z) (v : Piece) : M unit :=
  brd <- gets board ;;
  if in_board sq && (Z.to_nat sq <? length brd)%nat
  then modify (set_board (<[Z.to_nat sq := v]> brd))
  else ub.

(** [1ULL << sq]. *)
Definition bit (sq : Z) : M Z :=
  if in_board sq then ret (Z.shiftl 1 sq) else ub.

(** [pieceAtB(sq)] returns [board[sq]]. *)
Definition pieceAtB (sq : Z) : M Piece := board_get sq.

(** Modelled from the spec: [Board::colorOf(Square)] of chess.hpp is
    absent; it is the colour of the piece standing on the square, as the
    number [piece / 6] (0 White, 1 Black, 2 for an empty square). *)
Definition colorOf (sq : Z) : M Z :=
  p <- pieceAtB sq ;;
  ret (Z.of_nat (Piece_to_nat p) / 6).

(** ** Piece primitives (chess.cpp, lines 366-420) *)

Definition removePiece (piece : Piece) (sq : Z) : M unit :=
  bb <- piecesBB_get piece ;;
  m <- bit sq ;;
  piecesBB_put piece (Z.land bb (not64 m)) ;;;
  board_put sq NonePiece.

Definition placePiece (piece : Piece) (sq : Z) : M unit :=
  bb <- piecesBB_get piece ;;
  m <- bit sq ;;
  piecesBB_put piece (Z.lor bb m) ;;;
  board_put sq piece.

Definition movePiece (piece : Piece) (fromSq toSq : Z) : M unit :=
  bb <- piecesBB_get piece ;;
  m <- bit fromSq ;;
  piecesBB_put piece (Z.land bb (not64 m)) ;;;
  bb <- piecesBB_get piece ;;
  m <- bit toSq ;;
  piecesBB_put piece (Z.lor bb m) ;;;
  board_put fromSq NonePiece ;;;
  board_put toSq piece.

(** [Board::refresh]. *)
Definition refresh : M unit :=
  bbs <- gets piecesBB ;;
  brd <- gets board ;;
  call (nnue_refresh bbs brd).

(** Tables and constants of chess.hpp and nnue.h that the source reads
    and that are not part of chess.cpp: the Zobrist constants behind
    [updateKeyPiece], [updateKeyEnPassant], [updateKeyCastling] (keyed by
    the current castling rights) and [updateKeySideToMove]; the king-bucket
    table; [lsb]; and the widths of the two move counters. *)
Record Tables := mkTables {
  updateKeyPiece : Piece -> Z -> Z;
  updateKeyEnPassant : Z -> Z;
  castlingKey : Z -> Z;
  updateKeySideToMove : Z;
  KING_BUCKET : Z -> Z;
  lsb : Z -> Z;
  halfMoveClock_bits : Z;
  fullMoveNumber_bits : Z
}.

Section Tables.

Variable T : Tables.

Definition updateKeyCastling : M Z :=
  cr <- gets castlingRights ;;
  ret (castlingKey T cr).

Definition xor_hashKey (k : Z) : M unit :=
  modify (fun b => set_hashKey (Z.lxor (hashKey b) k) b).

Definition xor_pawnKey (k : Z) : M unit :=
  modify (fun b => set_pawnKey (Z.lxor (pawnKey b) k) b).

(** Modelled from the spec: [removeCastlingRightsAll] of chess.hpp is
    absent; it clears both castling rights of the colour. *)
Definition removeCastlingRightsAll (c : Color) : M unit :=
  modify (fun b =>
    set_castlingRights
      (Z.land (castlingRights b)
         (match c with
          | White => Z.lnot (Z.lor wk wq)
          | Black => Z.lnot (Z.lor bk bq)
          end)) b).

(** Modelled from the spec: [removeCastlingRightsRook] of chess.hpp is
    absent; a rook leaving, or captured on, its corner square clears the
    corresponding single right. *)
Definition removeCastlingRightsRook (sq : Z) : M unit :=
  if sq =? SQ_A1 then modify (fun b => set_castlingRights (Z.land (castlingRights b) (Z.lnot wq)) b)
  else if sq =? SQ_H1 then modify (fun b => set_castlingRights (Z.land (castlingRights b) (Z.lnot wk)) b)
  else if sq =? SQ_A8 then modify (fun b => set_castlingRights (Z.land (castlingRights b) (Z.lnot bq)) b)
  else if sq =? SQ_H8 then modify (fun b => set_castlingRights (Z.land (castlingRights b) (Z.lnot bk)) b)
  else ret tt.

(** [static_cast<bool>(sideToMove) * 56]. *)
Definition mirror (c : Color) : Z := match c with White => 0 | Black => 56 end.

(** The test both [makeMove] (castling) and [movePiece] (king moves) make
    before choosing between incremental updates and a refresh. *)
Definition bucket_crossing (stm : Color) (fromSq toSq : Z) : bool :=
  negb (KING_BUCKET T (Z.lxor fromSq (mirror stm)) =? KING_BUCKET T (Z.lxor toSq (mirror stm)))
  || (square_file fromSq + square_file toSq =? 7).

(** *** The templated primitives (lines 386-420) *)

Definition removePieceT (updateNNUE : bool) (piece : Piece) (sq kSQ_White kSQ_Black : Z) : M unit :=
  bb <- piecesBB_get piece ;;
  m <- bit sq ;;
  piecesBB_put piece (Z.land bb (not64 m)) ;;;
  board_put sq NonePiece ;;;
  when updateNNUE
    (call (nnue_updateAccumulator_remove (type_of_piece piece) (color_of_piece piece)
             sq kSQ_White kSQ_Black)).

Definition placePieceT (updateNNUE : bool) (piece : Piece) (sq kSQ_White kSQ_Black : Z) : M unit :=
  bb <- piecesBB_get piece ;;
  m <- bit sq ;;
  piecesBB_put piece (Z.lor bb m) ;;;
  board_put sq piece ;;;
  when updateNNUE
    (call (nnue_updateAccumulator_add (type_of_piece piece) (color_of_piece piece)
             sq kSQ_White kSQ_Black)).

Definition movePieceT (updateNNUE : bool) (piece : Piece) (fromSq toSq kSQ_White kSQ_Black : Z) : M unit :=
  bb <- piecesBB_get piece ;;
  m <- bit fromSq ;;
  piecesBB_put piece (Z.land bb (not64 m)) ;;;
  bb <- piecesBB_get piece ;;
  m <- bit toSq ;;
  piecesBB_put piece (Z.lor bb m) ;;;
  board_put fromSq NonePiece ;;;
  board_put toSq piece ;;;
  when updateNNUE
    (stm <- gets sideToMove ;;
     if PieceType_eqb (type_of_piece piece) KING && bucket_crossing stm fromSq toSq
     then refresh
     else call (nnue_updateAccumulator_move (type_of_piece piece) (color_of_piece piece)
                  fromSq toSq kSQ_White kSQ_Black)).

(** *** History vectors: [back()] followed by [pop_back()] *)

Definition pop_stateHistory : M State :=
  h <- gets stateHistory ;;
  match h with
  | restore :: rest => modify (set_stateHistory rest) ;;; ret restore
  | [] => ub
  end.

Definition pop_hashHistory : M Z :=
  h <- gets hashHistory ;;
  match h with
  | k :: rest => modify (set_hashHistory rest) ;;; ret k
  | [] => ub
  end.

Definition pop_pawnKeyHistory : M Z :=
  h <- gets pawnKeyHistory ;;
  match h with
  | k :: rest => modify (set_pawnKeyHistory rest) ;;; ret k
  | [] => ub
  end.

(** An unsigned counter of the given width after an increment or a
    decrement. *)
Definition wrap (bits x : Z) : Z := x mod 2 ^ bits.

(** ** [Board::makeMove] (lines 120-275)

    The body is cut at the banner comments of the source: the outgoing
    hash contributions (lines 155-159), the hash update of the move itself
    (lines 164-219) and the update of the pieces (lines 225-272). *)

Definition makeMove_hashOut (eps : Z) : M unit :=
  when (negb (eps =? NO_SQ)) (xor_hashKey (updateKeyEnPassant T eps)) ;;;
  modify (set_enPassantSquare NO_SQ) ;;;
  (k <- updateKeyCastling ;; xor_hashKey k).

Definition makeMove_hashMove (move : Move) (stm : Color) (capture : Piece)
    (ep isCastling : bool) : M unit :=
  let pt := piece move in
  let p := makePiece pt stm in
  let from_sq := from move in
  let to_sq := to move in
  when isCastling
    (let rook := match stm with White => WhiteRook | Black => BlackRook end in
     let rookSQ := file_rank_square (if from_sq <? to_sq then FILE_F else FILE_D)
                     (square_rank from_sq) in
     xor_hashKey (updateKeyPiece T rook to_sq) ;;;
     xor_hashKey (updateKeyPiece T rook rookSQ)) ;;;
  (if PieceType_eqb pt KING then removeCastlingRightsAll stm
   else if PieceType_eqb pt ROOK then removeCastlingRightsRook from_sq
   else if PieceType_eqb pt PAWN then
     modify (set_halfMoveClock 0) ;;;
     if ep then
       xor_hashKey (updateKeyPiece T (makePiece PAWN (flip stm)) (Square (Z.lxor to_sq 8)))
     else if Z.abs (from_sq - to_sq) =? 16 then
       let epMask := PawnAttacks (Square (Z.lxor to_sq 8)) stm in
       pawns <- piecesBB_get (makePiece PAWN (flip stm)) ;;
       when (negb (Z.land epMask pawns =? 0))
         (modify (set_enPassantSquare (Square (Z.lxor to_sq 8))) ;;;
          xor_hashKey (updateKeyEnPassant T (Square (Z.lxor to_sq 8))))
     else ret tt
   else ret tt) ;;;
  when (negb (Piece_eqb capture NonePiece) && negb isCastling)
    (modify (set_halfMoveClock 0) ;;;
     xor_hashKey (updateKeyPiece T capture to_sq) ;;;
     when (PieceType_eqb (type_of_piece capture) ROOK) (removeCastlingRightsRook to_sq)) ;;;
  (if promoted move then
     modify (set_halfMoveClock 0) ;;;
     xor_hashKey (updateKeyPiece T (makePiece PAWN stm) from_sq) ;;;
     xor_hashKey (updateKeyPiece T p to_sq) ;;;
     when (PieceType_eqb pt PAWN)
       (xor_pawnKey (updateKeyPiece T (makePiece PAWN stm) from_sq) ;;;
        xor_pawnKey (updateKeyPiece T p to_sq))
   else
     xor_hashKey (updateKeyPiece T p from_sq) ;;;
     xor_hashKey (updateKeyPiece T p to_sq) ;;;
     when (PieceType_eqb pt PAWN)
       (xor_pawnKey (updateKeyPiece T p from_sq) ;;;
        xor_pawnKey (updateKeyPiece T p to_sq))) ;;;
  xor_hashKey (updateKeySideToMove T) ;;;
  (k <- updateKeyCastling ;; xor_hashKey k).

Definition makeMove_pieces (updateNNUE : bool) (move : Move) (stm : Color) (capture : Piece)
    (ep isCastling : bool) (kSQ_White kSQ_Black : Z) : M unit :=
  let pt := piece move in
  let p := makePiece pt stm in
  let from_sq := from move in
  let to_sq := to move in
  (if isCastling then
     let rook := match stm with White => WhiteRook | Black => BlackRook end in
     let rookToSq := file_rank_square (if from_sq <? to_sq then FILE_F else FILE_D)
                       (square_rank from_sq) in
     let kingToSq := file_rank_square (if from_sq <? to_sq then FILE_G else FILE_C)
                       (square_rank from_sq) in
     if updateNNUE && bucket_crossing stm from_sq kingToSq then
       removePiece p from_sq ;;;
       removePiece rook to_sq ;;;
       placePiece p kingToSq ;;;
       placePiece rook rookToSq ;;;
       refresh
     else
       removePieceT updateNNUE p from_sq kSQ_White kSQ_Black ;;;
       removePieceT updateNNUE rook to_sq kSQ_White kSQ_Black ;;;
       placePieceT updateNNUE p kingToSq kSQ_White kSQ_Black ;;;
       placePieceT updateNNUE rook rookToSq kSQ_White kSQ_Black
   else if PieceType_eqb pt PAWN && ep then
     removePieceT updateNNUE (makePiece PAWN (flip stm)) (Square (Z.lxor to_sq 8))
       kSQ_White kSQ_Black
   else if negb (Piece_eqb capture NonePiece) && negb isCastling then
     when (Piece_eqb capture WhitePawn || Piece_eqb capture BlackPawn)
       (xor_pawnKey (updateKeyPiece T capture to_sq)) ;;;
     removePieceT updateNNUE capture to_sq kSQ_White kSQ_Black
   else ret tt) ;;;
  (if promoted move then
     removePieceT updateNNUE (makePiece PAWN stm) from_sq kSQ_White kSQ_Black ;;;
     placePieceT updateNNUE p to_sq kSQ_White kSQ_Black
   else if negb isCastling then
     movePieceT updateNNUE p from_sq to_sq kSQ_White kSQ_Black
   else ret tt).

Definition makeMove (updateNNUE : bool) (move : Move) : M unit :=
  let pt := piece move in
  stm <- gets sideToMove ;;
  let from_sq := from move in
  let to_sq := to move in
  capture <- board_get to_sq ;;
  (* store state history *)
  modify (fun b => set_hashHistory (hashKey b :: hashHistory b) b) ;;;
  modify (fun b => set_stateHistory
                     (mkState (enPassantSquare b) (castlingRights b) (halfMoveClock b) capture
                        :: stateHistory b) b) ;;;
  modify (fun b => set_pawnKeyHistory (pawnKey b :: pawnKeyHistory b) b) ;;;
  when updateNNUE (call nnue_push) ;;;
  modify (fun b => set_halfMoveClock (wrap (halfMoveClock_bits T) (halfMoveClock b + 1)) b) ;;;
  modify (fun b => set_fullMoveNumber (wrap (fullMoveNumber_bits T) (fullMoveNumber b + 1)) b) ;;;
  eps <- gets enPassantSquare ;;
  let ep := to_sq =? eps in
  isCastling <-
    (if PieceType_eqb pt KING && PieceType_eqb (type_of_piece capture) ROOK
     then c1 <- colorOf from_sq ;; c2 <- colorOf to_sq ;; ret (c1 =? c2)
     else ret false) ;;
  (* update hash *)
  makeMove_hashOut eps ;;;
  kSQ_White <- (bb <- piecesBB_get WhiteKing ;; ret (lsb T bb)) ;;
  kSQ_Black <- (bb <- piecesBB_get BlackKing ;; ret (lsb T bb)) ;;
  makeMove_hashMove move stm capture ep isCastling ;;;
  (* update pieces *)
  makeMove_pieces updateNNUE move stm capture ep isCastling kSQ_White kSQ_Black ;;;
  modify (fun b => set_sideToMove (flip (sideToMove b)) b).

(** ** [Board::unmakeMove] (lines 277-336) *)

Definition unmakeMove (updateNNUE : bool) (move : Move) : M unit :=
  restore <- pop_stateHistory ;;
  (k <- pop_hashHistory ;; modify (set_hashKey k)) ;;;
  (k <- pop_pawnKeyHistory ;; modify (set_pawnKey k)) ;;;
  when updateNNUE (call nnue_pull) ;;;
  modify (set_enPassantSquare (enPassant restore)) ;;;
  modify (set_castlingRights (castling restore)) ;;;
  modify (set_halfMoveClock (halfMove restore)) ;;;
  let capture := capturedPiece restore in
  modify (fun b => set_fullMoveNumber (wrap (fullMoveNumber_bits T) (fullMoveNumber b - 1)) b) ;;;
  let from_sq := from move in
  let to_sq := to move in
  let promotion := promoted move in
  modify (fun b => set_sideToMove (flip (sideToMove b)) b) ;;;
  let pt := piece move in
  stm <- gets sideToMove ;;
  let p := makePiece pt stm in
  let isCastling :=
    (Piece_eqb p WhiteKing && Piece_eqb capture WhiteRook)
    || (Piece_eqb p BlackKing && Piece_eqb capture BlackRook) in
  (* the statements after the if-chain; the promotion branch returns
     before them *)
  let after (to_sq : Z) : M unit :=
    eps <- gets enPassantSquare ;;
    if (to_sq =? eps) && PieceType_eqb pt PAWN then
      let offset := match stm with White => -8 | Black => 8 end in
      placePiece (makePiece PAWN (flip stm)) (Square (eps + offset))
    else if negb (Piece_eqb capture NonePiece) && negb isCastling then
      placePiece capture to_sq
    else ret tt in
  if isCastling then
    let rookToSq := to_sq in
    let rook := match stm with White => WhiteRook | Black => BlackRook end in
    let rookFromSq := file_rank_square (if from_sq <? to_sq then FILE_F else FILE_D)
                        (square_rank from_sq) in
    let to_sq := file_rank_square (if from_sq <? to_sq then FILE_G else FILE_C)
                   (square_rank from_sq) in
    removePiece rook rookFromSq ;;;
    removePiece p to_sq ;;;
    placePiece p from_sq ;;;
    placePiece rook rookToSq ;;;
    after to_sq
  else if promotion then
    removePiece p to_sq ;;;
    placePiece (makePiece PAWN stm) from_sq ;;;
    when (negb (Piece_eqb capture NonePiece)) (placePiece capture to_sq)
  else
    movePiece p to_sq from_sq ;;;
    after to_sq.

(** ** Null moves (lines 338-364) *)

Definition makeNullMove : M unit :=
  modify (fun b => set_stateHistory
                     (mkState (enPassantSquare b) (castlingRights b) (halfMoveClock b) NonePiece
                        :: stateHistory b) b) ;;;
  modify (fun b => set_sideToMove (flip (sideToMove b)) b) ;;;
  xor_hashKey (updateKeySideToMove T) ;;;
  eps <- gets enPassantSquare ;;
  when (negb (eps =? NO_SQ)) (xor_hashKey (updateKeyEnPassant T eps)) ;;;
  modify (set_enPassantSquare NO_SQ) ;;;
  modify (fun b => set_fullMoveNumber (wrap (fullMoveNumber_bits T) (fullMoveNumber b + 1)) b).

Definition unmakeNullMove : M unit :=
  restore <- pop_stateHistory ;;
  modify (set_enPassantSquare (enPassant restore)) ;;;
  modify (set_castlingRights (castling restore)) ;;;
  modify (set_halfMoveClock (halfMove restore)) ;;;
  xor_hashKey (updateKeySideToMove T) ;;;
  eps <- gets enPassantSquare ;;
  when (negb (eps =? NO_SQ)) (xor_hashKey (updateKeyEnPassant T eps)) ;;;
  modify (fun b => set_fullMoveNumber (wrap (fullMoveNumber_bits T) (fullMoveNumber b - 1)) b) ;;;
  modify (fun b => set_sideToMove (flip (sideToMove b)) b).

(** ** [Board::applyFen] (lines 44-116) *)

(** Modelled from the spec: [splitInput] of chess.hpp is absent; the
    fields of a position descriptor are separated by single spaces. *)
Fixpoint splitInput_from (cur : string) (fen : string) : list string :=
  match fen with
  | EmptyString => if (String.length cur =? 0)%nat then [] else [cur]
  | String c rest =>
      if Ascii.eqb c " " then cur :: splitInput_from EmptyString rest
      else splitInput_from (cur ++ String c EmptyString) rest
  end.

Definition splitInput (fen : string) : list string := splitInput_from EmptyString fen.

(** [params[i]] on the vector of fields. *)
Definition param (params : list string) (i : nat) : M string :=
  match params !! i with
  | Some s => ret s
  | None => ub
  end.

(** [s[i]] on a [std::string]: the terminating null at [i = size()]. *)
Definition string_at (s : string) (i : nat) : M ascii :=
  match String.get i s with
  | Some c => ret c
  | None => if (i =? String.length s)%nat then ret Ascii.zero else ub
  end.

(** Modelled from the spec: the map [charToPiece] of chess.hpp is absent;
    piece letters are [PNBRQK], upper case for White, lower case for Black. *)
Definition charToPiece (c : ascii) : option Piece :=
  if Ascii.eqb c "P" then Some WhitePawn
  else if Ascii.eqb c "N" then Some WhiteKnight
  else if Ascii.eqb c "B" then Some WhiteBishop
  else if Ascii.eqb c "R" then Some WhiteRook
  else if Ascii.eqb c "Q" then Some WhiteQueen
  else if Ascii.eqb c "K" then Some WhiteKing
  else if Ascii.eqb c "p" then Some BlackPawn
  else if Ascii.eqb c "n" then Some BlackKnight
  else if Ascii.eqb c "b" then Some BlackBishop
  else if Ascii.eqb c "r" then Some BlackRook
  else if Ascii.eqb c "q" then Some BlackQueen
  else if Ascii.eqb c "k" then Some BlackKing
  else None.

(** Modelled from the spec: the map [readCastleString] of chess.hpp is
    absent; the castling characters are [KQkq], one per right. *)
Definition readCastleString (c : ascii) : option Z :=
  if Ascii.eqb c "K" then Some wk
  else if Ascii.eqb c "Q" then Some wq
  else if Ascii.eqb c "k" then Some bk
  else if Ascii.eqb c "q" then Some bq
  else None.

Definition isdigit (c : ascii) : bool :=
  (48 <=? nat_of_ascii c)%nat && (nat_of_ascii c <=? 57)%nat.

Definition isspace (c : ascii) : bool :=
  (nat_of_ascii c =? 32)%nat || ((9 <=? nat_of_ascii c)%nat && (nat_of_ascii c <=? 13)%nat).

Definition INT_MAX : Z := 2 ^ 31 - 1.
Definition INT_MIN : Z := - 2 ^ 31.

(** [std::stoi]: leading white space, an optional sign, then decimal
    digits up to the first other character.  No digit, or a value outside
    [int], throws; the computation does not continue. *)
Fixpoint stoi_digits (s : string) (acc : Z) : Z :=
  match s with
  | String c rest =>
      if isdigit c then stoi_digits rest (acc * 10 + (Z.of_nat (nat_of_ascii c) - 48))
      else acc
  | EmptyString => acc
  end.

Fixpoint stoi_skip (s : string) : string :=
  match s with
  | String c rest => if isspace c then stoi_skip rest else s
  | EmptyString => s
  end.

Definition starts_with_digit (s : string) : bool :=
  match s with
  | String c _ => isdigit c
  | EmptyString => false
  end.

Definition stoi (s : string) : M Z :=
  let s := stoi_skip s in
  let '(neg, body) :=
    match s with
    | String c rest =>
        if Ascii.eqb c "-" then (true, rest)
        else if Ascii.eqb c "+" then (false, rest)
        else (false, s)
    | EmptyString => (false, s)
    end in
  if starts_with_digit body then
    let v := if neg then - stoi_digits body 0 else stoi_digits body 0 in
    if (INT_MIN <=? v) && (v <=? INT_MAX) then ret v else ub
  else ub.

(** The contribution of every square of a mailbox, folded with xor. *)
Fixpoint fold_squares (f : Piece -> Z -> Z) (brd : list Piece) (sq : Z) : Z :=
  match brd with
  | [] => 0
  | p :: rest => Z.lxor (f p sq) (fold_squares f rest (sq + 1))
  end.

Definition piece_contribution (p : Piece) (sq : Z) : Z :=
  if Piece_eqb p NonePiece then 0 else updateKeyPiece T p sq.

Definition pawn_contribution (p : Piece) (sq : Z) : Z :=
  if PieceType_eqb (type_of_piece p) PAWN then updateKeyPiece T p sq else 0.

(** Modelled from the spec: [Board::zobristHash] of chess.hpp is absent;
    the key from scratch folds every piece/square, side-to-move, castling
    and en-passant contribution of the current position. *)
Definition zobristHash_of (b : Board) : Z :=
  Z.lxor
    (Z.lxor
       (Z.lxor (fold_squares piece_contribution (board b) 0)
          (castlingKey T (castlingRights b)))
       (match sideToMove b with White => updateKeySideToMove T | Black => 0 end))
    (if enPassantSquare b =? NO_SQ then 0 else updateKeyEnPassant T (enPassantSquare b)).

Definition zobristHash : M Z := gets zobristHash_of.

(** The pawn key from scratch: the fold the loader performs while it
    places the pieces, restricted to pawns. *)
Definition pawnKey_of (b : Board) : Z := fold_squares pawn_contribution (board b) 0.

Definition all_pieces : list Piece :=
  [WhitePawn; WhiteKnight; WhiteBishop; WhiteRook; WhiteQueen; WhiteKing;
   BlackPawn; BlackKnight; BlackBishop; BlackRook; BlackQueen; BlackKing].

(** The loop over [position] (lines 65-81). *)
Fixpoint applyFen_position (position : string) (square : Z) : M unit :=
  match position with
  | EmptyString => ret tt
  | String curr rest =>
      match charToPiece curr with
      | Some piece =>
          placePiece piece square ;;;
          when (PieceType_eqb (type_of_piece piece) PAWN)
            (xor_pawnKey (updateKeyPiece T piece square)) ;;;
          applyFen_position rest (Square (square + 1))
      | None =>
          if Ascii.eqb curr "/" then applyFen_position rest (Square (square - 16))
          else if isdigit curr then
            applyFen_position rest (Square (square + (Z.of_nat (nat_of_ascii curr) - 48)))
          else applyFen_position rest square
      end
  end.

(** The loop over [castling] (lines 86-89). *)
Fixpoint applyFen_castling (castling : string) : M unit :=
  match castling with
  | EmptyString => ret tt
  | String c rest =>
      match readCastleString c with
      | Some r => modify (fun b => set_castlingRights (Z.lor (castlingRights b) r) b)
      | None => ret tt
      end ;;;
      applyFen_castling rest
  end.

Definition applyFen (fen : string) : M unit :=
  fold_right (fun p k => piecesBB_put p 0 ;;; k) (ret tt) all_pieces ;;;
  modify (set_pawnKey 0) ;;;
  let params := splitInput fen in
  position <- param params 0 ;;
  move_right <- param params 1 ;;
  castling <- param params 2 ;;
  en_passant <- param params 3 ;;
  half_move_clock <- (if (4 <? length params)%nat then param params 4 else ret "0"%string) ;;
  full_move_counter <- (if (4 <? length params)%nat then param params 5 else ret "1"%string) ;;
  modify (set_sideToMove (if String.eqb move_right "w" then White else Black)) ;;;
  modify (fun b => set_board (replicate (length (board b)) NonePiece) b) ;;;
  applyFen_position position (Square 56) ;;;
  removeCastlingRightsAll White ;;;
  removeCastlingRightsAll Black ;;;
  applyFen_castling castling ;;;
  (if String.eqb en_passant "-" then modify (set_enPassantSquare NO_SQ)
   else
     letter <- string_at en_passant 0 ;;
     digit <- string_at en_passant 1 ;;
     let file := Z.of_nat (nat_of_ascii letter) - 96 in
     let rank := Z.of_nat (nat_of_ascii digit) - 48 in
     modify (set_enPassantSquare (Square ((rank - 1) * 8 + file - 1)))) ;;;
  (v <- stoi half_move_clock ;;
   modify (set_halfMoveClock (wrap (halfMoveClock_bits T) v))) ;;;
  (v <- stoi full_move_counter ;;
   if (INT_MIN <=? v * 2) && (v * 2 <=? INT_MAX)
   then modify (set_fullMoveNumber (wrap (fullMoveNumber_bits T) (v * 2)))
   else ub) ;;;
  (k <- zobristHash ;; modify (set_hashKey k)) ;;;
  modify (set_hashHistory []) ;;;
  modify (set_pawnKeyHistory []) ;;;
  modify (set_stateHistory []) ;;;
  modify (fun b => set_hashHistory (hashKey b :: hashHistory b) b) ;;;
  modify (fun b => set_pawnKeyHistory (pawnKey b :: pawnKeyHistory b) b) ;;;
  refresh ;;;
  call nnue_reset_accumulators.

End Tables.

(** ** Well-formed positions *)

(** The board representation: the bitboards and the mailbox. *)
Definition Rep : Type := list Z * list Piece.

Definition rep (b : Board) : Rep := (piecesBB b, board b).

Definition with_rep (r : Rep) (b : Board) : Board :=
  set_board (snd r) (set_piecesBB (fst r) b).

(** [piecesBB[p]] and [board[sq]] as total look-ups (0 and [None] outside
    the arrays), for stating properties. *)
Definition bbv (bbs : list Z) (p : Piece) : Z := default 0 (bbs !! Piece_to_nat p).

Definition at_sq (brd : list Piece) (sq : Z) : Piece :=
  if in_board sq then default NonePiece (brd !! Z.to_nat sq) else NonePiece.

Definition squares : list Z := map Z.of_nat (seq 0 64).

(** Bitboards and mailbox agree: bit [sq] of the bitboard of [p] is set
    exactly when the mailbox holds [p] on [sq]. *)
Definition consistentb (bbs : list Z) (brd : list Piece) : bool :=
  forallb (fun p =>
    forallb (fun sq => Bool.eqb (Z.testbit (bbv bbs p) sq) (Piece_eqb (at_sq brd sq) p))
      squares) all_pieces.

(** A well-formed representation: twelve 64-bit bitboards, a mailbox of 64
    squares, and the two in agreement. *)
Definition wf_rep (b : Board) : bool :=
  (length (piecesBB b) =? 12)%nat && (length (board b) =? 64)%nat
  && forallb is_u64 (piecesBB b)
  && consistentb (piecesBB b) (board b).

(** A position: a well-formed representation and a ply counter that fits
    its field. *)
Definition wf_position (T : Tables) (b : Board) : bool :=
  wf_rep b && (0 <=? fullMoveNumber b) && (fullMoveNumber b <? 2 ^ fullMoveNumber_bits T).

Definition lens (r : Rep) : Prop :=
  length (fst r) = 12%nat /\ length (snd r) = 64%nat.

Definition consistent (r : Rep) : Prop :=
  forall p sq, p <> NonePiece -> 0 <= sq < 64 ->
    (Z.testbit (bbv (fst r) p) sq = true <-> at_sq (snd r) sq = p).

Definition all_u64 (r : Rep) : Prop :=
  forall p, p <> NonePiece -> 0 <= bbv (fst r) p < 2 ^ 64.

Definition wf (r : Rep) : Prop := lens r /\ all_u64 r /\ consistent r.

(** ** The contract of a move

    [makeMove] trusts its caller; these are the conditions its assertions
    and its use of the board rely on, and every legal move in the engine's
    encoding (castling as the king taking its own rook) meets them. *)

Definition castle_kingTo (m : Move) : Z :=
  file_rank_square (if from m <? to m then FILE_G else FILE_C) (square_rank (from m)).

Definition castle_rookTo (m : Move) : Z :=
  file_rank_square (if from m <? to m then FILE_F else FILE_D) (square_rank (from m)).

Definition own_rook (c : Color) : Piece :=
  match c with White => WhiteRook | Black => BlackRook end.

Definition is_castling (b : Board) (m : Move) : bool :=
  PieceType_eqb (piece m) KING && Piece_eqb (at_sq (board b) (to m)) (own_rook (sideToMove b)).

Definition is_enPassant (b : Board) (m : Move) : bool :=
  PieceType_eqb (piece m) PAWN && (to m =? enPassantSquare b).

Definition free_or_vacated (b : Board) (m : Move) (sq : Z) : bool :=
  (sq =? from m) || (sq =? to m) || Piece_eqb (at_sq (board b) sq) NonePiece.

Definition move_contract (b : Board) (m : Move) : bool :=
  let stm := sideToMove b in
  let capture := at_sq (board b) (to m) in
  in_board (from m) && in_board (to m) && negb (from m =? to m)
  && negb (PieceType_eqb (piece m) NONETYPE)
  && negb (PieceType_eqb (type_of_piece capture) KING)
  && (if promoted m then
        negb (PieceType_eqb (piece m) PAWN) && negb (PieceType_eqb (piece m) KING)
        && Piece_eqb (at_sq (board b) (from m)) (makePiece PAWN stm)
      else
        Piece_eqb (at_sq (board b) (from m)) (makePiece (piece m) stm)
        && (if is_castling b m then
              free_or_vacated b m (castle_kingTo m) && free_or_vacated b m (castle_rookTo m)
            else if is_enPassant b m then
              Piece_eqb capture NonePiece
              && Piece_eqb (at_sq (board b) (Z.lxor (to m) 8)) (makePiece PAWN (flip stm))
              && (Z.lxor (to m) 8 =? to m + match stm with White => -8 | Black => 8 end)
            else true)).

(** ** The effect of the primitives on the representation *)

Definition rm (p : Piece) (sq : Z) (r : Rep) : Rep :=
  (<[Piece_to_nat p := Z.land (bbv (fst r) p) (not64 (Z.shiftl 1 sq))]> (fst r),
   <[Z.to_nat sq := NonePiece]> (snd r)).

Definition pl (p : Piece) (sq : Z) (r : Rep) : Rep :=
  (<[Piece_to_nat p := Z.lor (bbv (fst r) p) (Z.shiftl 1 sq)]> (fst r),
   <[Z.to_nat sq := p]> (snd r)).

(** ** Total-correctness triples over [M] *)

Definition hoare {A} (P : World -> Prop) (m : M A) (Q : A -> World -> Prop) : Prop :=
  forall w, P w -> exists a w', m w = Some (a, w') /\ Q a w'.

(** The board a computation ends in, if it ends. *)
Definition board_of {A} (r : option (A * World)) : option Board :=
  match r with
  | Some (_, (b, _)) => Some b
  | None => None
  end.

(** ** Well-formed piece placements

    The squares the loader places a piece on, in the order of the
    descriptor; a placement is well formed when they are on the board and
    no square is addressed twice. *)
Fixpoint fen_squares (position : string) (square : Z) : list Z :=
  match position with
  | EmptyString => []
  | String curr rest =>
      match charToPiece curr with
      | Some _ => square :: fen_squares rest (Square (square + 1))
      | None =>
          if Ascii.eqb curr "/" then fen_squares rest (Square (square - 16))
          else if isdigit curr then
            fen_squares rest (Square (square + (Z.of_nat (nat_of_ascii curr) - 48)))
          else fen_squares rest square
      end
  end.

Fixpoint nodupb (l : list Z) : bool :=
  match l with
  | [] => true
  | x :: rest => negb (existsb (Z.eqb x) rest) && nodupb rest
  end.

Definition placement_ok (fen : string) : bool :=
  match splitInput fen with
  | position :: _ =>
      forallb in_board (fen_squares position (Square 56))
      && nodupb (fen_squares position (Square 56))
  | [] => false
  end.

(** Partial-correctness invariants: what holds of the result if there is
    one. *)
Definition pinv {A} (I : World -> Prop) (m : M A) : Prop :=
  forall w a w', I w -> m w = Some (a, w') -> I w'.

(** What the loader leaves alone once the pieces are placed. *)
Definition loaded (r : Rep) (pk : Z) (w : World) : Prop :=
  rep (fst w) = r /\ pawnKey (fst w) = pk.

(** What the hash update of [makeMove] leaves alone. *)
Definition core (b : Board)
  : Rep * Color * Z * list Z * list Z * list State :=
  (rep b, sideToMove b, fullMoveNumber b, hashHistory b, pawnKeyHistory b, stateHistory b).

Definition frame (c : Rep * Color * Z * list Z * list Z * list State) (n : Net)
    (w : World) : Prop :=
  core (fst w) = c /\ snd w = n.

Definition inv {A} (I : World -> Prop) (m : M A) : Prop := hoare I m (fun _ => I).

(** ** The update of the pieces, as a function on representations *)

Section Calls.

Variable T : Tables.

Definition calls_remove (updateNNUE : bool) (p : Piece) (sq kW kB : Z) : Net :=
  if updateNNUE
  then [nnue_updateAccumulator_remove (type_of_piece p) (color_of_piece p) sq kW kB]
  else [].

Definition calls_place (updateNNUE : bool) (p : Piece) (sq kW kB : Z) : Net :=
  if updateNNUE
  then [nnue_updateAccumulator_add (type_of_piece p) (color_of_piece p) sq kW kB]
  else [].

Definition calls_move (updateNNUE : bool) (stm : Color) (r' : Rep) (p : Piece)
    (fromSq toSq kW kB : Z) : Net :=
  if updateNNUE then
    if PieceType_eqb (type_of_piece p) KING && bucket_crossing T stm fromSq toSq
    then [nnue_refresh (fst r') (snd r')]
    else [nnue_updateAccumulator_move (type_of_piece p) (color_of_piece p) fromSq toSq kW kB]
  else [].

(** The representation after the first if-chain of the piece update
    (castling, en-passant capture, capture), and after the whole of it. *)
Definition pieces_rep1 (m : Move) (stm : Color) (capture : Piece) (ep isCastling : bool)
    (r : Rep) : Rep :=
  let p := makePiece (piece m) stm in
  if isCastling then
    pl (own_rook stm) (castle_rookTo m)
      (pl p (castle_kingTo m) (rm (own_rook stm) (to m) (rm p (from m) r)))
  else if PieceType_eqb (piece m) PAWN && ep then
    rm (makePiece PAWN (flip stm)) (Square (Z.lxor (to m) 8)) r
  else if negb (Piece_eqb capture NonePiece) && negb isCastling then
    rm capture (to m) r
  else r.

Definition pieces_rep (m : Move) (stm : Color) (capture : Piece) (ep isCastling : bool)
    (r : Rep) : Rep :=
  let p := makePiece (piece m) stm in
  let r1 := pieces_rep1 m stm capture ep isCastling r in
  if promoted m then pl p (to m) (rm (makePiece PAWN stm) (from m) r1)
  else if negb isCastling then pl p (to m) (rm p (from m) r1)
  else r1.

Definition pieces_pawnKey (m : Move) (capture : Piece) (ep isCastling : bool) (pk : Z) : Z :=
  if isCastling then pk
  else if PieceType_eqb (piece m) PAWN && ep then pk
  else if negb (Piece_eqb capture NonePiece) && negb isCastling then
    if Piece_eqb capture WhitePawn || Piece_eqb capture BlackPawn
    then Z.lxor pk (updateKeyPiece T capture (to m))
    else pk
  else pk.

Definition pieces_calls (updateNNUE : bool) (m : Move) (stm : Color) (capture : Piece)
    (ep isCastling : bool) (kW kB : Z) (r : Rep) : Net :=
  let p := makePiece (piece m) stm in
  let r1 := pieces_rep1 m stm capture ep isCastling r in
  (if isCastling then
     if updateNNUE && bucket_crossing T stm (from m) (castle_kingTo m)
     then [nnue_refresh (fst r1) (snd r1)]
     else calls_remove updateNNUE p (from m) kW kB
          ++ calls_remove updateNNUE (own_rook stm) (to m) kW kB
          ++ calls_place updateNNUE p (castle_kingTo m) kW kB
          ++ calls_place updateNNUE (own_rook stm) (castle_rookTo m) kW kB
   else if PieceType_eqb (piece m) PAWN && ep then
     calls_remove updateNNUE (makePiece PAWN (flip stm)) (Square (Z.lxor (to m) 8)) kW kB
   else if negb (Piece_eqb capture NonePiece) && negb isCastling then
     calls_remove updateNNUE capture (to m) kW kB
   else [])
  ++ (if promoted m then
        calls_remove updateNNUE (makePiece PAWN stm) (from m) kW kB
        ++ calls_place updateNNUE p (to m) kW kB
      else if negb isCastling then
        calls_move updateNNUE stm (pl p (to m) (rm p (from m) r1)) p (from m) (to m) kW kB
      else []).

(** The colour number of the piece on a square, as [colorOf] computes it. *)
Definition color_num (p : Piece) : Z := Z.of_nat (Piece_to_nat p) / 6.

(** The value [makeMove] computes for [isCastling] (line 149). *)
Definition code_isCastling (b : Board) (m : Move) : bool :=
  PieceType_eqb (piece m) KING
  && PieceType_eqb (type_of_piece (at_sq (board b) (to m))) ROOK
  && (color_num (at_sq (board b) (from m)) =? color_num (at_sq (board b) (to m))).

(** The position after lines 137-146: histories pushed, counters stepped. *)
Definition header_state (capture : Piece) (b : Board) : Board :=
  set_fullMoveNumber (wrap (fullMoveNumber_bits T) (fullMoveNumber b + 1))
    (set_halfMoveClock (wrap (halfMoveClock_bits T) (halfMoveClock b + 1))
       (set_pawnKeyHistory (pawnKey b :: pawnKeyHistory b)
          (set_stateHistory
             (mkState (enPassantSquare b) (castlingRights b) (halfMoveClock b) capture
                :: stateHistory b)
             (set_hashHistory (hashKey b :: hashHistory b) b)))).

(** The position [makeMove] ends in, given the position [bh] its hash
    update ended in. *)
Definition final_state (m : Move) (b bh : Board) : Board :=
  let stm := sideToMove b in
  let capture := at_sq (board b) (to m) in
  let ep := to m =? enPassantSquare b in
  let isC := code_isCastling b m in
  set_sideToMove (flip stm)
    (with_rep (pieces_rep m stm capture ep isC (rep b))
       (set_pawnKey (pieces_pawnKey m capture ep isC (pawnKey bh)) bh)).

Definition makeMove_calls (updateNNUE : bool) (m : Move) (b : Board) : Net :=
  (if updateNNUE then [nnue_push] else [])
  ++ pieces_calls updateNNUE m (sideToMove b) (at_sq (board b) (to m))
       (to m =? enPassantSquare b) (code_isCastling b m)
       (lsb T (bbv (piecesBB b) WhiteKing)) (lsb T (bbv (piecesBB b) BlackKing)) (rep b).

(** ** [unmakeMove] on representations *)

(** The value [unmakeMove] computes for [isCastling] (line 305). *)
Definition code_isCastling_undo (p capture : Piece) : bool :=
  (Piece_eqb p WhiteKing && Piece_eqb capture WhiteRook)
  || (Piece_eqb p BlackKing && Piece_eqb capture BlackRook).

(** Lines 329-335, with [to_sq] as the if-chain before them left it. *)
Definition unmake_after (m : Move) (stm : Color) (capture : Piece) (eps : Z)
    (isCastling : bool) (to_sq : Z) (r : Rep) : Rep :=
  if (to_sq =? eps) && PieceType_eqb (piece m) PAWN then
    pl (makePiece PAWN (flip stm))
      (Square (eps + match stm with White => -8 | Black => 8 end)) r
  else if negb (Piece_eqb capture NonePiece) && negb isCastling then
    pl capture to_sq r
  else r.

Definition unmake_rep (m : Move) (stm : Color) (capture : Piece) (eps : Z) (r : Rep) : Rep :=
  let p := makePiece (piece m) stm in
  let isCastling := code_isCastling_undo p capture in
  if isCastling then
    unmake_after m stm capture eps isCastling (castle_kingTo m)
      (pl (own_rook stm) (to m)
         (pl p (from m) (rm p (castle_kingTo m) (rm (own_rook stm) (castle_rookTo m) r))))
  else if promoted m then
    let r2 := pl (makePiece PAWN stm) (from m) (rm p (to m) r) in
    if negb (Piece_eqb capture NonePiece) then pl capture (to m) r2 else r2
  else
    unmake_after m stm capture eps isCastling (to m) (pl p (from m) (rm p (to m) r)).

(** The scalars after lines 278-301: histories popped, state restored. *)
Definition restored_state (restore : State) (hk pk : Z) (hh ph : list Z) (sh : list State)
    (b : Board) : Board :=
  set_sideToMove (flip (sideToMove b))
    (set_fullMoveNumber (wrap (fullMoveNumber_bits T) (fullMoveNumber b - 1))
       (set_halfMoveClock (halfMove restore)
          (set_castlingRights (castling restore)
             (set_enPassantSquare (enPassant restore)
                (set_pawnKey pk
                   (set_pawnKeyHistory ph
                      (set_hashKey hk
                         (set_hashHistory hh
                            (set_stateHistory sh b))))))))).

End Calls.

(** ** Reachable positions

    A position is reachable when it is loaded from a descriptor with a
    well-formed placement, or obtained from a reachable position by
    [makeMove] of a contractual move, by the matching [unmakeMove], or by
    the null-move pair. *)
Inductive reachable (T : Tables) : Board -> Prop :=
| reach_load fen b0 n0 b n :
    lens (rep b0) -> placement_ok fen = true ->
    applyFen T fen (b0, n0) = Some (tt, (b, n)) ->
    reachable T b
| reach_make upd m b n b' n' :
    reachable T b -> move_contract b m = true ->
    makeMove T upd m (b, n) = Some (tt, (b', n')) ->
    reachable T b'
| reach_unmake upd upd' m b0 n0 b n n1 b' n' :
    reachable T b0 -> move_contract b0 m = true ->
    makeMove T upd m (b0, n0) = Some (tt, (b, n)) ->
    unmakeMove T upd' m (b, n1) = Some (tt, (b', n')) ->
    reachable T b'
| reach_null b n b' n' :
    reachable T b ->
    makeNullMove T (b, n) = Some (tt, (b', n')) ->
    reachable T b'
| reach_unnull b0 n0 b n n1 b' n' :
    reachable T b0 ->
    makeNullMove T (b0, n0) = Some (tt, (b, n)) ->
    unmakeNullMove T (b, n1) = Some (tt, (b', n')) ->
    reachable T b'.

(** ** Readings of the claims that need a definition *)

(** An incremental accumulator update, as opposed to push, pull, refresh
    and reset. *)
Definition is_incremental (c : NNUECall) : bool :=
  match c with
  | nnue_updateAccumulator_add _ _ _ _ _
  | nnue_updateAccumulator_remove _ _ _ _ _
  | nnue_updateAccumulator_move _ _ _ _ _ _ => true
  | _ => false
  end.

(** The square the king of a king move ends on. *)
Definition king_destination (b : Board) (m : Move) : Z :=
  if is_castling b m then castle_kingTo m else to m.

(** An enemy pawn stands beside the destination of a pawn move, on the
    same rank: the squares from which a pawn captures en passant the pawn
    that has just advanced two squares to [to m]. *)
Definition enemy_pawn_beside (b : Board) (m : Move) : bool :=
  let enemy := makePiece PAWN (flip (sideToMove b)) in
  ((0 <? square_file (to m)) && Piece_eqb (at_sq (board b) (to m - 1)) enemy)
  || ((square_file (to m) <? 7) && Piece_eqb (at_sq (board b) (to m + 1)) enemy).

(** A two-square pawn advance of the side to move, onto an empty square. *)
Definition two_square_advance (b : Board) (m : Move) : bool :=
  PieceType_eqb (piece m) PAWN
  && Piece_eqb (at_sq (board b) (to m)) NonePiece
  && match sideToMove b with
     | White => (8 <=? from m) && (from m <? 16) && (to m =? from m + 16)
     | Black => (48 <=? from m) && (from m <? 56) && (to m =? from m - 16)
     end.

(** The move lands on a pawn (lines 255-257). *)
Definition captures_pawn (b : Board) (m : Move) : bool :=
  Piece_eqb (at_sq (board b) (to m)) WhitePawn || Piece_eqb (at_sq (board b) (to m)) BlackPawn.

(** The en-passant square of a position, when there is one, lies on the
    third or on the sixth rank. *)
Definition enPassant_rank_ok (b : Board) : bool :=
  (enPassantSquare b =? NO_SQ)
  || ((16 <=? enPassantSquare b) && (enPassantSquare b <? 24))
  || ((40 <=? enPassantSquare b) && (enPassantSquare b <? 48)).

(** Two computations end in the same board with the same result, or both
    fail, whatever the two nets are. *)
Definition erase {A} (r : option (A * World)) : option (A * Board) :=
  match r with
  | Some (a, (b, _)) => Some (a, b)
  | None => None
  end.

Definition sim {A} (m1 m2 : M A) : Prop :=
  forall b n1 n2, erase (m1 (b, n1)) = erase (m2 (b, n2)).

(** A result followed by the evaluator calls [cs], which may depend on the
    board the result holds. *)
Definition then_calls (r : option (unit * World)) (cs : Board -> Net) : option (unit * World) :=
  match r with
  | Some (u, (b, n)) => Some (u, (b, n ++ cs b))
  | None => None
  end.

(** [is_capture] of types.h (lines 15-17). *)
Definition is_capture (m : Move) : M bool :=
  p <- pieceAtB (to m) ;;
  ret (negb (Piece_eqb p NonePiece)).

Definition is_refresh (c : NNUECall) : bool :=
  match c with
  | nnue_refresh _ _ => true
  | _ => false
  end.

(** Partial-correctness triples over [M]. *)
Definition ptriple {A} (P : World -> Prop) (m : M A) (Q : World -> Prop) : Prop :=
  forall w a w', P w -> m w = Some (a, w') -> Q w'.

(** The moves on which [makeMove] resets the half-move clock (lines 177,
    193 and 200). *)
Definition resets_clock (b : Board) (m : Move) : bool :=
  PieceType_eqb (piece m) PAWN
  || (negb (Piece_eqb (at_sq (board b) (to m)) NonePiece) && negb (code_isCastling b m))
  || promoted m.

(** The half-move clock is [0] once a reset has happened ([c]), and [v0]
    before. *)
Definition clock_is (v0 : Z) (c : bool) (w : World) : Prop :=
  halfMoveClock (fst w) = if c then 0 else v0.

Definition ep_none (w : World) : Prop := enPassantSquare (fst w) = NO_SQ.

(** The test of lines 179-180 for a two-square pawn advance. *)
Definition code_double_push (b : Board) (m : Move) : bool :=
  PieceType_eqb (piece m) PAWN && negb (to m =? enPassantSquare b)
  && (Z.abs (from m - to m) =? 16).

(** ** Example tables and positions *)

Definition lsb_example (b : Z) : Z := if b =? 0 then 64 else Z.log2 (Z.land b (- b)).

Definition example_tables : Tables :=
  mkTables
    (fun p sq => 1 + Z.of_nat (Piece_to_nat p) * 64 + sq)
    (fun sq => 1000 + Z.land sq 7)
    (fun cr => 2000 + cr)
    4096
    (fun sq => if Z.land sq 7 <? 4 then 0 else 1)
    lsb_example
    8
    16.

(** The members as the constructor leaves them before it calls
    [applyFen] (lines 22-34). *)
Definition initial_board : Board :=
  mkBoard (replicate 12 0) (replicate 64 NonePiece) White NO_SQ 15 0 1 0 0 [] [] [].

Definition load (T : Tables) (fen : string) : Board :=
  match applyFen T fen (initial_board, []) with
  | Some (_, (b, _)) => b
  | None => initial_board
  end.

Definition startpos_fen : string :=
  "rnbqkbnr/pppppppp/8/8/8/8/PPPPPPPP/RNBQKBNR w KQkq - 0 1".

Definition startpos : Board := Eval vm_compute in load example_tables startpos_fen.

(** 1. e2-e4 *)
Definition e2e4 : Move := mkMove 12 28 PAWN false.

(** Black pawn on d4; White to play e2-e4. *)
Definition gating_board : Board :=
  Eval vm_compute in
    load example_tables "rnbqkbnr/ppp1pppp/8/8/3p4/8/PPPPPPPP/RNBQKBNR w KQkq - 0 3".

(** White to castle king side: the king on e1 takes its rook on h1. *)
Definition castle_board : Board :=
  Eval vm_compute in load example_tables "r3k2r/8/8/8/8/8/8/R3K2R w KQkq - 0 1".

Definition e1h1 : Move := mkMove 4 7 KING false.

(** The white king on d1 beside a black knight on e1. *)
Definition king_board : Board :=
  Eval vm_compute in load example_tables "4k3/8/8/8/8/8/8/3Kn3 w - - 0 1".

Definition d1e1 : Move := mkMove 3 4 KING false.

(** A white pawn on a7 about to promote to a queen. *)
Definition promo_board : Board :=
  Eval vm_compute in load example_tables "4k3/P7/8/8/8/8/8/4K3 w - - 0 1".

Definition a7a8q : Move := mkMove 48 56 QUEEN true.

(** White pawn on e5, black pawn on d5 that has just advanced two squares. *)
Definition ep_board : Board :=
  Eval vm_compute in load example_tables "4k3/8/8/3pP3/8/8/8/4K3 w - d6 0 1".

Definition e5d6 : Move := mkMove 36 43 PAWN false.

(** The start position with its move counter left out. *)
Definition five_fields_fen : string :=
  "rnbqkbnr/pppppppp/8/8/8/8/PPPPPPPP/RNBQKBNR w KQkq - 0".

(** The board and the trace a run ends with. *)
Definition result_board (r : option (unit * World)) : Board :=
  match r with
  | Some (_, (b, _)) => b
  | None => initial_board
  end.

Definition result_net (r : option (unit * World)) : Net :=
  match r with
  | Some (_, (_, n)) => n
  | None => []
  end.

(** The start position after 1. e4, played with evaluator updates. *)
Definition e4_board : Board :=
  Eval vm_compute in result_board (makeMove example_tables true e2e4 (startpos, [])).

Definition e4_net : Net :=
  Eval vm_compute in result_net (makeMove example_tables true e2e4 (startpos, [])).

(** The start position with both counters left out. *)
Definition four_fields_fen : string :=
  "rnbqkbnr/pppppppp/8/8/8/8/PPPPPPPP/RNBQKBNR w KQkq -".

Definition four_fields_board : Board := Eval vm_compute in load example_tables four_fields_fen.

Definition ep_fen : string := "4k3/8/8/3pP3/8/8/8/4K3 w - d6 0 1".

(** The two calls the loader ends with. *)
Definition load_calls (b : Board) : Net :=
  [nnue_refresh (piecesBB b) (board b); nnue_reset_accumulators].
(* ------------------------------------------------------------------ *)
(** * Properties *)

(** ** Enumerations *)

Lemma Piece_eqb_eq a b : Piece_eqb a b = true <-> a = b.
Proof.
  unfold Piece_eqb. rewrite Nat.eqb_eq. split; [|now intros ->].
  destruct a, b; simpl; intros H; try reflexivity; discriminate H.
Qed.

Lemma Piece_eqb_refl a : Piece_eqb a a = true.
Proof. now apply Piece_eqb_eq. Qed.

Lemma Piece_eqb_neq a b : Piece_eqb a b = false <-> a <> b.
Proof.
  rewrite <- Piece_eqb_eq. destruct (Piece_eqb a b); split; congruence.
Qed.

Lemma PieceType_eqb_eq a b : PieceType_eqb a b = true <-> a = b.
Proof. destruct a, b; simpl; split; intros H; try reflexivity; discriminate H. Qed.

Lemma PieceType_eqb_neq a b : a <> b -> PieceType_eqb a b = false.
Proof. destruct a, b; simpl; congruence. Qed.

Lemma Piece_to_nat_inj a b : Piece_to_nat a = Piece_to_nat b -> a = b.
Proof. intros H. apply Piece_eqb_eq. unfold Piece_eqb. now apply Nat.eqb_eq. Qed.

Lemma Piece_to_nat_lt p : p <> NonePiece -> (Piece_to_nat p < 12)%nat.
Proof. destruct p; simpl; intros H; try lia; congruence. Qed.

Lemma makePiece_not_None pt c : pt <> NONETYPE -> makePiece pt c <> NonePiece.
Proof. destruct pt, c; simpl; congruence. Qed.

(** ** Bits of 64-bit words *)

Lemma in_board_iff sq : in_board sq = true <-> 0 <= sq < 64.
Proof. unfold in_board, MAX_SQ. lia. Qed.

Lemma testbit_one i : Z.testbit 1 i = (i =? 0).
Proof.
  destruct (Z.eqb_spec i 0) as [->|Hne]; [reflexivity|].
  destruct (Z.neg_nonneg_cases i) as [Hneg|Hpos].
  - now apply Z.testbit_neg_r.
  - apply (Z.bits_above_log2 1 i); simpl; lia.
Qed.

Lemma testbit_bit sq i : 0 <= i -> Z.testbit (Z.shiftl 1 sq) i = (i =? sq).
Proof.
  intros Hi. rewrite Z.shiftl_spec by assumption. rewrite testbit_one.
  destruct (Z.eqb_spec (i - sq) 0), (Z.eqb_spec i sq); try reflexivity; lia.
Qed.

Lemma testbit_not64 x i : 0 <= i -> Z.testbit (not64 x) i = negb (Z.testbit x i) && (i <? 64).
Proof.
  intros Hi. unfold not64, U64_MAX.
  rewrite Z.land_spec, Z.lnot_spec by assumption.
  f_equal. destruct (Z.ltb_spec i 64).
  - apply Z.ones_spec_low. lia.
  - apply Z.ones_spec_high. lia.
Qed.

Lemma testbit_set b sq i : 0 <= i ->
  Z.testbit (Z.lor b (Z.shiftl 1 sq)) i = Z.testbit b i || (i =? sq).
Proof. intros Hi. now rewrite Z.lor_spec, testbit_bit. Qed.

Lemma testbit_clear b sq i : 0 <= i ->
  Z.testbit (Z.land b (not64 (Z.shiftl 1 sq))) i = Z.testbit b i && (negb (i =? sq) && (i <? 64)).
Proof. intros Hi. now rewrite Z.land_spec, testbit_not64, testbit_bit. Qed.

Lemma u64_high x i : 0 <= x < 2 ^ 64 -> 64 <= i -> Z.testbit x i = false.
Proof.
  intros Hx Hi. destruct (Z.eq_dec x 0) as [->|Hne]; [apply Z.bits_0|].
  apply Z.bits_above_log2; [lia|].
  assert (Z.log2 x < 64) by (apply Z.log2_lt_pow2; lia). lia.
Qed.

Lemma u64_of_bits x : 0 <= x -> (forall i, 64 <= i -> Z.testbit x i = false) -> 0 <= x < 2 ^ 64.
Proof.
  intros Hx Hhi. split; [assumption|].
  destruct (Z.eq_dec x 0) as [->|Hne]; [reflexivity|].
  destruct (Z.lt_ge_cases x (2 ^ 64)) as [|Hge]; [assumption|exfalso].
  assert (Hlog : 64 <= Z.log2 x) by (apply Z.log2_le_pow2; lia).
  specialize (Hhi _ Hlog). rewrite Z.bit_log2 in Hhi by lia. discriminate.
Qed.

Lemma is_u64_iff x : is_u64 x = true <-> 0 <= x < 2 ^ 64.
Proof. unfold is_u64. lia. Qed.

Lemma u64_set b sq : 0 <= b < 2 ^ 64 -> 0 <= sq < 64 -> 0 <= Z.lor b (Z.shiftl 1 sq) < 2 ^ 64.
Proof.
  intros Hb Hsq. apply u64_of_bits.
  - apply Z.lor_nonneg. split; [lia|]. apply Z.shiftl_nonneg. lia.
  - intros i Hi. rewrite testbit_set by lia. rewrite (u64_high b i) by assumption.
    destruct (Z.eqb_spec i sq); [lia|reflexivity].
Qed.

Lemma u64_clear b sq : 0 <= b < 2 ^ 64 -> 0 <= Z.land b (not64 (Z.shiftl 1 sq)) < 2 ^ 64.
Proof.
  intros Hb. apply u64_of_bits.
  - apply Z.land_nonneg. left. lia.
  - intros i Hi. rewrite testbit_clear by lia. now rewrite (u64_high b i).
Qed.

(** ** Look-ups in the two arrays *)

Lemma lookup_bbv bbs p :
  (Piece_to_nat p < length bbs)%nat -> bbs !! Piece_to_nat p = Some (bbv bbs p).
Proof.
  intros H. unfold bbv. destruct (lookup_lt_is_Some_2 bbs _ H) as [x ->]. reflexivity.
Qed.

Lemma bbv_insert bbs p q v :
  (Piece_to_nat p < length bbs)%nat ->
  bbv (<[Piece_to_nat p := v]> bbs) q = if Piece_eqb q p then v else bbv bbs q.
Proof.
  intros H. unfold bbv. destruct (Piece_eqb q p) eqn:E.
  - apply Piece_eqb_eq in E. subst q. now rewrite list_lookup_insert_eq.
  - apply Piece_eqb_neq in E. rewrite list_lookup_insert_ne; [reflexivity|].
    intros Heq. apply E. symmetry. now apply Piece_to_nat_inj.
Qed.

Lemma lookup_at_sq brd sq :
  in_board sq = true -> length brd = 64%nat -> brd !! Z.to_nat sq = Some (at_sq brd sq).
Proof.
  intros Hin Hlen. unfold at_sq. rewrite Hin. apply in_board_iff in Hin.
  destruct (lookup_lt_is_Some_2 brd (Z.to_nat sq)) as [x ->]; [lia|reflexivity].
Qed.

Lemma at_sq_insert brd sq sq' v :
  0 <= sq < 64 -> length brd = 64%nat ->
  at_sq (<[Z.to_nat sq := v]> brd) sq' = if sq' =? sq then v else at_sq brd sq'.
Proof.
  intros Hsq Hlen. unfold at_sq. destruct (Z.eqb_spec sq' sq) as [->|Hne].
  - replace (in_board sq) with true by (symmetry; now apply in_board_iff).
    rewrite list_lookup_insert_eq by lia. reflexivity.
  - destruct (in_board sq') eqn:Hin; [|reflexivity].
    apply in_board_iff in Hin. rewrite list_lookup_insert_ne by lia. reflexivity.
Qed.

Lemma at_sq_out brd sq : in_board sq = false -> at_sq brd sq = NonePiece.
Proof. unfold at_sq. now intros ->. Qed.

(** ** The primitives compute [rm] and [pl] *)

Lemma rep_with_rep r b : rep (with_rep r b) = r.
Proof. destruct r. reflexivity. Qed.

Lemma with_rep_with_rep r r' b : with_rep r (with_rep r' b) = with_rep r b.
Proof. reflexivity. Qed.

Lemma with_rep_rep b : with_rep (rep b) b = b.
Proof. destruct b. reflexivity. Qed.

Lemma bind_run {A B} (m : M A) (k : A -> M B) w a w' :
  m w = Some (a, w') -> bind m k w = k a w'.
Proof. unfold bind. now intros ->. Qed.

Lemma lens_rm p sq r : lens r -> lens (rm p sq r).
Proof. intros [H1 H2]. split; simpl; now rewrite length_insert. Qed.

Lemma lens_pl p sq r : lens r -> lens (pl p sq r).
Proof. intros [H1 H2]. split; simpl; now rewrite length_insert. Qed.

Ltac run_prims :=
  unfold removePiece, placePiece, movePiece, removePieceT, placePieceT, movePieceT,
    piecesBB_get, piecesBB_put, board_put, bit, refresh, when, call, bind, gets, modify, ret;
  simpl.

Ltac ltb_true :=
  match goal with
  | |- context [(?a <? ?b)%nat] =>
      replace (a <? b)%nat with true by (symmetry; apply Nat.ltb_lt; simpl; lia)
  end.

Section Primitives.

Variable T : Tables.

Lemma removePiece_run p sq b n :
  lens (rep b) -> p <> NonePiece -> in_board sq = true ->
  removePiece p sq (b, n) = Some (tt, (with_rep (rm p sq (rep b)) b, n)).
Proof.
  intros [Hl1 Hl2] Hp Hsq. pose proof (Piece_to_nat_lt p Hp) as Hlt.
  pose proof (proj1 (in_board_iff sq) Hsq) as Hr. simpl in Hl1, Hl2.
  run_prims. rewrite lookup_bbv by lia. rewrite !Hsq. simpl.
  ltb_true. simpl. ltb_true. reflexivity.
Qed.

Lemma placePiece_run p sq b n :
  lens (rep b) -> p <> NonePiece -> in_board sq = true ->
  placePiece p sq (b, n) = Some (tt, (with_rep (pl p sq (rep b)) b, n)).
Proof.
  intros [Hl1 Hl2] Hp Hsq. pose proof (Piece_to_nat_lt p Hp) as Hlt.
  pose proof (proj1 (in_board_iff sq) Hsq) as Hr. simpl in Hl1, Hl2.
  run_prims. rewrite lookup_bbv by lia. rewrite !Hsq. simpl.
  ltb_true. simpl. ltb_true. reflexivity.
Qed.

Lemma movePiece_run p fromSq toSq b n :
  lens (rep b) -> p <> NonePiece -> in_board fromSq = true -> in_board toSq = true ->
  movePiece p fromSq toSq (b, n)
  = Some (tt, (with_rep (pl p toSq (rm p fromSq (rep b))) b, n)).
Proof.
  intros [Hl1 Hl2] Hp Hf Ht. pose proof (Piece_to_nat_lt p Hp) as Hlt.
  pose proof (proj1 (in_board_iff _) Hf) as Hfr.
  pose proof (proj1 (in_board_iff _) Ht) as Htr. simpl in Hl1, Hl2.
  run_prims. rewrite lookup_bbv by lia. rewrite !Hf, ?Ht. simpl.
  ltb_true. simpl. rewrite lookup_bbv by (rewrite length_insert; lia).
  rewrite ?Ht. simpl. rewrite length_insert. ltb_true. simpl.
  rewrite ?Hf, ?Ht. ltb_true. simpl. rewrite ?Ht, length_insert. ltb_true. simpl.
  reflexivity.
Qed.

Lemma removePieceT_run upd p sq kW kB b n :
  lens (rep b) -> p <> NonePiece -> in_board sq = true ->
  removePieceT upd p sq kW kB (b, n)
  = Some (tt, (with_rep (rm p sq (rep b)) b, n ++ calls_remove upd p sq kW kB)).
Proof.
  intros [Hl1 Hl2] Hp Hsq. pose proof (Piece_to_nat_lt p Hp) as Hlt.
  pose proof (proj1 (in_board_iff sq) Hsq) as Hr. simpl in Hl1, Hl2.
  run_prims. rewrite lookup_bbv by lia. rewrite !Hsq. simpl.
  ltb_true. simpl. ltb_true. unfold calls_remove.
  destruct upd; simpl; [reflexivity|]. now rewrite app_nil_r.
Qed.

Lemma placePieceT_run upd p sq kW kB b n :
  lens (rep b) -> p <> NonePiece -> in_board sq = true ->
  placePieceT upd p sq kW kB (b, n)
  = Some (tt, (with_rep (pl p sq (rep b)) b, n ++ calls_place upd p sq kW kB)).
Proof.
  intros [Hl1 Hl2] Hp Hsq. pose proof (Piece_to_nat_lt p Hp) as Hlt.
  pose proof (proj1 (in_board_iff sq) Hsq) as Hr. simpl in Hl1, Hl2.
  run_prims. rewrite lookup_bbv by lia. rewrite !Hsq. simpl.
  ltb_true. simpl. ltb_true. unfold calls_place.
  destruct upd; simpl; [reflexivity|]. now rewrite app_nil_r.
Qed.

Lemma movePieceT_run upd p fromSq toSq kW kB b n :
  lens (rep b) -> p <> NonePiece -> in_board fromSq = true -> in_board toSq = true ->
  movePieceT T upd p fromSq toSq kW kB (b, n)
  = Some (tt, (with_rep (pl p toSq (rm p fromSq (rep b))) b,
               n ++ calls_move T upd (sideToMove b) (pl p toSq (rm p fromSq (rep b)))
                      p fromSq toSq kW kB)).
Proof.
  intros [Hl1 Hl2] Hp Hf Ht. pose proof (Piece_to_nat_lt p Hp) as Hlt.
  pose proof (proj1 (in_board_iff _) Hf) as Hfr.
  pose proof (proj1 (in_board_iff _) Ht) as Htr. simpl in Hl1, Hl2.
  run_prims. rewrite lookup_bbv by lia. rewrite !Hf, ?Ht. simpl.
  ltb_true. simpl. rewrite lookup_bbv by (rewrite length_insert; lia).
  rewrite ?Ht. simpl. rewrite length_insert. ltb_true. simpl.
  rewrite ?Hf, ?Ht. ltb_true. simpl. rewrite ?Ht, length_insert. ltb_true. simpl.
  unfold calls_move. simpl.
  destruct upd; simpl; [|now rewrite app_nil_r].
  destruct (PieceType_eqb (type_of_piece p) KING && bucket_crossing T (sideToMove b) fromSq toSq);
    reflexivity.
Qed.

End Primitives.

(** ** Well-formed representations *)

Lemma all_pieces_In p : p <> NonePiece -> In p all_pieces.
Proof. destruct p; simpl; intros H; tauto. Qed.

Lemma squares_In sq : 0 <= sq < 64 -> In sq squares.
Proof.
  intros H. unfold squares. apply in_map_iff. exists (Z.to_nat sq). split; [lia|].
  apply in_seq. lia.
Qed.

Lemma piece_of_index i : (i < 12)%nat -> exists p, p <> NonePiece /\ Piece_to_nat p = i.
Proof.
  intros H. exists (nth i all_pieces NonePiece).
  do 12 (destruct i as [|i]; [split; [discriminate|reflexivity]|]).
  lia.
Qed.

Lemma wf_rep_wf b : wf_rep b = true -> wf (rep b).
Proof.
  unfold wf_rep. rewrite !andb_true_iff, !Nat.eqb_eq.
  intros [[[Hl1 Hl2] Hu] Hc]. split; [now split|]. split.
  - intros p Hp. apply is_u64_iff. simpl.
    rewrite forallb_forall in Hu. apply Hu.
    apply list_elem_of_In. unfold bbv.
    destruct (lookup_lt_is_Some_2 (piecesBB b) (Piece_to_nat p)) as [x Hx].
    + pose proof (Piece_to_nat_lt p Hp). lia.
    + rewrite Hx. simpl. eapply list_elem_of_lookup_2. exact Hx.
  - intros p sq Hp Hsq. unfold consistentb in Hc. simpl.
    rewrite forallb_forall in Hc. specialize (Hc p (all_pieces_In p Hp)).
    rewrite forallb_forall in Hc. specialize (Hc sq (squares_In sq Hsq)).
    apply Bool.eqb_prop in Hc. rewrite Hc. apply Piece_eqb_eq.
Qed.

Lemma wf_wf_rep b : wf (rep b) -> wf_rep b = true.
Proof.
  intros [[Hl1 Hl2] [Hu Hc]]. unfold wf_rep. simpl in *.
  rewrite !andb_true_iff, !Nat.eqb_eq. repeat split; try assumption.
  - apply forallb_forall. intros x Hx. apply list_elem_of_In in Hx.
    apply list_elem_of_lookup_1 in Hx. destruct Hx as [i Hi].
    pose proof (lookup_lt_Some _ _ _ Hi) as Hlt. rewrite Hl1 in Hlt.
    destruct (piece_of_index i Hlt) as (p & Hp & <-).
    apply is_u64_iff. specialize (Hu p Hp). unfold bbv in Hu. simpl in Hu.
    now rewrite Hi in Hu.
  - unfold consistentb. apply forallb_forall. intros p Hp.
    apply forallb_forall. intros sq Hsq.
    assert (Hp' : p <> NonePiece) by (simpl in Hp; intuition (subst; discriminate)).
    assert (Hsq' : 0 <= sq < 64).
    { unfold squares in Hsq. apply in_map_iff in Hsq. destruct Hsq as (k & <- & Hk).
      apply in_seq in Hk. lia. }
    specialize (Hc p sq Hp' Hsq'). simpl in Hc. rewrite <- Piece_eqb_eq in Hc.
    destruct (Z.testbit _ _), (Piece_eqb _ _); simpl; try reflexivity;
      destruct Hc; intuition discriminate.
Qed.

Lemma at_rm p sq r sq' :
  lens r -> 0 <= sq < 64 ->
  at_sq (snd (rm p sq r)) sq' = if sq' =? sq then NonePiece else at_sq (snd r) sq'.
Proof. intros [_ Hl] Hsq. simpl. now apply at_sq_insert. Qed.

Lemma at_pl p sq r sq' :
  lens r -> 0 <= sq < 64 ->
  at_sq (snd (pl p sq r)) sq' = if sq' =? sq then p else at_sq (snd r) sq'.
Proof. intros [_ Hl] Hsq. simpl. now apply at_sq_insert. Qed.

Lemma bbv_rm p sq r q :
  lens r -> p <> NonePiece ->
  bbv (fst (rm p sq r)) q
  = if Piece_eqb q p then Z.land (bbv (fst r) p) (not64 (Z.shiftl 1 sq))
    else bbv (fst r) q.
Proof.
  intros [Hl _] Hp. simpl. apply bbv_insert. pose proof (Piece_to_nat_lt p Hp). lia.
Qed.

Lemma bbv_pl p sq r q :
  lens r -> p <> NonePiece ->
  bbv (fst (pl p sq r)) q
  = if Piece_eqb q p then Z.lor (bbv (fst r) p) (Z.shiftl 1 sq)
    else bbv (fst r) q.
Proof.
  intros [Hl _] Hp. simpl. apply bbv_insert. pose proof (Piece_to_nat_lt p Hp). lia.
Qed.

(** Removing the piece that stands on a square keeps the representation
    well formed. *)
Lemma wf_rm p sq r :
  wf r -> p <> NonePiece -> 0 <= sq < 64 -> at_sq (snd r) sq = p -> wf (rm p sq r).
Proof.
  intros (Hl & Hu & Hc) Hp Hsq Hat. split; [now apply lens_rm|]. split.
  - intros q Hq. rewrite bbv_rm by assumption.
    destruct (Piece_eqb q p); [apply u64_clear|]; now apply Hu.
  - intros q s Hq Hs. rewrite bbv_rm, at_rm by assumption.
    destruct (Piece_eqb q p) eqn:E.
    + apply Piece_eqb_eq in E. subst q. rewrite testbit_clear by lia.
      destruct (Z.eqb_spec s sq) as [->|Hne].
      * rewrite andb_false_r. split; [discriminate|congruence].
      * replace (s <? 64) with true by lia. rewrite !andb_true_r. now apply Hc.
    + apply Piece_eqb_neq in E. destruct (Z.eqb_spec s sq) as [->|Hne].
      * rewrite (Hc q sq Hq Hsq). split; congruence.
      * now apply Hc.
Qed.

(** Placing a piece on an empty square keeps the representation well
    formed. *)
Lemma wf_pl p sq r :
  wf r -> p <> NonePiece -> 0 <= sq < 64 -> at_sq (snd r) sq = NonePiece -> wf (pl p sq r).
Proof.
  intros (Hl & Hu & Hc) Hp Hsq Hat. split; [now apply lens_pl|]. split.
  - intros q Hq. rewrite bbv_pl by assumption.
    destruct (Piece_eqb q p); [apply u64_set; [|assumption]|]; now apply Hu.
  - intros q s Hq Hs. rewrite bbv_pl, at_pl by assumption.
    destruct (Piece_eqb q p) eqn:E.
    + apply Piece_eqb_eq in E. subst q. rewrite testbit_set by lia.
      destruct (Z.eqb_spec s sq) as [->|Hne].
      * rewrite orb_true_r. tauto.
      * rewrite orb_false_r. now apply Hc.
    + apply Piece_eqb_neq in E. destruct (Z.eqb_spec s sq) as [->|Hne].
      * rewrite (Hc q sq Hq Hsq). split; congruence.
      * now apply Hc.
Qed.

Lemma board_ext (l1 l2 : list Piece) :
  length l1 = 64%nat -> length l2 = 64%nat ->
  (forall sq, 0 <= sq < 64 -> at_sq l1 sq = at_sq l2 sq) -> l1 = l2.
Proof.
  intros H1 H2 H. apply list_eq. intros i.
  destruct (Nat.lt_ge_cases i 64) as [Hi|Hi].
  - specialize (H (Z.of_nat i) ltac:(lia)). unfold at_sq in H.
    replace (in_board (Z.of_nat i)) with true in H by (symmetry; apply in_board_iff; lia).
    rewrite Nat2Z.id in H.
    destruct (lookup_lt_is_Some_2 l1 i) as [x Hx]; [lia|].
    destruct (lookup_lt_is_Some_2 l2 i) as [y Hy]; [lia|].
    rewrite Hx, Hy in *. simpl in H. now subst.
  - rewrite !lookup_ge_None_2; [reflexivity|lia|lia].
Qed.

(** A well-formed representation is determined by its mailbox. *)
Lemma wf_same_board r1 r2 :
  wf r1 -> wf r2 -> (forall sq, 0 <= sq < 64 -> at_sq (snd r1) sq = at_sq (snd r2) sq) ->
  r1 = r2.
Proof.
  intros ([Hl1 Hm1] & Hu1 & Hc1) ([Hl2 Hm2] & Hu2 & Hc2) Hb.
  destruct r1 as [bbs1 brd1], r2 as [bbs2 brd2]. simpl in *. f_equal.
  - apply list_eq. intros i. destruct (Nat.lt_ge_cases i 12) as [Hi|Hi].
    + destruct (piece_of_index i Hi) as (p & Hp & <-).
      rewrite !lookup_bbv by lia. f_equal. apply Z.bits_inj'. intros s Hs.
      destruct (Z.lt_ge_cases s 64) as [Hlt|Hge].
      * apply eq_true_iff_eq. rewrite (Hc1 p s), (Hc2 p s) by (assumption || lia).
        simpl. rewrite Hb by lia. reflexivity.
      * rewrite !u64_high; auto.
    + rewrite !lookup_ge_None_2; [reflexivity|lia|lia].
  - now apply board_ext.
Qed.

(** [placePiece] undoes [removePiece], and back. *)
Lemma pl_rm_id p sq r :
  wf r -> p <> NonePiece -> 0 <= sq < 64 -> at_sq (snd r) sq = p -> pl p sq (rm p sq r) = r.
Proof.
  intros Hwf Hp Hsq Hat.
  assert (Hwf1 : wf (rm p sq r)) by now apply wf_rm.
  apply wf_same_board; [|assumption|].
  - apply wf_pl; try assumption. rewrite at_rm by (assumption || apply Hwf).
    now rewrite Z.eqb_refl.
  - intros s Hs. rewrite at_pl, at_rm by (assumption || apply Hwf || apply Hwf1).
    destruct (Z.eqb_spec s sq); congruence.
Qed.

Lemma rm_pl_id p sq r :
  wf r -> p <> NonePiece -> 0 <= sq < 64 -> at_sq (snd r) sq = NonePiece ->
  rm p sq (pl p sq r) = r.
Proof.
  intros Hwf Hp Hsq Hat.
  assert (Hwf1 : wf (pl p sq r)) by now apply wf_pl.
  apply wf_same_board; [|assumption|].
  - apply wf_rm; try assumption. rewrite at_pl by (assumption || apply Hwf).
    now rewrite Z.eqb_refl.
  - intros s Hs. rewrite at_rm, at_pl by (assumption || apply Hwf || apply Hwf1).
    destruct (Z.eqb_spec s sq); congruence.
Qed.

(** ** Rules for triples *)

Lemma hoare_bind {A B} P (m : M A) Q (k : A -> M B) R :
  hoare P m Q -> (forall a, hoare (Q a) (k a) R) -> hoare P (bind m k) R.
Proof.
  intros Hm Hk w Hw. destruct (Hm w Hw) as (a & w' & Hrun & HQ).
  destruct (Hk a w' HQ) as (c & w'' & Hrun' & HR).
  exists c, w''. split; [|assumption]. unfold bind. now rewrite Hrun.
Qed.

Lemma hoare_weaken {A} (P P' : World -> Prop) (m : M A) (Q Q' : A -> World -> Prop) :
  hoare P' m Q' -> (forall w, P w -> P' w) -> (forall a w, Q' a w -> Q a w) -> hoare P m Q.
Proof.
  intros H HP HQ w Hw. destruct (H w (HP w Hw)) as (a & w' & Hrun & Hq).
  exists a, w'. auto.
Qed.

Lemma inv_bind {A B} I (m : M A) (k : A -> M B) :
  inv I m -> (forall a, inv I (k a)) -> inv I (bind m k).
Proof. intros Hm Hk. now apply hoare_bind with (Q := fun _ => I). Qed.

Lemma inv_ret {A} I (a : A) : inv I (ret a).
Proof. intros w Hw. exists a, w. now split. Qed.

Lemma inv_gets {A} I (f : Board -> A) : inv I (gets f).
Proof. intros w Hw. exists (f (fst w)), w. now split. Qed.

Lemma inv_modify (I : World -> Prop) f :
  (forall b n, I (b, n) -> I (f b, n)) -> inv I (modify f).
Proof.
  intros H [b n] Hw. exists tt, (f b, n). split; [reflexivity|]. now apply H.
Qed.

Lemma inv_when I c m : inv I m -> inv I (when c m).
Proof. intros H. destruct c; [exact H|apply inv_ret]. Qed.

Lemma inv_piecesBB_get c n p :
  lens (fst (fst (fst (fst (fst c))))) -> p <> NonePiece -> inv (frame c n) (piecesBB_get p).
Proof.
  intros [Hl _] Hp [b k] [Hc Hn]. simpl in *. subst c. simpl in Hl.
  pose proof (Piece_to_nat_lt p Hp).
  exists (bbv (piecesBB b) p), (b, k). split; [|now split].
  unfold piecesBB_get, bind, gets, ret. simpl. now rewrite lookup_bbv by lia.
Qed.

Ltac inv_step :=
  first
    [ apply inv_ret
    | apply inv_gets
    | apply inv_when
    | apply inv_modify; intros ? ? [<- <-]; split; reflexivity
    | apply inv_piecesBB_get; [assumption | apply makePiece_not_None; discriminate]
    | apply inv_bind; [|intros ?]
    | match goal with
      | |- inv _ (if ?c then _ else _) => destruct c
      | |- inv _ (match ?c with _ => _ end) => destruct c
      end ].

Section HashFrame.

Variable T : Tables.

Lemma hashOut_frame c n eps : inv (frame c n) (makeMove_hashOut T eps).
Proof.
  unfold makeMove_hashOut, updateKeyCastling, xor_hashKey. repeat inv_step.
Qed.

Lemma hashMove_frame c n m stm capture ep isCastling :
  lens (fst (fst (fst (fst (fst c))))) ->
  inv (frame c n) (makeMove_hashMove T m stm capture ep isCastling).
Proof.
  intros Hl.
  unfold makeMove_hashMove, updateKeyCastling, xor_hashKey, xor_pawnKey,
    removeCastlingRightsAll, removeCastlingRightsRook.
  cbv zeta. repeat inv_step.
Qed.

End HashFrame.

(** ** Squares derived from the squares of a move *)

Lemma forall_squares (P : Z -> bool) :
  forallb P squares = true -> forall sq, 0 <= sq < 64 -> P sq = true.
Proof.
  intros H sq Hsq. rewrite forallb_forall in H. apply H. now apply squares_In.
Qed.

Lemma xor8_square sq :
  0 <= sq < 64 ->
  Square (Z.lxor sq 8) = Z.lxor sq 8 /\ 0 <= Z.lxor sq 8 < 64 /\ Z.lxor sq 8 <> sq.
Proof.
  intros Hsq.
  pose proof (forall_squares
    (fun s => (Square (Z.lxor s 8) =? Z.lxor s 8) && (0 <=? Z.lxor s 8)
              && (Z.lxor s 8 <? 64) && negb (Z.lxor s 8 =? s))
    eq_refl sq Hsq) as H.
  simpl in H. rewrite !andb_true_iff, negb_true_iff in H. lia.
Qed.

Lemma file_rank_square_in f sq :
  0 <= sq < 64 -> 0 <= f < 8 -> 0 <= file_rank_square f (square_rank sq) < 64.
Proof.
  intros Hsq Hf. unfold file_rank_square, square_rank.
  rewrite Z.shiftr_div_pow2, Z.shiftl_mul_pow2 by lia.
  change (2 ^ 3) with 8.
  assert (0 <= sq / 8 <= 7).
  { split; [apply Z.div_pos; lia|]. apply Z.lt_succ_r. apply Z.div_lt_upper_bound; lia. }
  lia.
Qed.

Lemma castle_kingTo_in m : 0 <= from m < 64 -> 0 <= castle_kingTo m < 64.
Proof.
  intros H. unfold castle_kingTo. apply file_rank_square_in; [assumption|].
  unfold FILE_G, FILE_C. destruct (from m <? to m); lia.
Qed.

Lemma castle_rookTo_in m : 0 <= from m < 64 -> 0 <= castle_rookTo m < 64.
Proof.
  intros H. unfold castle_rookTo. apply file_rank_square_in; [assumption|].
  unfold FILE_F, FILE_D. destruct (from m <? to m); lia.
Qed.

Lemma castle_squares_differ m : 0 <= from m < 64 -> castle_kingTo m <> castle_rookTo m.
Proof.
  intros H. unfold castle_kingTo, castle_rookTo, file_rank_square, FILE_G, FILE_C, FILE_F, FILE_D.
  destruct (from m <? to m); lia.
Qed.

(** ** The update of the pieces computes [pieces_rep] *)

Section Pieces.

Variable T : Tables.

Lemma own_rook_not_None c : own_rook c <> NonePiece.
Proof. destruct c; discriminate. Qed.

Ltac side :=
  repeat match goal with
         | |- lens (rep (with_rep _ _)) => rewrite rep_with_rep
         | |- lens (rm _ _ _) => apply lens_rm
         | |- lens (pl _ _ _) => apply lens_pl
         | |- in_board _ = true => apply in_board_iff
         | |- makePiece _ _ <> NonePiece => apply makePiece_not_None
         | |- own_rook _ <> NonePiece => apply own_rook_not_None
         end;
  try assumption; try discriminate.

Ltac prim_step :=
  match goal with
  | |- bind (removePieceT _ _ _ _ _) _ _ = _ =>
      erewrite bind_run by (apply removePieceT_run; side)
  | |- bind (placePieceT _ _ _ _ _) _ _ = _ =>
      erewrite bind_run by (apply placePieceT_run; side)
  | |- bind (movePieceT _ _ _ _ _ _ _) _ _ = _ =>
      erewrite bind_run by (apply movePieceT_run; side)
  | |- bind (removePiece _ _) _ _ = _ =>
      erewrite bind_run by (apply removePiece_run; side)
  | |- bind (placePiece _ _) _ _ = _ =>
      erewrite bind_run by (apply placePiece_run; side)
  | |- bind (movePiece _ _ _) _ _ = _ =>
      erewrite bind_run by (apply movePiece_run; side)
  | |- removePieceT _ _ _ _ _ _ = _ => rewrite removePieceT_run by side
  | |- placePieceT _ _ _ _ _ _ = _ => rewrite placePieceT_run by side
  | |- movePieceT _ _ _ _ _ _ _ _ = _ => rewrite movePieceT_run by side
  | |- removePiece _ _ _ = _ => rewrite removePiece_run by side
  | |- placePiece _ _ _ = _ => rewrite placePiece_run by side
  | |- movePiece _ _ _ _ = _ => rewrite movePiece_run by side
  end.

Lemma bind_assoc {A B C} (m : M A) (k : A -> M B) (k' : B -> M C) w :
  bind (bind m k) k' w = bind m (fun a => bind (k a) k') w.
Proof. unfold bind. destruct (m w) as [[a w']|]; reflexivity. Qed.

Lemma bind_ret {A B} (a : A) (k : A -> M B) w : bind (ret a) k w = k a w.
Proof. reflexivity. Qed.

Lemma bind_modify {B} f (k : unit -> M B) b n : bind (modify f) k (b, n) = k tt (f b, n).
Proof. reflexivity. Qed.

Lemma bind_gets {A B} (f : Board -> A) (k : A -> M B) b n : bind (gets f) k (b, n) = k (f b) (b, n).
Proof. reflexivity. Qed.

Lemma bind_call {B} c (k : unit -> M B) b n : bind (call c) k (b, n) = k tt (b, n ++ [c]).
Proof. reflexivity. Qed.

Lemma set_pawnKey_id b : set_pawnKey (pawnKey b) b = b.
Proof. destruct b. reflexivity. Qed.

Lemma rep_set_pawnKey k b : rep (set_pawnKey k b) = rep b.
Proof. reflexivity. Qed.

Lemma with_rep_set_pawnKey r k b : set_pawnKey k (with_rep r b) = with_rep r (set_pawnKey k b).
Proof. reflexivity. Qed.

Lemma sideToMove_with_rep r b : sideToMove (with_rep r b) = sideToMove b.
Proof. reflexivity. Qed.

Lemma sideToMove_set_pawnKey k b : sideToMove (set_pawnKey k b) = sideToMove b.
Proof. reflexivity. Qed.

Ltac pieces_go :=
  repeat first
    [ rewrite bind_assoc
    | prim_step; rewrite ?rep_with_rep, ?with_rep_with_rep, ?rep_set_pawnKey
    | rewrite bind_ret | rewrite bind_modify | rewrite bind_gets | rewrite bind_call ];
  rewrite ?rep_with_rep, ?with_rep_with_rep, ?rep_set_pawnKey, ?set_pawnKey_id,
    ?sideToMove_with_rep, ?sideToMove_set_pawnKey;
  rewrite <- ?app_assoc, ?app_nil_r;
  try reflexivity.

Lemma makeMove_pieces_run upd m stm capture ep isCastling kW kB b n :
  lens (rep b) -> 0 <= from m < 64 -> 0 <= to m < 64 -> piece m <> NONETYPE ->
  sideToMove b = stm ->
  makeMove_pieces T upd m stm capture ep isCastling kW kB (b, n)
  = Some (tt, (with_rep (pieces_rep m stm capture ep isCastling (rep b))
                 (set_pawnKey (pieces_pawnKey T m capture ep isCastling (pawnKey b)) b),
               n ++ pieces_calls T upd m stm capture ep isCastling kW kB (rep b))).
Proof.
  intros Hl Hf Ht Hpt Hstm.
  pose proof (castle_kingTo_in m Hf) as HkT.
  pose proof (castle_rookTo_in m Hf) as HrT.
  destruct (xor8_square (to m) Ht) as (Hx1 & Hx2 & _).
  assert (Hcap : Piece_eqb capture NonePiece = false -> capture <> NonePiece)
    by (intros E; now apply Piece_eqb_neq).
  subst stm.
  unfold makeMove_pieces, pieces_calls, pieces_rep, pieces_rep1, pieces_pawnKey.
  cbv zeta. fold (castle_kingTo m). fold (castle_rookTo m). fold (own_rook (sideToMove b)).
  rewrite Hx1.
  destruct isCastling; simpl negb; rewrite ?andb_false_r, ?andb_true_r.
  - destruct (upd && bucket_crossing T (sideToMove b) (from m) (castle_kingTo m)), (promoted m);
      unfold refresh, xor_pawnKey, when; pieces_go.
  - destruct (PieceType_eqb (piece m) PAWN && ep).
    + destruct (promoted m); unfold refresh, xor_pawnKey, when; pieces_go.
    + destruct (Piece_eqb capture NonePiece) eqn:Ec; simpl negb; cbv iota.
      * destruct (promoted m); unfold refresh, xor_pawnKey, when; pieces_go.
      * specialize (Hcap eq_refl).
        destruct (Piece_eqb capture WhitePawn || Piece_eqb capture BlackPawn), (promoted m);
          unfold refresh, xor_pawnKey, when; pieces_go.
Qed.

End Pieces.

(** ** [makeMove] as a whole *)

Section MakeMove.

Variable T : Tables.

Lemma board_get_run sq b n :
  lens (rep b) -> 0 <= sq < 64 -> board_get sq (b, n) = Some (at_sq (board b) sq, (b, n)).
Proof.
  intros [_ Hl] Hsq. simpl in Hl. unfold board_get, bind, gets, ret. simpl.
  replace (in_board sq) with true by (symmetry; now apply in_board_iff).
  rewrite lookup_at_sq by (try apply in_board_iff; assumption). reflexivity.
Qed.

Lemma colorOf_run sq b n :
  lens (rep b) -> 0 <= sq < 64 ->
  colorOf sq (b, n) = Some (color_num (at_sq (board b) sq), (b, n)).
Proof.
  intros Hl Hsq. unfold colorOf, pieceAtB.
  erewrite bind_run by (now apply board_get_run). reflexivity.
Qed.

Lemma piecesBB_get_run p b n :
  lens (rep b) -> p <> NonePiece -> piecesBB_get p (b, n) = Some (bbv (piecesBB b) p, (b, n)).
Proof.
  intros [Hl _] Hp. simpl in Hl. pose proof (Piece_to_nat_lt p Hp).
  unfold piecesBB_get, bind, gets, ret. simpl. now rewrite lookup_bbv by lia.
Qed.

Lemma core_header capture b :
  core (header_state T capture b)
  = (rep b, sideToMove b, wrap (fullMoveNumber_bits T) (fullMoveNumber b + 1),
     hashKey b :: hashHistory b, pawnKey b :: pawnKeyHistory b,
     mkState (enPassantSquare b) (castlingRights b) (halfMoveClock b) capture
       :: stateHistory b).
Proof. reflexivity. Qed.

Lemma isCastling_run m b bx n :
  lens (rep bx) -> 0 <= from m < 64 -> 0 <= to m < 64 -> board bx = board b ->
  (if PieceType_eqb (piece m) KING
      && PieceType_eqb (type_of_piece (at_sq (board b) (to m))) ROOK
   then c1 <- colorOf (from m) ;; c2 <- colorOf (to m) ;; ret (c1 =? c2)
   else ret false) (bx, n)
  = Some (code_isCastling b m, (bx, n)).
Proof.
  intros Hl Hf Ht Hb. unfold code_isCastling.
  destruct (PieceType_eqb (piece m) KING
            && PieceType_eqb (type_of_piece (at_sq (board b) (to m))) ROOK).
  - erewrite bind_run by (now apply colorOf_run).
    erewrite bind_run by (now apply colorOf_run).
    rewrite Hb. reflexivity.
  - reflexivity.
Qed.

Lemma core_inv b1 b2 :
  core b1 = core b2 ->
  rep b1 = rep b2 /\ sideToMove b1 = sideToMove b2
  /\ fullMoveNumber b1 = fullMoveNumber b2 /\ hashHistory b1 = hashHistory b2
  /\ pawnKeyHistory b1 = pawnKeyHistory b2 /\ stateHistory b1 = stateHistory b2.
Proof.
  unfold core. intros H. inversion H as [[H1 H2 H3 H4 H5 H6 H7]].
  unfold rep. rewrite H1, H2. repeat split; assumption.
Qed.

(** [makeMove] runs to completion on any move whose squares are on the
    board; its result is [final_state] of the result of the hash update,
    which leaves the representation, the side to move, the ply counter
    and the histories as lines 137-146 set them. *)
Lemma makeMove_run (upd : bool) m b (n : Net) :
  lens (rep b) -> 0 <= from m < 64 -> 0 <= to m < 64 -> piece m <> NONETYPE ->
  let capture := at_sq (board b) (to m) in
  let n0 := n ++ (if upd then [nnue_push] else []) in
  exists bh,
    bind (makeMove_hashOut T (enPassantSquare b))
      (fun _ => makeMove_hashMove T m (sideToMove b) capture
                  (to m =? enPassantSquare b) (code_isCastling b m))
      (header_state T capture b, n0) = Some (tt, (bh, n0))
    /\ core bh = core (header_state T capture b)
    /\ makeMove T upd m (b, n)
       = Some (tt, (final_state T m b bh, n ++ makeMove_calls T upd m b)).
Proof.
  intros Hl Hf Ht Hpt capture n0.
  set (b0 := header_state T capture b).
  assert (Hl0 : lens (rep b0)) by exact Hl.
  destruct (hashOut_frame T (core b0) n0 (enPassantSquare b) (b0, n0))
    as (u1 & [b1 n1] & Hrun1 & Hc1 & Hn1); [now split|].
  simpl in Hc1, Hn1. subst n1. destruct u1.
  destruct (core_inv _ _ Hc1) as (Hrep1 & _).
  assert (Hl1 : lens (rep b1)) by (now rewrite Hrep1).
  destruct (hashMove_frame T (core b0) n0 m (sideToMove b) capture
              (to m =? enPassantSquare b) (code_isCastling b m) Hl0 (b1, n0))
    as (u2 & [bh n2] & Hrun2 & Hc2 & Hn2); [now split|].
  simpl in Hc2, Hn2. subst n2. destruct u2.
  exists bh. split; [|split; [assumption|]].
  { erewrite bind_run by exact Hrun1. exact Hrun2. }
  destruct (core_inv _ _ Hc2) as (Hreph & Hstmh & _).
  change (rep b0) with (rep b) in *. change (sideToMove b0) with (sideToMove b) in *.
  unfold makeMove.
  rewrite bind_gets.
  erewrite bind_run by (now apply board_get_run). fold capture.
  rewrite !bind_modify.
  assert (Hn0 : exists n0', n0' = n0 /\
            forall (k : unit -> M unit) bx,
              bind (when upd (call nnue_push)) k (bx, n) = k tt (bx, n0')).
  { exists n0. split; [reflexivity|]. intros k bx. unfold n0.
    destruct upd; simpl; [reflexivity|]. now rewrite app_nil_r. }
  destruct Hn0 as (n0' & En0 & Hpush). rewrite Hpush, !bind_modify, bind_gets.
  rewrite En0. clear Hpush En0 n0'.
  erewrite bind_run by (apply (isCastling_run m b); [exact Hl0|assumption..|reflexivity]).
  erewrite bind_run by exact Hrun1.
  rewrite ?bind_assoc.
  erewrite bind_run by (apply piecesBB_get_run; [assumption|discriminate]).
  rewrite bind_ret, ?bind_assoc.
  erewrite bind_run by (apply piecesBB_get_run; [assumption|discriminate]).
  rewrite bind_ret.
  erewrite bind_run by exact Hrun2.
  erewrite bind_run by (apply makeMove_pieces_run; try assumption; now rewrite Hreph).
  unfold modify, final_state, makeMove_calls. simpl fst. simpl snd.
  rewrite sideToMove_with_rep, sideToMove_set_pawnKey, Hstmh, Hreph.
  assert (Hbb : piecesBB b1 = piecesBB b) by (unfold rep in Hrep1; congruence).
  rewrite Hbb. fold capture. unfold n0. rewrite <- app_assoc. reflexivity.
Qed.

End MakeMove.

(** ** [unmakeMove] as a whole *)

Lemma code_isCastling_undo_spec pt stm cap :
  code_isCastling_undo (makePiece pt stm) cap
  = PieceType_eqb pt KING && Piece_eqb cap (own_rook stm).
Proof. destruct pt, stm, cap; reflexivity. Qed.


Section UnmakeMove.

Variable T : Tables.

Ltac side :=
  repeat match goal with
         | |- lens (rep (with_rep _ _)) => rewrite rep_with_rep
         | |- lens (rm _ _ _) => apply lens_rm
         | |- lens (pl _ _ _) => apply lens_pl
         | |- in_board _ = true => apply in_board_iff
         | |- makePiece _ _ <> NonePiece => apply makePiece_not_None
         | |- own_rook _ <> NonePiece => apply own_rook_not_None
         end;
  try assumption; try discriminate.

Ltac prim_step :=
  match goal with
  | |- bind (removePiece _ _) _ _ = _ =>
      erewrite bind_run by (apply removePiece_run; side)
  | |- bind (placePiece _ _) _ _ = _ =>
      erewrite bind_run by (apply placePiece_run; side)
  | |- bind (movePiece _ _ _) _ _ = _ =>
      erewrite bind_run by (apply movePiece_run; side)
  | |- removePiece _ _ _ = _ => rewrite removePiece_run by side
  | |- placePiece _ _ _ = _ => rewrite placePiece_run by side
  | |- movePiece _ _ _ _ = _ => rewrite movePiece_run by side
  end.

Ltac norm_scalars :=
  cbn [sideToMove enPassantSquare castlingRights halfMoveClock fullMoveNumber
       hashKey pawnKey hashHistory pawnKeyHistory stateHistory
       set_piecesBB set_board set_sideToMove set_enPassantSquare set_castlingRights
       set_halfMoveClock set_fullMoveNumber set_hashKey set_pawnKey set_hashHistory
       set_pawnKeyHistory set_stateHistory].

Ltac undo_go :=
  repeat first
    [ rewrite bind_assoc
    | prim_step; rewrite ?rep_with_rep, ?with_rep_with_rep
    | rewrite bind_ret | rewrite bind_modify | rewrite bind_gets | rewrite bind_call ];
  rewrite ?rep_with_rep, ?with_rep_with_rep;
  try reflexivity.

Lemma unmakeMove_run (upd : bool) m b (n : Net) restore sh hk hh pk ph :
  stateHistory b = restore :: sh ->
  hashHistory b = hk :: hh ->
  pawnKeyHistory b = pk :: ph ->
  lens (rep b) -> 0 <= from m < 64 -> 0 <= to m < 64 -> piece m <> NONETYPE ->
  ((to m =? enPassant restore) && PieceType_eqb (piece m) PAWN = true ->
   0 <= Square (enPassant restore
                + match flip (sideToMove b) with White => -8 | Black => 8 end) < 64) ->
  unmakeMove T upd m (b, n)
  = Some (tt, (with_rep (unmake_rep m (flip (sideToMove b)) (capturedPiece restore)
                           (enPassant restore) (rep b))
                 (restored_state T restore hk pk hh ph sh b),
               n ++ (if upd then [nnue_pull] else []))).
Proof.
  intros Hsh Hhh Hph Hl Hf Ht Hpt Hep.
  pose proof (castle_kingTo_in m Hf) as HkT.
  pose proof (castle_rookTo_in m Hf) as HrT.
  assert (Hcap : Piece_eqb (capturedPiece restore) NonePiece = false ->
                 capturedPiece restore <> NonePiece)
    by (intros E; now apply Piece_eqb_neq).
  unfold unmakeMove, pop_stateHistory, pop_hashHistory, pop_pawnKeyHistory.
  rewrite !bind_assoc, bind_gets, Hsh, !bind_assoc, bind_modify, bind_ret.
  rewrite !bind_assoc, bind_gets. cbn [hashHistory set_stateHistory]. rewrite Hhh.
  rewrite !bind_assoc, bind_modify, bind_ret, bind_modify.
  rewrite !bind_assoc, bind_gets. cbn [pawnKeyHistory set_hashKey set_hashHistory set_stateHistory].
  rewrite Hph.
  rewrite !bind_assoc, bind_modify, bind_ret, bind_modify.
  assert (Hpull : forall (k : unit -> M unit) bx,
            bind (when upd (call nnue_pull)) k (bx, n)
            = k tt (bx, n ++ (if upd then [nnue_pull] else []))).
  { intros k bx. destruct upd; simpl; [reflexivity|]. now rewrite app_nil_r. }
  rewrite Hpull, !bind_modify, bind_gets.
  norm_scalars.
  fold (castle_kingTo m). fold (castle_rookTo m). fold (own_rook (flip (sideToMove b))).
  fold (code_isCastling_undo (makePiece (piece m) (flip (sideToMove b))) (capturedPiece restore)).
  fold (restored_state T restore hk pk hh ph sh b).
  assert (Hrep2 : rep (restored_state T restore hk pk hh ph sh b) = rep b) by reflexivity.
  assert (Hep2 : enPassantSquare (restored_state T restore hk pk hh ph sh b)
                 = enPassant restore) by reflexivity.
  set (stm := flip (sideToMove b)) in *.
  generalize dependent (restored_state T restore hk pk hh ph sh b). intros b2 Hrep2 Hep2.
  assert (Hl2 : lens (rep b2)) by (now rewrite Hrep2).
  unfold unmake_rep, unmake_after. cbv zeta.
  assert (Heps : forall r, enPassantSquare (with_rep r b2) = enPassant restore)
    by (intros r; exact Hep2).
  destruct (code_isCastling_undo (makePiece (piece m) stm) (capturedPiece restore)) eqn:EC;
    simpl negb; rewrite ?andb_false_r, ?andb_true_r.
  - rewrite code_isCastling_undo_spec, andb_true_iff in EC. destruct EC as [EK _].
    apply PieceType_eqb_eq in EK. rewrite EK. cbn [PieceType_eqb]. rewrite andb_false_r.
    undo_go. rewrite Heps, ?andb_false_r.
    rewrite Hrep2. reflexivity.
  - destruct (promoted m).
    + destruct (Piece_eqb (capturedPiece restore) NonePiece) eqn:Ec; simpl negb; unfold when.
      * undo_go. now rewrite Hrep2.
      * specialize (Hcap eq_refl). undo_go. now rewrite Hrep2.
    + undo_go. rewrite Heps.
      destruct ((to m =? enPassant restore) && PieceType_eqb (piece m) PAWN).
      * specialize (Hep eq_refl). undo_go. now rewrite Hrep2.
      * destruct (Piece_eqb (capturedPiece restore) NonePiece) eqn:Ec; cbn [negb andb].
        -- undo_go. rewrite Hrep2. reflexivity.
        -- specialize (Hcap eq_refl). undo_go. now rewrite Hrep2.
Qed.

End UnmakeMove.

(** ** What the contract of a move says *)

Lemma code_isCastling_spec b m :
  at_sq (board b) (from m) = makePiece (piece m) (sideToMove b) ->
  code_isCastling b m = is_castling b m.
Proof.
  intros Hfrom. unfold code_isCastling, is_castling. rewrite Hfrom.
  destruct (piece m), (sideToMove b), (at_sq (board b) (to m)); reflexivity.
Qed.

Lemma code_isCastling_not_king b m : piece m <> KING -> code_isCastling b m = false.
Proof. unfold code_isCastling. destruct (piece m); simpl; congruence. Qed.

Lemma is_castling_not_king b m : piece m <> KING -> is_castling b m = false.
Proof. unfold is_castling. destruct (piece m); simpl; congruence. Qed.

Lemma contract_common b m :
  move_contract b m = true ->
  0 <= from m < 64 /\ 0 <= to m < 64 /\ from m <> to m /\ piece m <> NONETYPE
  /\ type_of_piece (at_sq (board b) (to m)) <> KING.
Proof.
  unfold move_contract. rewrite !andb_true_iff, !negb_true_iff.
  intros [[[[[Hf Ht] Hne] Hpt] Hk] _].
  apply in_board_iff in Hf. apply in_board_iff in Ht. apply Z.eqb_neq in Hne.
  repeat split; try lia.
  - intros E. rewrite E in Hpt. discriminate.
  - intros E. rewrite E in Hk. discriminate.
Qed.

Lemma contract_cases b m :
  move_contract b m = true ->
  (promoted m = true /\ piece m <> PAWN /\ piece m <> KING
   /\ at_sq (board b) (from m) = makePiece PAWN (sideToMove b))
  \/ (promoted m = false
      /\ at_sq (board b) (from m) = makePiece (piece m) (sideToMove b)
      /\ ((piece m = KING /\ at_sq (board b) (to m) = own_rook (sideToMove b)
           /\ free_or_vacated b m (castle_kingTo m) = true
           /\ free_or_vacated b m (castle_rookTo m) = true)
          \/ (is_castling b m = false /\ piece m = PAWN /\ to m = enPassantSquare b
              /\ at_sq (board b) (to m) = NonePiece
              /\ at_sq (board b) (Z.lxor (to m) 8) = makePiece PAWN (flip (sideToMove b))
              /\ Z.lxor (to m) 8
                 = to m + match sideToMove b with White => -8 | Black => 8 end)
          \/ (is_castling b m = false /\ is_enPassant b m = false))).
Proof.
  unfold move_contract. cbv zeta. rewrite !andb_true_iff.
  intros [_ H].
  destruct (promoted m).
  - left. rewrite !andb_true_iff, !negb_true_iff in H. destruct H as [[H1 H2] H3].
    apply Piece_eqb_eq in H3. repeat split; try assumption.
    + intros E. rewrite E in H1. discriminate.
    + intros E. rewrite E in H2. discriminate.
  - right. rewrite andb_true_iff in H. destruct H as [Hfrom H].
    apply Piece_eqb_eq in Hfrom. split; [reflexivity|]. split; [assumption|].
    destruct (is_castling b m) eqn:Ec.
    + left. unfold is_castling in Ec. rewrite andb_true_iff in Ec. destruct Ec as [E1 E2].
      apply PieceType_eqb_eq in E1. apply Piece_eqb_eq in E2.
      rewrite andb_true_iff in H. tauto.
    + right. destruct (is_enPassant b m) eqn:Ee.
      * left. unfold is_enPassant in Ee. rewrite andb_true_iff in Ee. destruct Ee as [E1 E2].
        apply PieceType_eqb_eq in E1. apply Z.eqb_eq in E2.
        rewrite !andb_true_iff in H. destruct H as [[H1 H2] H3].
        apply Piece_eqb_eq in H1. apply Piece_eqb_eq in H2. apply Z.eqb_eq in H3.
        repeat split; assumption.
      * right. split; reflexivity.
Qed.

(** ** One move forth and back on the representation *)

Ltac lens_solve :=
  repeat first [apply lens_pl | apply lens_rm];
  match goal with
  | H : wf ?r |- lens ?r => apply H
  | |- _ => assumption
  end.

Ltac at_simpl :=
  repeat first
    [ rewrite at_pl by first [lens_solve | lia]
    | rewrite at_rm by first [lens_solve | lia] ].

Lemma step_capture r cap t :
  wf r -> 0 <= t < 64 -> at_sq (snd r) t = cap ->
  let r1 := if negb (Piece_eqb cap NonePiece) then rm cap t r else r in
  wf r1
  /\ (forall s, at_sq (snd r1) s = if s =? t then NonePiece else at_sq (snd r) s)
  /\ (if negb (Piece_eqb cap NonePiece) then pl cap t r1 else r1) = r.
Proof.
  intros Hwf Ht Hat. destruct (Piece_eqb cap NonePiece) eqn:E; cbv zeta; cbn [negb].
  - apply Piece_eqb_eq in E. subst cap. split; [assumption|]. split; [|reflexivity].
    intros s. destruct (Z.eqb_spec s t); congruence.
  - apply Piece_eqb_neq in E. split; [now apply wf_rm|]. split.
    + intros s. now at_simpl.
    + now apply pl_rm_id.
Qed.

Lemma step_move r p0 p f t :
  wf r -> p0 <> NonePiece -> p <> NonePiece -> 0 <= f < 64 -> 0 <= t < 64 -> f <> t ->
  at_sq (snd r) f = p0 -> at_sq (snd r) t = NonePiece ->
  wf (pl p t (rm p0 f r)) /\ pl p0 f (rm p t (pl p t (rm p0 f r))) = r.
Proof.
  intros Hwf Hp0 Hp Hf Ht Hne Hatf Hatt.
  assert (Hwf1 : wf (rm p0 f r)) by now apply wf_rm.
  assert (Hat1 : at_sq (snd (rm p0 f r)) t = NonePiece).
  { at_simpl. destruct (Z.eqb_spec t f); [lia|assumption]. }
  split; [now apply wf_pl|].
  rewrite rm_pl_id by assumption. now apply pl_rm_id.
Qed.

Lemma free_or_vacated_at b m sq :
  free_or_vacated b m sq = true ->
  sq = from m \/ sq = to m \/ at_sq (board b) sq = NonePiece.
Proof.
  unfold free_or_vacated. rewrite !orb_true_iff, !Z.eqb_eq, Piece_eqb_eq. tauto.
Qed.

Lemma step_castle r K R f t kT rT :
  wf r -> K <> NonePiece -> R <> NonePiece ->
  0 <= f < 64 -> 0 <= t < 64 -> 0 <= kT < 64 -> 0 <= rT < 64 -> f <> t -> kT <> rT ->
  at_sq (snd r) f = K -> at_sq (snd r) t = R ->
  (kT = f \/ kT = t \/ at_sq (snd r) kT = NonePiece) ->
  (rT = f \/ rT = t \/ at_sq (snd r) rT = NonePiece) ->
  wf (pl R rT (pl K kT (rm R t (rm K f r))))
  /\ pl R t (pl K f (rm K kT (rm R rT (pl R rT (pl K kT (rm R t (rm K f r))))))) = r.
Proof.
  intros Hwf HK HR Hf Ht HkT HrT Hne Hne' Hatf Hatt Hfk Hfr.
  assert (Hwf1 : wf (rm K f r)) by now apply wf_rm.
  assert (Hwf2 : wf (rm R t (rm K f r))).
  { apply wf_rm; try assumption. at_simpl. destruct (Z.eqb_spec t f); [lia|assumption]. }
  assert (Hv : forall s, s = f \/ s = t \/ at_sq (snd r) s = NonePiece ->
                         at_sq (snd (rm R t (rm K f r))) s = NonePiece).
  { intros s Hs. at_simpl. destruct (Z.eqb_spec s t); [reflexivity|].
    destruct (Z.eqb_spec s f); [reflexivity|]. intuition lia. }
  assert (Hwf3 : wf (pl K kT (rm R t (rm K f r)))) by (apply wf_pl; auto).
  assert (Hat3 : at_sq (snd (pl K kT (rm R t (rm K f r)))) rT = NonePiece).
  { rewrite at_pl by first [lens_solve | lia].
    destruct (Z.eqb_spec rT kT); [lia|]. now apply Hv. }
  split; [now apply wf_pl|].
  rewrite rm_pl_id by assumption. rewrite rm_pl_id by auto.
  assert (Hwf4 : wf (pl K f (rm R t (rm K f r)))) by (apply wf_pl; auto).
  apply wf_same_board; [|assumption|].
  - apply wf_pl; try assumption. rewrite at_pl by first [lens_solve | lia].
    destruct (Z.eqb_spec t f); [lia|]. now apply Hv; right; left.
  - intros s Hs. at_simpl.
    destruct (Z.eqb_spec s t); [congruence|]. destruct (Z.eqb_spec s f); congruence.
Qed.

(** The piece update of a contractual move keeps the representation well
    formed, and the piece update of [unmakeMove] undoes it. *)
Lemma make_unmake_rep b m :
  wf (rep b) -> move_contract b m = true ->
  wf (pieces_rep m (sideToMove b) (at_sq (board b) (to m)) (to m =? enPassantSquare b)
        (code_isCastling b m) (rep b))
  /\ unmake_rep m (sideToMove b) (at_sq (board b) (to m)) (enPassantSquare b)
       (pieces_rep m (sideToMove b) (at_sq (board b) (to m)) (to m =? enPassantSquare b)
          (code_isCastling b m) (rep b))
     = rep b.
Proof.
  intros Hwf Hc.
  destruct (contract_common b m Hc) as (Hf & Ht & Hne & Hpt & Hk).
  pose proof (makePiece_not_None (piece m) (sideToMove b) Hpt) as Hp.
  unfold pieces_rep, pieces_rep1, unmake_rep, unmake_after. cbv zeta.
  rewrite code_isCastling_undo_spec.
  destruct (contract_cases b m Hc)
    as [(Hpr & Hnp & Hnk & Hfrom)
       | (Hpr & Hfrom & [(Hking & Hcap & Hfk & Hfr)
                        | [(Hnc & Hpawn & Hep & Hcap & Hx & Hoff) | (Hnc & Hne')]])];
    rewrite Hpr.
  - (* promotion *)
    rewrite (code_isCastling_not_king b m Hnk).
    rewrite (PieceType_eqb_neq _ _ Hnp), (PieceType_eqb_neq _ _ Hnk).
    cbn [andb negb].
    destruct (step_capture (rep b) _ (to m) Hwf Ht eq_refl) as (Hwf1 & Hat1 & Hback).
    rewrite andb_true_r.
    set (r1 := if negb (Piece_eqb (at_sq (board b) (to m)) NonePiece)
               then rm (at_sq (board b) (to m)) (to m) (rep b) else rep b) in *.
    destruct (step_move r1 (makePiece PAWN (sideToMove b)) (makePiece (piece m) (sideToMove b))
                (from m) (to m)) as (Hwf2 & Hundo); try assumption.
    { apply makePiece_not_None. discriminate. }
    { rewrite Hat1. destruct (Z.eqb_spec (from m) (to m)); [lia|exact Hfrom]. }
    { rewrite Hat1. now rewrite Z.eqb_refl. }
    split; [assumption|]. rewrite Hundo. exact Hback.
  - (* castling *)
    rewrite (code_isCastling_spec b m Hfrom). unfold is_castling.
    rewrite Hking, Hcap, Piece_eqb_refl. cbn [PieceType_eqb andb negb].
    rewrite !andb_false_r.
    rewrite Hking in Hfrom.
    apply step_castle; try assumption.
    + apply makePiece_not_None. discriminate.
    + apply own_rook_not_None.
    + now apply castle_kingTo_in.
    + now apply castle_rookTo_in.
    + now apply castle_squares_differ.
    + now apply free_or_vacated_at.
    + now apply free_or_vacated_at.
  - (* en passant *)
    rewrite (code_isCastling_spec b m Hfrom), Hnc, Hpawn, Hcap.
    rewrite <- Hep, Z.eqb_refl. cbn [PieceType_eqb Piece_eqb andb negb Nat.eqb Piece_to_nat].
    destruct (xor8_square (to m) Ht) as (Hsq & Hxr & Hxne).
    rewrite Hsq. rewrite <- Hoff, Hsq.
    rewrite Hpawn in Hfrom, Hp.
    assert (Hpe : makePiece PAWN (flip (sideToMove b)) <> NonePiece)
      by (apply makePiece_not_None; discriminate).
    assert (Hwf1 : wf (rm (makePiece PAWN (flip (sideToMove b))) (Z.lxor (to m) 8) (rep b)))
      by now apply wf_rm.
    assert (Hxf : Z.lxor (to m) 8 <> from m).
    { intros E. rewrite E in Hx. simpl in Hx, Hfrom. rewrite Hfrom in Hx.
      destruct (sideToMove b); discriminate. }
    destruct (step_move (rm (makePiece PAWN (flip (sideToMove b))) (Z.lxor (to m) 8) (rep b))
                (makePiece PAWN (sideToMove b)) (makePiece PAWN (sideToMove b))
                (from m) (to m)) as (Hwf2 & Hundo); try assumption.
    { at_simpl. destruct (Z.eqb_spec (from m) (Z.lxor (to m) 8)); [lia|exact Hfrom]. }
    { at_simpl. destruct (Z.eqb_spec (to m) (Z.lxor (to m) 8)); [reflexivity|exact Hcap]. }
    split; [assumption|]. rewrite Hundo. now apply pl_rm_id.
  - (* capture or quiet move *)
    rewrite (code_isCastling_spec b m Hfrom), Hnc.
    unfold is_castling in Hnc. unfold is_enPassant in Hne'.
    rewrite Hne', Hnc. rewrite (andb_comm (to m =? enPassantSquare b)), Hne'.
    cbn [andb negb]. rewrite !andb_true_r.
    destruct (step_capture (rep b) _ (to m) Hwf Ht eq_refl) as (Hwf1 & Hat1 & Hback).
    set (r1 := if negb (Piece_eqb (at_sq (board b) (to m)) NonePiece)
               then rm (at_sq (board b) (to m)) (to m) (rep b) else rep b) in *.
    destruct (step_move r1 (makePiece (piece m) (sideToMove b))
                (makePiece (piece m) (sideToMove b))
                (from m) (to m)) as (Hwf2 & Hundo); try assumption.
    { rewrite Hat1. destruct (Z.eqb_spec (from m) (to m)); [lia|exact Hfrom]. }
    { rewrite Hat1. now rewrite Z.eqb_refl. }
    split; [assumption|]. rewrite Hundo. exact Hback.
Qed.

(** ** Make and unmake *)

Lemma wrap_inc_dec bits f : 0 <= f < 2 ^ bits -> wrap bits (wrap bits (f + 1) - 1) = f.
Proof.
  intros H. unfold wrap. rewrite Zminus_mod_idemp_l.
  replace (f + 1 - 1) with f by lia. now apply Z.mod_small.
Qed.

Lemma flip_flip c : flip (flip c) = c.
Proof. now destruct c. Qed.

Lemma set_fullMoveNumber_id b : set_fullMoveNumber (fullMoveNumber b) b = b.
Proof. now destruct b. Qed.

Section RoundTrip.

Variable T : Tables.

(** What [makeMove] does on a contractual move of a well-formed position,
    and that [unmakeMove] of the same move restores the position. *)
Lemma make_unmake (upd upd' : bool) m b (n n' : Net) :
  wf (rep b) -> move_contract b m = true ->
  exists b',
    makeMove T upd m (b, n) = Some (tt, (b', n ++ makeMove_calls T upd m b))
    /\ wf (rep b')
    /\ rep b' = pieces_rep m (sideToMove b) (at_sq (board b) (to m))
                  (to m =? enPassantSquare b) (code_isCastling b m) (rep b)
    /\ sideToMove b' = flip (sideToMove b)
    /\ fullMoveNumber b' = wrap (fullMoveNumber_bits T) (fullMoveNumber b + 1)
    /\ stateHistory b'
       = mkState (enPassantSquare b) (castlingRights b) (halfMoveClock b)
           (at_sq (board b) (to m)) :: stateHistory b
    /\ unmakeMove T upd' m (b', n')
       = Some (tt, (set_fullMoveNumber
                      (wrap (fullMoveNumber_bits T)
                         (wrap (fullMoveNumber_bits T) (fullMoveNumber b + 1) - 1)) b,
                    n' ++ (if upd' then [nnue_pull] else []))).
Proof.
  intros Hwf Hc.
  destruct (contract_common b m Hc) as (Hf & Ht & Hne & Hpt & Hk).
  destruct (make_unmake_rep b m Hwf Hc) as (Hwf' & Hundo).
  destruct (makeMove_run T upd m b n (proj1 Hwf) Hf Ht Hpt) as (bh & _ & Hcore & Hrun).
  destruct (core_inv _ _ Hcore) as (Hrep & Hstm & Hfm & Hhh & Hph & Hsh).
  exists (final_state T m b bh).
  assert (Hrep' : rep (final_state T m b bh)
                  = pieces_rep m (sideToMove b) (at_sq (board b) (to m))
                      (to m =? enPassantSquare b) (code_isCastling b m) (rep b)).
  { unfold final_state. cbv zeta.
    destruct (pieces_rep m (sideToMove b) (at_sq (board b) (to m))
                (to m =? enPassantSquare b) (code_isCastling b m) (rep b)); reflexivity. }
  split; [exact Hrun|]. split; [now rewrite Hrep'|]. split; [exact Hrep'|].
  split; [reflexivity|]. split; [exact Hfm|]. split; [exact Hsh|].
  rewrite (unmakeMove_run T upd' m (final_state T m b bh) n'
             (mkState (enPassantSquare b) (castlingRights b) (halfMoveClock b)
                (at_sq (board b) (to m)))
             (stateHistory b) (hashKey b) (hashHistory b) (pawnKey b) (pawnKeyHistory b));
    try assumption.
  - do 2 f_equal. f_equal.
    change (sideToMove (final_state T m b bh)) with (flip (sideToMove b)).
    rewrite flip_flip, Hrep'. cbn [capturedPiece enPassant]. rewrite Hundo.
    unfold restored_state, with_rep.
    change (sideToMove (final_state T m b bh)) with (flip (sideToMove b)).
    change (fullMoveNumber (final_state T m b bh)) with (fullMoveNumber bh).
    rewrite Hfm, flip_flip. cbn [fullMoveNumber header_state set_fullMoveNumber].
    destruct b. reflexivity.
  - now rewrite Hrep'; apply Hwf'.
  - change (sideToMove (final_state T m b bh)) with (flip (sideToMove b)).
    rewrite flip_flip. cbn [enPassant]. intros Hep.
    rewrite andb_true_iff in Hep. destruct Hep as [He1 He2].
    apply Z.eqb_eq in He1. apply PieceType_eqb_eq in He2.
    destruct (xor8_square (to m) Ht) as (Hsq & Hxr & _).
    destruct (contract_cases b m Hc)
      as [(_ & Hnp & _)
         | (_ & _ & [(Hking & _)
                    | [(_ & _ & _ & _ & _ & Hoff) | (_ & Hne')]])].
    + congruence.
    + congruence.
    + rewrite <- He1, <- Hoff, Hsq. exact Hxr.
    + unfold is_enPassant in Hne'. rewrite He2, He1, Z.eqb_refl in Hne'. discriminate.
Qed.

End RoundTrip.

(** ** Null moves *)

Ltac xor_bits :=
  apply Z.bits_inj'; intros ? ?; rewrite ?Z.lxor_spec, ?Z.bits_0;
  repeat match goal with
         | |- context [Z.testbit ?x ?i] => destruct (Z.testbit x i)
         end;
  reflexivity.

Lemma lxor_cancel a s : Z.lxor (Z.lxor a s) s = a.
Proof. xor_bits. Qed.

Lemma lxor_cancel2 a s e : Z.lxor (Z.lxor (Z.lxor (Z.lxor a s) e) s) e = a.
Proof. xor_bits. Qed.

Ltac norm_state :=
  cbn [piecesBB board sideToMove enPassantSquare castlingRights halfMoveClock fullMoveNumber
       hashKey pawnKey hashHistory pawnKeyHistory stateHistory
       set_piecesBB set_board set_sideToMove set_enPassantSquare set_castlingRights
       set_halfMoveClock set_fullMoveNumber set_hashKey set_pawnKey set_hashHistory
       set_pawnKeyHistory set_stateHistory enPassant castling halfMove capturedPiece fst snd].

Section NullMove.

Variable T : Tables.

Lemma null_roundtrip b (n n' : Net) :
  exists b1,
    makeNullMove T (b, n) = Some (tt, (b1, n))
    /\ rep b1 = rep b
    /\ sideToMove b1 = flip (sideToMove b)
    /\ enPassantSquare b1 = NO_SQ
    /\ unmakeNullMove T (b1, n')
       = Some (tt, (set_fullMoveNumber
                      (wrap (fullMoveNumber_bits T)
                         (wrap (fullMoveNumber_bits T) (fullMoveNumber b + 1) - 1)) b,
                    n')).
Proof.
  destruct b as [bbs brd stm eps cr hmc fmn hk pk hh ph sh].
  unfold makeNullMove, unmakeNullMove, pop_stateHistory, xor_hashKey.
  rewrite !bind_modify, bind_gets. norm_state.
  destruct (eps =? NO_SQ) eqn:E; cbn [negb when].
  - rewrite bind_ret, bind_modify. unfold modify at 1. norm_state.
    eexists. split; [reflexivity|].
    split; [reflexivity|]. split; [reflexivity|]. split; [reflexivity|].
    rewrite !bind_assoc, bind_gets. norm_state.
    rewrite !bind_assoc, !bind_modify, bind_ret, !bind_modify, bind_gets. norm_state.
    rewrite E. cbn [negb when]. rewrite bind_ret, bind_modify. unfold modify. norm_state.
    rewrite lxor_cancel, flip_flip.
    reflexivity.
  - rewrite !bind_modify. unfold modify at 1. norm_state.
    eexists. split; [reflexivity|].
    split; [reflexivity|]. split; [reflexivity|]. split; [reflexivity|].
    rewrite !bind_assoc, bind_gets. norm_state.
    rewrite !bind_assoc, !bind_modify, bind_ret, !bind_modify, bind_gets. norm_state.
    rewrite E. cbn [negb when]. rewrite !bind_modify. unfold modify. norm_state.
    rewrite lxor_cancel2, flip_flip.
    reflexivity.
Qed.

End NullMove.

(** ** The loader *)

Lemma bind_inv {A B} (m : M A) (k : A -> M B) w r :
  bind m k w = Some r -> exists a w', m w = Some (a, w') /\ k a w' = Some r.
Proof.
  unfold bind. destruct (m w) as [[a w']|]; [|discriminate].
  intros H. now exists a, w'.
Qed.

Lemma pinv_bind {A B} I (m : M A) (k : A -> M B) :
  pinv I m -> (forall a, pinv I (k a)) -> pinv I (bind m k).
Proof.
  intros Hm Hk w b w' HI Hrun. apply bind_inv in Hrun.
  destruct Hrun as (a & w1 & H1 & H2). eapply Hk; [|exact H2]. eapply Hm; eassumption.
Qed.

Lemma pinv_ret {A} I (a : A) : pinv I (ret a).
Proof. intros w b w' HI H. injection H as _ <-. exact HI. Qed.

Lemma pinv_ub {A} I : pinv I (@ub A).
Proof. intros w b w' HI H. discriminate H. Qed.

Lemma pinv_gets {A} I (f : Board -> A) : pinv I (gets f).
Proof. intros w b w' HI H. injection H as _ <-. exact HI. Qed.

Lemma pinv_modify (I : World -> Prop) f :
  (forall b n, I (b, n) -> I (f b, n)) -> pinv I (modify f).
Proof. intros Hf [b n] a w' HI H. injection H as _ <-. now apply Hf. Qed.

Lemma pinv_when I c m : pinv I m -> pinv I (when c m).
Proof. intros H. destruct c; [exact H|apply pinv_ret]. Qed.

Ltac pinv_step solve_modify :=
  first
    [ apply pinv_ret
    | apply pinv_ub
    | apply pinv_gets
    | apply pinv_when
    | apply pinv_modify; solve_modify
    | apply pinv_bind; [|intros ?]
    | match goal with
      | |- pinv _ (if ?c then _ else _) => destruct c
      | |- pinv _ (match ?c with _ => _ end) => destruct c
      | |- pinv _ (let '(_, _) := ?c in _) => destruct c
      end ].

Lemma fold_squares_insert f brd i n x old :
  brd !! n = Some old ->
  fold_squares f (<[n := x]> brd) i
  = Z.lxor (Z.lxor (fold_squares f brd i) (f old (i + Z.of_nat n))) (f x (i + Z.of_nat n)).
Proof.
  revert i n. induction brd as [|a rest IH]; intros i n H; [discriminate|].
  destruct n as [|n].
  - injection H as ->. change (<[0%nat := x]> (old :: rest)) with (x :: rest).
    cbn [fold_squares]. change (Z.of_nat 0) with 0. rewrite Z.add_0_r. xor_bits.
  - change ((a :: rest) !! S n) with (rest !! n) in H.
    change (<[S n := x]> (a :: rest)) with (a :: <[n := x]> rest).
    cbn [fold_squares].
    rewrite (IH (i + 1) n H), Nat2Z.inj_succ.
    replace (i + Z.succ (Z.of_nat n)) with (i + 1 + Z.of_nat n) by lia. xor_bits.
Qed.

Lemma fold_pl f p sq r :
  lens r -> 0 <= sq < 64 ->
  fold_squares f (snd (pl p sq r)) 0
  = Z.lxor (Z.lxor (fold_squares f (snd r) 0) (f (at_sq (snd r) sq) sq)) (f p sq).
Proof.
  intros [_ Hl] Hsq. simpl.
  rewrite (fold_squares_insert f (snd r) 0 (Z.to_nat sq) p (at_sq (snd r) sq)).
  - now rewrite Z2Nat.id by lia.
  - apply lookup_at_sq; [now apply in_board_iff|assumption].
Qed.

Lemma fold_rm f p sq r :
  lens r -> 0 <= sq < 64 ->
  fold_squares f (snd (rm p sq r)) 0
  = Z.lxor (Z.lxor (fold_squares f (snd r) 0) (f (at_sq (snd r) sq) sq)) (f NonePiece sq).
Proof.
  intros [_ Hl] Hsq. simpl.
  rewrite (fold_squares_insert f (snd r) 0 (Z.to_nat sq) NonePiece (at_sq (snd r) sq)).
  - now rewrite Z2Nat.id by lia.
  - apply lookup_at_sq; [now apply in_board_iff|assumption].
Qed.

Lemma charToPiece_not_None c p : charToPiece c = Some p -> p <> NonePiece.
Proof.
  unfold charToPiece.
  repeat match goal with
         | |- (if ?x then _ else _) = _ -> _ => destruct x
         end; intros H; try discriminate H; injection H as <-; discriminate.
Qed.

Lemma wf_empty : wf (replicate 12 0, replicate 64 NonePiece).
Proof.
  apply (wf_rep_wf (mkBoard (replicate 12 0) (replicate 64 NonePiece) White 0 0 0 0 0 0 [] [] [])).
  vm_compute. reflexivity.
Qed.

Lemma existsb_eqb_false x l : existsb (Z.eqb x) l = false -> ~ In x l.
Proof.
  intros H Hin. assert (existsb (Z.eqb x) l = true); [|congruence].
  apply existsb_exists. exists x. split; [assumption|apply Z.eqb_refl].
Qed.

Section Loader.

Variable T : Tables.

Lemma pawn_contribution_None sq : pawn_contribution T NonePiece sq = 0.
Proof. reflexivity. Qed.

Lemma piece_contribution_None sq : piece_contribution T NonePiece sq = 0.
Proof. reflexivity. Qed.

Lemma zero_loop_run b (n : Net) :
  length (piecesBB b) = 12%nat ->
  fold_right (fun p k => piecesBB_put p 0 ;;; k)%M (ret tt) all_pieces (b, n)
  = Some (tt, (set_piecesBB (replicate 12 0) b, n)).
Proof.
  intros Hl. destruct b as [bbs brd stm eps cr hmc fmn hk pk hh ph sh].
  simpl in Hl. do 13 (destruct bbs as [|? bbs]; try discriminate Hl).
  reflexivity.
Qed.

(** The loop over the placement field, on a well-formed placement. *)
Lemma position_run position : forall sq b (n : Net),
  wf (rep b) -> pawnKey b = pawnKey_of T b ->
  forallb in_board (fen_squares position sq) = true ->
  nodupb (fen_squares position sq) = true ->
  (forall s, In s (fen_squares position sq) -> at_sq (board b) s = NonePiece) ->
  exists b',
    applyFen_position T position sq (b, n) = Some (tt, (b', n))
    /\ wf (rep b') /\ pawnKey b' = pawnKey_of T b'.
Proof.
  induction position as [|curr rest IH]; intros sq b n Hwf Hpk Hin Hnd Hfree.
  - exists b. split; [reflexivity|]. split; assumption.
  - simpl applyFen_position. simpl fen_squares in Hin, Hnd, Hfree.
    destruct (charToPiece curr) as [piece|] eqn:Ec.
    + simpl in Hin, Hnd. rewrite andb_true_iff in Hin, Hnd.
      destruct Hin as [Hsq Hin]. destruct Hnd as [Hfresh Hnd].
      apply negb_true_iff in Hfresh. apply existsb_eqb_false in Hfresh.
      pose proof (charToPiece_not_None _ _ Ec) as Hp.
      pose proof (proj1 (in_board_iff sq) Hsq) as Hr.
      erewrite bind_run by (apply placePiece_run; [apply Hwf|assumption..]).
      assert (Hwf1 : wf (pl piece sq (rep b))).
      { apply wf_pl; try assumption. apply Hfree. now left. }
      assert (Hfold : fold_squares (pawn_contribution T) (snd (pl piece sq (rep b))) 0
                      = Z.lxor (pawnKey b) (pawn_contribution T piece sq)).
      { rewrite fold_pl by (apply Hwf || assumption).
        change (snd (rep b)) with (board b). rewrite (Hfree sq) by now left.
        rewrite pawn_contribution_None, Z.lxor_0_r. now rewrite Hpk. }
      assert (Hfree1 : forall bx, rep bx = pl piece sq (rep b) ->
                forall s, In s (fen_squares rest (Square (sq + 1))) ->
                          at_sq (board bx) s = NonePiece).
      { intros bx Hbx s Hs. change (board bx) with (snd (rep bx)). rewrite Hbx.
        rewrite at_pl by (apply Hwf || assumption).
        destruct (Z.eqb_spec s sq) as [->|_]; [contradiction|].
        apply Hfree. now right. }
      assert (Hpc : pawn_contribution T piece sq
                    = if PieceType_eqb (type_of_piece piece) PAWN
                      then updateKeyPiece T piece sq else 0) by reflexivity.
      rewrite Hpc in Hfold. clear Hpc.
      destruct (PieceType_eqb (type_of_piece piece) PAWN); unfold when, xor_pawnKey.
      * rewrite bind_modify.
        apply IH; [exact Hwf1| |assumption|assumption|].
        -- unfold pawnKey_of. norm_state.
           change (board (with_rep (pl piece sq (rep b)) b)) with (snd (pl piece sq (rep b))).
           rewrite Hfold. reflexivity.
        -- apply Hfree1. reflexivity.
      * rewrite bind_ret. rewrite Z.lxor_0_r in Hfold.
        apply IH; [exact Hwf1| |assumption|assumption|].
        -- unfold pawnKey_of.
           change (board (with_rep (pl piece sq (rep b)) b)) with (snd (pl piece sq (rep b))).
           rewrite Hfold. reflexivity.
        -- apply Hfree1. reflexivity.
    + destruct (Ascii.eqb curr "/"); [now apply IH|].
      destruct (isdigit curr); now apply IH.
Qed.

Lemma param_inv ps i w a w' :
  param ps i w = Some (a, w') -> w' = w /\ ps !! i = Some a.
Proof.
  unfold param. destruct (ps !! i); [|discriminate].
  intros H. injection H as -> ->. now split.
Qed.

Ltac loaded_modify := intros ? ? [<- <-]; split; reflexivity.

Lemma castling_loaded r pk s : pinv (loaded r pk) (applyFen_castling s).
Proof.
  induction s as [|c rest IH]; simpl.
  - apply pinv_ret.
  - apply pinv_bind; [|intros ?; exact IH].
    destruct (readCastleString c); [apply pinv_modify; loaded_modify|apply pinv_ret].
Qed.

Lemma stoi_loaded r pk s : pinv (loaded r pk) (stoi s).
Proof.
  unfold stoi. cbv zeta.
  repeat pinv_step loaded_modify.
Qed.

Lemma string_at_loaded r pk s i : pinv (loaded r pk) (string_at s i).
Proof. unfold string_at. repeat pinv_step loaded_modify. Qed.

Lemma ep_loaded r pk en_passant :
  pinv (loaded r pk)
    (if (en_passant =? "-")%string then modify (set_enPassantSquare NO_SQ)
     else
       letter <- string_at en_passant 0 ;;
       digit <- string_at en_passant 1 ;;
       let file := Z.of_nat (nat_of_ascii letter) - 96 in
       let rank := Z.of_nat (nat_of_ascii digit) - 48 in
       modify (set_enPassantSquare (Square ((rank - 1) * 8 + file - 1)))).
Proof.
  destruct (en_passant =? "-")%string; [apply pinv_modify; loaded_modify|].
  apply pinv_bind; [apply string_at_loaded|intros ?].
  apply pinv_bind; [apply string_at_loaded|intros ?].
  apply pinv_modify; loaded_modify.
Qed.

(** A descriptor with a well-formed placement loads into a well-formed
    representation whose two keys are the keys from scratch. *)
Lemma applyFen_loads fen b0 (n0 : Net) b n :
  lens (rep b0) -> placement_ok fen = true ->
  applyFen T fen (b0, n0) = Some (tt, (b, n)) ->
  wf (rep b) /\ pawnKey b = pawnKey_of T b /\ hashKey b = zobristHash_of T b.
Proof.
  intros [Hl1 Hl2] Hok H. simpl in Hl1, Hl2. unfold applyFen in H.
  erewrite bind_run in H by (now apply zero_loop_run).
  rewrite bind_modify in H. cbv zeta in H.
  apply bind_inv in H. destruct H as (position & w & Hp & H).
  apply param_inv in Hp. destruct Hp as [-> Hpos].
  apply bind_inv in H. destruct H as (move_right & w & Hp & H).
  apply param_inv in Hp. destruct Hp as [-> _].
  apply bind_inv in H. destruct H as (castling & w & Hp & H).
  apply param_inv in Hp. destruct Hp as [-> _].
  apply bind_inv in H. destruct H as (en_passant & w & Hp & H).
  apply param_inv in Hp. destruct Hp as [-> _].
  apply bind_inv in H. destruct H as (half_move_clock & w & Hp & H).
  assert (w = (set_pawnKey 0 (set_piecesBB (replicate 12 0) b0), n0)) as ->.
  { destruct (4 <? length (splitInput fen))%nat.
    - now apply param_inv in Hp.
    - now injection Hp as _ <-. }
  clear Hp.
  apply bind_inv in H. destruct H as (full_move_counter & w & Hp & H).
  assert (w = (set_pawnKey 0 (set_piecesBB (replicate 12 0) b0), n0)) as ->.
  { destruct (4 <? length (splitInput fen))%nat.
    - now apply param_inv in Hp.
    - now injection Hp as _ <-. }
  clear Hp.
  rewrite !bind_modify in H.
  unfold placement_ok in Hok.
  destruct (splitInput fen) as [|pos0 params] eqn:Esplit; [discriminate|].
  injection Hpos as ->. rewrite andb_true_iff in Hok. destruct Hok as [Hin Hnd].
  match type of H with
  | bind (applyFen_position _ _ _) _ (?bx, _) = _ =>
      destruct (position_run position (Square 56) bx n0) as (b1 & Hrun & Hwf1 & Hpk1);
        try assumption
  end.
  { cbn. rewrite Hl2. exact wf_empty. }
  { unfold pawnKey_of. cbn. rewrite Hl2. reflexivity. }
  { intros s Hs. cbn. rewrite Hl2. unfold at_sq.
    destruct (in_board s) eqn:E; [|reflexivity].
    apply in_board_iff in E.
    rewrite lookup_replicate_2 by lia. reflexivity. }
  erewrite bind_run in H by exact Hrun.
  assert (HI : loaded (rep b1) (pawnKey b1) (b1, n0)) by (split; reflexivity).
  apply bind_inv in H. destruct H as (u & w & Hs & H).
  eapply (pinv_modify (loaded (rep b1) (pawnKey b1))) in Hs; [|loaded_modify|exact HI].
  clear HI. rename Hs into HI.
  apply bind_inv in H. destruct H as (u' & w2 & Hs & H).
  eapply (pinv_modify (loaded (rep b1) (pawnKey b1))) in Hs; [|loaded_modify|exact HI].
  clear HI. rename Hs into HI.
  apply bind_inv in H. destruct H as (u2 & w3 & Hs & H).
  eapply castling_loaded in Hs; [|exact HI]. clear HI. rename Hs into HI.
  apply bind_inv in H. destruct H as (u3 & w4 & Hs & H).
  eapply (ep_loaded (rep b1) (pawnKey b1)) in Hs; [|exact HI]. clear HI. rename Hs into HI.
  apply bind_inv in H. destruct H as (u4 & w5 & Hs & H).
  eapply (pinv_bind (loaded (rep b1) (pawnKey b1))) in Hs;
    [|apply stoi_loaded|intros ?; apply pinv_modify; loaded_modify|exact HI].
  clear HI. rename Hs into HI.
  apply bind_inv in H. destruct H as (u5 & w6 & Hs & H).
  eapply (pinv_bind (loaded (rep b1) (pawnKey b1))) in Hs;
    [|apply stoi_loaded
     |intros v; destruct ((INT_MIN <=? v * 2) && (v * 2 <=? INT_MAX));
      [apply pinv_modify; loaded_modify|apply pinv_ub]
     |exact HI].
  clear HI. rename Hs into HI.
  destruct w6 as [b6 n6]. destruct HI as [Hrep6 Hpk6]. cbn [fst] in Hrep6, Hpk6.
  unfold zobristHash, refresh in H.
  rewrite !bind_assoc, bind_gets, !bind_modify, !bind_assoc, !bind_gets in H.
  unfold bind, call in H. cbn [fst snd] in H. injection H as <- _.
  split; [|split].
  - change (wf (rep b6)). now rewrite Hrep6.
  - change (pawnKey b6 = fold_squares (pawn_contribution T) (snd (rep b6)) 0).
    now rewrite Hpk6, Hrep6.
  - destruct b6. reflexivity.
Qed.

End Loader.

(** ** The two instantiations of the templates *)

Lemma sim_bind {A B} (m1 m2 : M A) (k1 k2 : A -> M B) :
  sim m1 m2 -> (forall a, sim (k1 a) (k2 a)) -> sim (bind m1 k1) (bind m2 k2).
Proof.
  intros Hm Hk b n1 n2. unfold bind. specialize (Hm b n1 n2).
  destruct (m1 (b, n1)) as [[a1 [b1 k1']]|], (m2 (b, n2)) as [[a2 [b2 k2']]|];
    simpl in Hm; try discriminate; [|reflexivity].
  injection Hm as -> ->. apply Hk.
Qed.

Lemma sim_ret {A} (a : A) : sim (ret a) (ret a).
Proof. intros b n1 n2. reflexivity. Qed.

Lemma sim_ub {A} : sim (@ub A) (@ub A).
Proof. intros b n1 n2. reflexivity. Qed.

Lemma sim_gets {A} (f : Board -> A) : sim (gets f) (gets f).
Proof. intros b n1 n2. reflexivity. Qed.

Lemma sim_modify f : sim (modify f) (modify f).
Proof. intros b n1 n2. reflexivity. Qed.

Lemma sim_when c m1 m2 : sim m1 m2 -> sim (when c m1) (when c m2).
Proof. intros H. destruct c; [exact H|apply sim_ret]. Qed.

Lemma sim_call_ret x : sim (call x) (ret tt).
Proof. intros b n1 n2. reflexivity. Qed.

Lemma sim_refresh_ret : sim refresh (ret tt).
Proof. intros b n1 n2. reflexivity. Qed.

Lemma sim_trans {A} (m1 m2 m3 : M A) : sim m1 m2 -> sim m2 m3 -> sim m1 m3.
Proof. intros H1 H2 b n1 n2. now rewrite (H1 b n1 n1), (H2 b n1 n2). Qed.

Lemma sim_sym {A} (m1 m2 : M A) : sim m1 m2 -> sim m2 m1.
Proof. intros H b n1 n2. symmetry. apply H. Qed.

(** Two statements that only talk to the net, each under its own switch. *)
Lemma sim_when_net c1 c2 (m1 m2 : M unit) :
  sim m1 (ret tt) -> sim m2 (ret tt) -> sim (when c1 m1) (when c2 m2).
Proof.
  intros H1 H2. destruct c1, c2; simpl.
  - eapply sim_trans; [exact H1|now apply sim_sym].
  - exact H1.
  - now apply sim_sym.
  - apply sim_ret.
Qed.

Lemma bind_ret_tt (m : M unit) w : bind m (fun _ => ret tt) w = m w.
Proof. unfold bind. destruct (m w) as [[[] w']|]; reflexivity. Qed.

(** Dropping a trailing statement that only talks to the net. *)
Lemma sim_drop_l (m m' k : M unit) :
  sim m m' -> sim k (ret tt) -> sim (bind m (fun _ => k)) m'.
Proof.
  intros Hm Hk b n1 n2. rewrite <- (bind_ret_tt m' (b, n2)).
  exact (sim_bind m m' (fun _ => k) (fun _ => ret tt) Hm (fun _ => Hk) b n1 n2).
Qed.

Ltac sim_step :=
  first
    [ apply sim_ret
    | apply sim_ub
    | apply sim_gets
    | apply sim_modify
    | apply sim_when_net; [apply sim_call_ret | apply sim_call_ret]
    | apply sim_when
    | apply sim_bind; [|intros ?]
    | match goal with
      | |- sim (if ?c then _ else _) (if ?c then _ else _) => destruct c
      | |- sim (match ?c with _ => _ end) (match ?c with _ => _ end) => destruct c
      end ].

Ltac unfold_blocks :=
  unfold makeMove_hashOut, makeMove_hashMove,
    pop_stateHistory, pop_hashHistory, pop_pawnKeyHistory,
    updateKeyCastling, xor_hashKey, xor_pawnKey,
    removeCastlingRightsAll, removeCastlingRightsRook,
    colorOf, pieceAtB, board_get, board_put, piecesBB_get, piecesBB_put, bit;
  cbv zeta.

Section Templates.

Variable T : Tables.

Lemma sim_move_tail p fromSq toSq kW kB :
  sim (stm <- gets sideToMove ;;
       if PieceType_eqb (type_of_piece p) KING && bucket_crossing T stm fromSq toSq
       then refresh
       else call (nnue_updateAccumulator_move (type_of_piece p) (color_of_piece p)
                    fromSq toSq kW kB))
      (ret tt).
Proof.
  intros b n1 n2. unfold bind, gets. simpl.
  destruct (PieceType_eqb (type_of_piece p) KING
            && bucket_crossing T (sideToMove b) fromSq toSq); reflexivity.
Qed.

Lemma sim_removePieceT u1 u2 p sq kW kB :
  sim (removePieceT u1 p sq kW kB) (removePieceT u2 p sq kW kB).
Proof. unfold removePieceT. unfold_blocks. repeat sim_step. Qed.

Lemma sim_placePieceT u1 u2 p sq kW kB :
  sim (placePieceT u1 p sq kW kB) (placePieceT u2 p sq kW kB).
Proof. unfold placePieceT. unfold_blocks. repeat sim_step. Qed.

Lemma sim_movePieceT u1 u2 p f t kW kB :
  sim (movePieceT T u1 p f t kW kB) (movePieceT T u2 p f t kW kB).
Proof.
  unfold movePieceT. unfold_blocks. repeat sim_step.
  apply sim_when_net; apply sim_move_tail.
Qed.

Lemma sim_removePiece u p sq kW kB : sim (removePiece p sq) (removePieceT u p sq kW kB).
Proof.
  unfold removePiece, removePieceT.
  do 3 (apply sim_bind; [unfold_blocks; repeat sim_step|intros ?]).
  apply sim_sym, sim_drop_l; [unfold_blocks; repeat sim_step|].
  destruct u; [apply sim_call_ret|apply sim_ret].
Qed.

Lemma sim_placePiece u p sq kW kB : sim (placePiece p sq) (placePieceT u p sq kW kB).
Proof.
  unfold placePiece, placePieceT.
  do 3 (apply sim_bind; [unfold_blocks; repeat sim_step|intros ?]).
  apply sim_sym, sim_drop_l; [unfold_blocks; repeat sim_step|].
  destruct u; [apply sim_call_ret|apply sim_ret].
Qed.

Lemma sim_pieces m stm capture ep isCastling kW kB :
  sim (makeMove_pieces T true m stm capture ep isCastling kW kB)
      (makeMove_pieces T false m stm capture ep isCastling kW kB).
Proof.
  unfold makeMove_pieces. cbv zeta. apply sim_bind; [|intros _].
  - destruct isCastling.
    + cbn [andb].
      destruct (bucket_crossing T stm (from m)
                  (file_rank_square (if from m <? to m then FILE_G else FILE_C)
                     (square_rank (from m)))).
      * apply sim_bind; [apply sim_removePiece|intros _].
        apply sim_bind; [apply sim_removePiece|intros _].
        apply sim_bind; [apply sim_placePiece|intros _].
        apply sim_drop_l; [apply sim_placePiece|apply sim_refresh_ret].
      * apply sim_bind; [apply sim_removePieceT|intros _].
        apply sim_bind; [apply sim_removePieceT|intros _].
        apply sim_bind; [apply sim_placePieceT|intros _].
        apply sim_placePieceT.
    + destruct (PieceType_eqb (piece m) PAWN && ep); [apply sim_removePieceT|].
      destruct (negb (Piece_eqb capture NonePiece) && negb false); [|apply sim_ret].
      apply sim_bind; [|intros _; apply sim_removePieceT].
      unfold_blocks. repeat sim_step.
  - destruct (promoted m).
    + apply sim_bind; [apply sim_removePieceT|intros _]. apply sim_placePieceT.
    + destruct (negb isCastling); [apply sim_movePieceT|apply sim_ret].
Qed.

Lemma sim_makeMove m : sim (makeMove T true m) (makeMove T false m).
Proof.
  unfold makeMove. cbv zeta.
  repeat first
    [ apply sim_pieces
    | apply sim_bind; [|intros ?]
    | progress unfold_blocks
    | sim_step ].
Qed.

Lemma sim_unmakeMove m : sim (unmakeMove T true m) (unmakeMove T false m).
Proof.
  unfold unmakeMove, removePiece, placePiece, movePiece. unfold_blocks.
  repeat sim_step.
Qed.

End Templates.


(** ** The invariant of the representation *)

Section Invariant.

Variable T : Tables.

Lemma reachable_wf b : reachable T b -> wf (rep b).
Proof.
  induction 1 as [fen b0 n0 b n Hl Hok Hrun
                 | upd m b n b' n' Hr IH Hc Hrun
                 | upd upd' m b0 n0 b n n1 b' n' Hr IH Hc Hrun Hundo
                 | b n b' n' Hr IH Hrun
                 | b0 n0 b n n1 b' n' Hr IH Hrun Hundo].
  - now destruct (applyFen_loads T fen b0 n0 b n Hl Hok Hrun).
  - destruct (make_unmake T upd upd m b n n IH Hc) as (b1 & Hrun1 & Hwf1 & _).
    rewrite Hrun1 in Hrun. now injection Hrun as <- _.
  - destruct (make_unmake T upd upd' m b0 n0 n1 IH Hc)
      as (b1 & Hrun1 & _ & _ & _ & _ & _ & Hundo1).
    rewrite Hrun1 in Hrun. injection Hrun as <- _.
    rewrite Hundo1 in Hundo. injection Hundo as <- _. exact IH.
  - destruct (null_roundtrip T b n n) as (b1 & Hrun1 & Hrep & _).
    rewrite Hrun1 in Hrun. injection Hrun as <- _. now rewrite Hrep.
  - destruct (null_roundtrip T b0 n0 n1) as (b1 & Hrun1 & _ & _ & _ & Hundo1).
    rewrite Hrun1 in Hrun. injection Hrun as <- _.
    rewrite Hundo1 in Hundo. injection Hundo as <- _. exact IH.
Qed.

End Invariant.


(** ** The hash update on particular kinds of move *)

Ltac run_scalars :=
  repeat (first [rewrite bind_assoc | rewrite bind_modify | rewrite bind_gets
                | rewrite bind_ret];
          norm_state).

Section HashPaths.

Variable T : Tables.

(** The hash update of a castling move: the rights of the side are
    cleared, nothing else of the scalars that [unmakeMove] cannot recompute
    changes but the keys. *)
Lemma hash_castling m b (n : Net) capture bh :
  piece m = KING -> promoted m = false ->
  bind (makeMove_hashOut T (enPassantSquare b))
    (fun _ => makeMove_hashMove T m (sideToMove b) capture
                (to m =? enPassantSquare b) true)
    (header_state T capture b, n) = Some (tt, (bh, n)) ->
  castlingRights bh
  = Z.land (castlingRights b)
      (match sideToMove b with
       | White => Z.lnot (Z.lor wk wq)
       | Black => Z.lnot (Z.lor bk bq)
       end)
  /\ enPassantSquare bh = NO_SQ
  /\ pawnKey bh = pawnKey b.
Proof.
  intros Hk Hp. destruct b as [bbs brd stm eps cr hmc fmn hk pk hh ph sh].
  unfold header_state, makeMove_hashOut, makeMove_hashMove, updateKeyCastling,
    xor_hashKey, xor_pawnKey, removeCastlingRightsAll.
  cbv zeta. rewrite Hk, Hp. norm_state. cbn [PieceType_eqb negb andb when].
  rewrite ?andb_false_r. cbn [when].
  destruct (eps =? NO_SQ); cbn [negb when]; run_scalars;
    unfold modify; norm_state; intros H; injection H as <-; norm_state;
    repeat split; reflexivity.
Qed.

End HashPaths.

Lemma castle_squares_rank1 m :
  0 <= from m < 8 -> from m < to m -> castle_kingTo m = 6 /\ castle_rookTo m = 5.
Proof.
  intros Hf Hlt. unfold castle_kingTo, castle_rookTo, file_rank_square, square_rank.
  replace (from m <? to m) with true by lia.
  rewrite Z.shiftr_div_pow2, Z.shiftl_mul_pow2 by lia. change (2 ^ 3) with 8.
  rewrite Z.div_small by lia. split; reflexivity.
Qed.

Lemma land_lnot_clear cr k : Z.land (Z.land cr (Z.lnot k)) k = 0.
Proof.
  apply Z.bits_inj'. intros i Hi. rewrite !Z.land_spec, Z.lnot_spec, Z.bits_0 by lia.
  destruct (Z.testbit cr i), (Z.testbit k i); reflexivity.
Qed.

Lemma land_lnot_keep cr k k' : Z.land k k' = 0 -> Z.land (Z.land cr (Z.lnot k)) k' = Z.land cr k'.
Proof.
  intros H. apply Z.bits_inj'. intros i Hi.
  assert (Hi' : Z.testbit k i && Z.testbit k' i = false)
    by (rewrite <- Z.land_spec, H; apply Z.bits_0).
  rewrite !Z.land_spec, Z.lnot_spec by lia.
  destruct (Z.testbit cr i), (Z.testbit k i), (Z.testbit k' i); try reflexivity; discriminate.
Qed.


(** ** Two-square pawn advances *)

Lemma land_bit_eq0 k x :
  0 <= k -> (Z.land (Z.shiftl 1 k) x =? 0) = negb (Z.testbit x k).
Proof.
  intros Hk. destruct (Z.testbit x k) eqn:Hx; cbn [negb].
  - apply Z.eqb_neq. intros H0.
    assert (Hb : Z.testbit (Z.land (Z.shiftl 1 k) x) k = true).
    { rewrite Z.land_spec, Hx, testbit_bit by lia. now rewrite Z.eqb_refl. }
    rewrite H0, Z.bits_0 in Hb. discriminate.
  - apply Z.eqb_eq. apply Z.bits_inj'. intros i Hi.
    rewrite Z.land_spec, Z.bits_0, testbit_bit by lia.
    destruct (Z.eqb_spec i k) as [->|Hne]; [now rewrite Hx|reflexivity].
Qed.

Lemma land_lor_eq0 a c x :
  (Z.land (Z.lor a c) x =? 0) = (Z.land a x =? 0) && (Z.land c x =? 0).
Proof.
  rewrite Z.land_lor_distr_l.
  destruct (Z.land a x =? 0) eqn:Ha, (Z.land c x =? 0) eqn:Hc; cbn [andb];
    rewrite ?Z.eqb_eq, ?Z.eqb_neq in *; rewrite ?Z.lor_eq_0_iff; tauto.
Qed.

Lemma land_guard_eq0 (g : bool) k x :
  0 <= k ->
  (Z.land (if g then Z.shiftl 1 k else 0) x =? 0) = negb (g && Z.testbit x k).
Proof.
  intros Hk. destruct g; cbn [andb negb]; [now apply land_bit_eq0|].
  now rewrite Z.land_0_l.
Qed.

Lemma consistent_testbit r p sq :
  consistent r -> p <> NonePiece -> 0 <= sq < 64 ->
  Z.testbit (bbv (fst r) p) sq = Piece_eqb (at_sq (snd r) sq) p.
Proof.
  intros Hc Hp Hsq. specialize (Hc p sq Hp Hsq).
  destruct (Z.testbit (bbv (fst r) p) sq) eqn:Hb.
  - symmetry. apply Piece_eqb_eq. now apply Hc.
  - symmetry. apply not_true_is_false. intros He. apply Piece_eqb_eq in He.
    apply Hc in He. congruence.
Qed.

Lemma behind_square sq :
  0 <= sq < 64 ->
  square_file (Square (Z.lxor sq 8)) = square_file sq
  /\ (24 <= sq < 32 -> Square (Z.lxor sq 8) = sq - 8)
  /\ (32 <= sq < 40 -> Square (Z.lxor sq 8) = sq + 8).
Proof.
  intros Hsq.
  pose proof (forall_squares
    (fun s => (square_file (Square (Z.lxor s 8)) =? square_file s)
              && (negb ((24 <=? s) && (s <? 32)) || (Square (Z.lxor s 8) =? s - 8))
              && (negb ((32 <=? s) && (s <? 40)) || (Square (Z.lxor s 8) =? s + 8)))
    eq_refl sq Hsq) as H.
  cbv beta in H. rewrite !andb_true_iff in H. destruct H as [[H1 H2] H3].
  split; [lia|]. split; intros Hr.
  - destruct (24 <=? sq) eqn:E1; [|lia]. destruct (sq <? 32) eqn:E2; [|lia].
    cbn in H2. lia.
  - destruct (32 <=? sq) eqn:E1; [|lia]. destruct (sq <? 40) eqn:E2; [|lia].
    cbn in H3. lia.
Qed.

Lemma square_file_lt sq : 0 <= sq < 64 -> 0 <= square_file sq < 8.
Proof.
  intros Hsq.
  pose proof (forall_squares (fun s => (0 <=? square_file s) && (square_file s <? 8))
                eq_refl sq Hsq) as H.
  cbv beta in H. lia.
Qed.

(** The attack mask of the square behind a two-square advance meets the
    enemy pawns exactly when an enemy pawn stands beside the destination. *)
Lemma epMask_beside b m :
  wf (rep b) -> two_square_advance b m = true ->
  negb (Z.land (PawnAttacks (Square (Z.lxor (to m) 8)) (sideToMove b))
          (bbv (piecesBB b) (makePiece PAWN (flip (sideToMove b)))) =? 0)
  = enemy_pawn_beside b m
  /\ Square (Z.lxor (to m) 8) = (from m + to m) / 2.
Proof.
  intros (Hl & Hu & Hc) H2. unfold two_square_advance in H2.
  rewrite !andb_true_iff in H2. destruct H2 as [[Hp He] Hs].
  unfold enemy_pawn_beside, PawnAttacks. cbv zeta.
  assert (Hto : 0 <= to m < 64) by (destruct (sideToMove b); lia).
  destruct (behind_square (to m) Hto) as (Hf & Hw & Hb).
  pose proof (square_file_lt (to m) Hto) as Hfile.
  rewrite Hf.
  assert (Hbit : forall sq, 0 <= sq < 64 ->
            Z.testbit (bbv (piecesBB b) (makePiece PAWN (flip (sideToMove b)))) sq
            = Piece_eqb (at_sq (board b) sq) (makePiece PAWN (flip (sideToMove b)))).
  { intros sq Hsq. apply (consistent_testbit (rep b)); auto.
    apply makePiece_not_None. discriminate. }
  destruct (sideToMove b) eqn:Hstm; cbn [flip] in *.
  - rewrite Hw by lia. split.
    + rewrite land_lor_eq0, !land_guard_eq0 by lia.
      rewrite negb_andb, !negb_involutive.
      replace (to m - 8 + 7) with (to m - 1) by lia.
      replace (to m - 8 + 9) with (to m + 1) by lia.
      destruct (0 <? square_file (to m)) eqn:E1, (square_file (to m) <? 7) eqn:E2;
        cbn [andb orb];
        replace (to m - 1 <? 64) with true by lia;
        replace (to m + 1 <? 64) with true by lia; cbn [andb orb];
        rewrite ?Hbit by lia; reflexivity.
    + replace (from m + to m) with ((to m - 8) * 2) by lia.
      now rewrite Z.div_mul by lia.
  - rewrite Hb by lia. split.
    + rewrite land_lor_eq0, !land_guard_eq0 by lia.
      rewrite negb_andb, !negb_involutive.
      replace (to m + 8 - 9) with (to m - 1) by lia.
      replace (to m + 8 - 7) with (to m + 1) by lia.
      destruct (0 <? square_file (to m)) eqn:E1, (square_file (to m) <? 7) eqn:E2;
        cbn [andb orb];
        replace (0 <=? to m - 1) with true by lia;
        replace (0 <=? to m + 1) with true by lia; cbn [andb orb];
        rewrite ?Hbit by lia; reflexivity.
    + replace (from m + to m) with ((to m + 8) * 2) by lia.
      now rewrite Z.div_mul by lia.
Qed.

Section HashPaths2.

Variable T : Tables.

(** The hash update of a two-square pawn advance: the en-passant square
    is the square behind the destination when the attack mask of that
    square meets the enemy pawns, and none otherwise. *)
Lemma hash_double_push m b (n : Net) bh :
  lens (rep b) -> piece m = PAWN ->
  Z.abs (from m - to m) = 16 ->
  bind (makeMove_hashOut T (enPassantSquare b))
    (fun _ => makeMove_hashMove T m (sideToMove b) NonePiece false false)
    (header_state T NonePiece b, n) = Some (tt, (bh, n)) ->
  enPassantSquare bh
  = if negb (Z.land (PawnAttacks (Square (Z.lxor (to m) 8)) (sideToMove b))
               (bbv (piecesBB b) (makePiece PAWN (flip (sideToMove b)))) =? 0)
    then Square (Z.lxor (to m) 8) else NO_SQ.
Proof.
  intros Hl Hp Habs. destruct b as [bbs brd stm eps cr hmc fmn hk pk hh ph sh].
  cbn [enPassantSquare sideToMove piecesBB] in *.
  unfold header_state, makeMove_hashOut, makeMove_hashMove, updateKeyCastling,
    xor_hashKey, xor_pawnKey.
  cbv zeta. rewrite Hp, Habs. norm_state.
  cbn [PieceType_eqb Piece_eqb Piece_to_nat Nat.eqb negb andb when Z.eqb Pos.eqb].
  assert (Hget : forall bx, piecesBB bx = bbs -> board bx = brd ->
            piecesBB_get (makePiece PAWN (flip stm)) (bx, n)
            = Some (bbv bbs (makePiece PAWN (flip stm)), (bx, n))).
  { intros bx Hbx Hbd. rewrite <- Hbx. apply piecesBB_get_run.
    - unfold rep. now rewrite Hbx, Hbd.
    - apply makePiece_not_None. discriminate. }
  destruct (eps =? NO_SQ), (promoted m); cbn [negb when]; run_scalars;
    (erewrite bind_run by (apply Hget; reflexivity));
    destruct (Z.land (PawnAttacks (Square (Z.lxor (to m) 8)) stm)
                (bbv bbs (makePiece PAWN (flip stm))) =? 0);
    cbn [negb when]; run_scalars;
    unfold modify; norm_state; intros H; injection H as <-; reflexivity.
Qed.

End HashPaths2.


(** ** The pawn key along the hash update *)

Lemma lxor_fixed a k : Z.lxor a k = a -> k = 0.
Proof.
  intros H. rewrite <- (Z.lxor_nilpotent a). rewrite <- H at 1.
  rewrite Z.lxor_comm, <- Z.lxor_assoc, Z.lxor_nilpotent. now rewrite Z.lxor_0_l.
Qed.

Ltac pk_step :=
  first
    [ apply inv_ret
    | apply inv_gets
    | apply inv_when
    | apply inv_modify; intros ? ? H; exact H
    | apply inv_bind; [|intros ?]
    | match goal with
      | |- inv _ (if ?c then _ else _) => destruct c
      | |- inv _ (match ?c with _ => _ end) => destruct c
      end ].

Section PawnKeyPaths.

Variable T : Tables.

Lemma hashOut_pawnKey pk eps :
  inv (fun w => pawnKey (fst w) = pk) (makeMove_hashOut T eps).
Proof.
  unfold makeMove_hashOut, updateKeyCastling, xor_hashKey. repeat pk_step.
Qed.

(** The hash update of a move whose piece type is not the pawn leaves the
    pawn key alone: the two xors of lines 206-207 and 212-213 are guarded
    by [pt == PAWN]. *)
Lemma hashMove_pawnKey pk m stm capture ep isCastling :
  PieceType_eqb (piece m) PAWN = false ->
  inv (fun w => pawnKey (fst w) = pk) (makeMove_hashMove T m stm capture ep isCastling).
Proof.
  intros Hp.
  unfold makeMove_hashMove, updateKeyCastling, xor_hashKey, xor_pawnKey,
    removeCastlingRightsAll, removeCastlingRightsRook.
  cbv zeta. rewrite Hp. cbv iota. repeat pk_step.
Qed.

Lemma hash_not_pawn m b (n : Net) capture ep isCastling bh :
  piece m <> PAWN ->
  bind (makeMove_hashOut T (enPassantSquare b))
    (fun _ => makeMove_hashMove T m (sideToMove b) capture ep isCastling)
    (header_state T capture b, n) = Some (tt, (bh, n)) ->
  pawnKey bh = pawnKey b.
Proof.
  intros Hp Hrun. apply PieceType_eqb_neq in Hp.
  assert (Hinv : inv (fun w => pawnKey (fst w) = pawnKey b)
            (bind (makeMove_hashOut T (enPassantSquare b))
               (fun _ => makeMove_hashMove T m (sideToMove b) capture ep isCastling))).
  { apply inv_bind; [apply hashOut_pawnKey|intros _; now apply hashMove_pawnKey]. }
  destruct (Hinv (header_state T capture b, n)) as (a & w' & Hrun' & Hpk).
  { unfold header_state. destruct b. reflexivity. }
  rewrite Hrun in Hrun'. injection Hrun' as _ <-. exact Hpk.
Qed.

(** The hash update of an en-passant capture xors the capturing pawn out
    of and into the pawn key, and nothing else. *)
Lemma hash_enPassant m b (n : Net) bh :
  piece m = PAWN -> promoted m = false ->
  bind (makeMove_hashOut T (enPassantSquare b))
    (fun _ => makeMove_hashMove T m (sideToMove b) NonePiece true false)
    (header_state T NonePiece b, n) = Some (tt, (bh, n)) ->
  pawnKey bh
  = Z.lxor (Z.lxor (pawnKey b) (updateKeyPiece T (makePiece PAWN (sideToMove b)) (from m)))
      (updateKeyPiece T (makePiece PAWN (sideToMove b)) (to m)).
Proof.
  intros Hk Hp. destruct b as [bbs brd stm eps cr hmc fmn hk pk hh ph sh].
  unfold header_state, makeMove_hashOut, makeMove_hashMove, updateKeyCastling,
    xor_hashKey, xor_pawnKey.
  cbv zeta. rewrite Hk, Hp. norm_state.
  cbn [PieceType_eqb Piece_eqb Piece_to_nat Nat.eqb negb andb when].
  destruct (eps =? NO_SQ); cbn [negb when]; run_scalars;
    unfold modify; norm_state; intros H; injection H as <-; reflexivity.
Qed.

End PawnKeyPaths.

(** ** The pawn key from scratch after an en-passant capture *)

Lemma pawn_contribution_pawn T c sq :
  pawn_contribution T (makePiece PAWN c) sq = updateKeyPiece T (makePiece PAWN c) sq.
Proof. now destruct c. Qed.

Lemma makePiece_flip c : makePiece PAWN (flip c) <> makePiece PAWN c.
Proof. destruct c; discriminate. Qed.

Lemma lxor_extra a e f t : Z.lxor (Z.lxor a f) t = Z.lxor (Z.lxor (Z.lxor a e) f) t -> e = 0.
Proof.
  intros H. apply (lxor_fixed (Z.lxor (Z.lxor a f) t)).
  rewrite H at 2. xor_bits.
Qed.

Section EnPassantKey.

Variable T : Tables.

Lemma pawnKey_of_enPassant b m :
  wf (rep b) -> 0 <= from m < 64 -> 0 <= to m < 64 -> from m <> to m ->
  at_sq (board b) (from m) = makePiece PAWN (sideToMove b) ->
  at_sq (board b) (to m) = NonePiece ->
  at_sq (board b) (Z.lxor (to m) 8) = makePiece PAWN (flip (sideToMove b)) ->
  fold_squares (pawn_contribution T)
    (snd (pl (makePiece PAWN (sideToMove b)) (to m)
            (rm (makePiece PAWN (sideToMove b)) (from m)
               (rm (makePiece PAWN (flip (sideToMove b))) (Z.lxor (to m) 8) (rep b))))) 0
  = Z.lxor
      (Z.lxor
         (Z.lxor (pawnKey_of T b)
            (updateKeyPiece T (makePiece PAWN (flip (sideToMove b))) (Z.lxor (to m) 8)))
         (updateKeyPiece T (makePiece PAWN (sideToMove b)) (from m)))
      (updateKeyPiece T (makePiece PAWN (sideToMove b)) (to m)).
Proof.
  intros (Hl & _) Hf Ht Hne Hfrom Hto Hx.
  destruct (xor8_square (to m) Ht) as (_ & Hxr & Hxne).
  set (e := makePiece PAWN (flip (sideToMove b))) in *.
  set (p := makePiece PAWN (sideToMove b)) in *.
  set (x := Z.lxor (to m) 8) in *.
  assert (Hfx : from m <> x).
  { intros Heq. rewrite Heq, Hx in Hfrom. now apply makePiece_flip in Hfrom. }
  pose proof (lens_rm e x _ Hl) as Hl1.
  pose proof (lens_rm p (from m) _ Hl1) as Hl2.
  rewrite fold_pl by assumption.
  rewrite fold_rm by assumption.
  rewrite fold_rm by assumption.
  rewrite !at_rm by assumption.
  replace (to m =? from m) with false by lia.
  replace (from m =? x) with false by lia.
  replace (to m =? x) with false by lia.
  change (snd (rep b)) with (board b). rewrite Hfrom, Hx, Hto.
  rewrite !pawn_contribution_None.
  unfold p, e. rewrite !pawn_contribution_pawn. unfold pawnKey_of.
  xor_bits.
Qed.

End EnPassantKey.


(* ------------------------------------------------------------------ *)
(** * The claims of the specification *)

Lemma wf_position_inv T b :
  wf_position T b = true -> wf (rep b) /\ 0 <= fullMoveNumber b < 2 ^ fullMoveNumber_bits T.
Proof.
  unfold wf_position. rewrite !andb_true_iff. intros [[H1 H2] H3].
  split; [now apply wf_rep_wf|lia].
Qed.

(** C1: for a contractual (in particular, every legal) move applied by
    [makeMove] to a well-formed position, the matching [unmakeMove]
    restores the position exactly: every field of [Board], the bitboards,
    the mailbox, the side to move, the castling rights, the en-passant
    square, both clocks, both keys and the three histories, has its value
    from before [makeMove]. *)
Theorem C1_unmakeMove_restores_position T (upd upd' : bool) m b (n n' : Net) :
  wf_position T b = true -> move_contract b m = true ->
  exists b' nn,
    makeMove T upd m (b, n) = Some (tt, (b', nn))
    /\ board_of (unmakeMove T upd' m (b', n')) = Some b.
Proof.
  intros Hwf Hc. apply wf_position_inv in Hwf. destruct Hwf as [Hwf Hfmn].
  destruct (make_unmake T upd upd' m b n n' Hwf Hc)
    as (b' & Hrun & _ & _ & _ & _ & _ & Hundo).
  exists b', (n ++ makeMove_calls T upd m b). split; [exact Hrun|].
  rewrite Hundo. simpl. rewrite wrap_inc_dec by assumption.
  now rewrite set_fullMoveNumber_id.
Qed.

Lemma C1_witness :
  exists b' nn,
    makeMove example_tables true e2e4 (startpos, []) = Some (tt, (b', nn))
    /\ board_of (unmakeMove example_tables true e2e4 (b', [])) = Some startpos.
Proof.
  apply (C1_unmakeMove_restores_position example_tables true true e2e4 startpos [] []).
  - vm_compute. reflexivity.
  - vm_compute. reflexivity.
Defined.

(** C7: for every position whose ply counter fits its field,
    [unmakeNullMove] after [makeNullMove] restores every field of the
    position (hash key, en-passant square, castling rights, half-move
    clock, side to move and ply counter included), and the pair touches
    neither the bitboards, nor the mailbox, nor the evaluator: the net is
    the same before and after each of the two calls. *)
Theorem C7_null_move_roundtrip T b (n : Net) :
  0 <= fullMoveNumber b < 2 ^ fullMoveNumber_bits T ->
  exists b1,
    makeNullMove T (b, n) = Some (tt, (b1, n))
    /\ piecesBB b1 = piecesBB b /\ board b1 = board b
    /\ unmakeNullMove T (b1, n) = Some (tt, (b, n)).
Proof.
  intros Hfmn.
  destruct (null_roundtrip T b n n) as (b1 & Hrun & Hrep & _ & _ & Hundo).
  exists b1. split; [exact Hrun|].
  unfold rep in Hrep. injection Hrep as Hbb Hbrd.
  split; [exact Hbb|]. split; [exact Hbrd|].
  rewrite Hundo, wrap_inc_dec by assumption. now rewrite set_fullMoveNumber_id.
Qed.

Lemma C7_witness :
  exists b1,
    makeNullMove example_tables (ep_board, []) = Some (tt, (b1, []))
    /\ piecesBB b1 = piecesBB ep_board /\ board b1 = board ep_board
    /\ unmakeNullMove example_tables (b1, []) = Some (tt, (ep_board, [])).
Proof.
  apply (C7_null_move_roundtrip example_tables ep_board []).
  vm_compute. split; [discriminate|reflexivity].
Defined.

(** C10: the evaluator-updating and the non-updating instantiation of
    [makeMove], and those of [unmakeMove], run from the same position,
    either both fail or both end in the same position: the same bitboards,
    mailbox, side to move, castling rights, en-passant square, clocks, keys
    and histories.  This holds for every position and every move, and for
    any two states of the net. *)
Theorem C10_template_instantiations_agree T m b (n1 n2 : Net) :
  board_of (makeMove T true m (b, n1)) = board_of (makeMove T false m (b, n2))
  /\ board_of (unmakeMove T true m (b, n1)) = board_of (unmakeMove T false m (b, n2)).
Proof.
  assert (H : forall (r1 r2 : option (unit * World)),
            erase r1 = erase r2 -> board_of r1 = board_of r2).
  { intros [[a1 [b1 k1]]|] [[a2 [b2 k2]]|]; simpl; intros E; try discriminate E.
    - now injection E as _ ->.
    - reflexivity. }
  split; apply H; [apply sim_makeMove|apply sim_unmakeMove].
Qed.



(** C6: a White king-side castling move (the king on the first rank taking
    its own rook on its right) applied by [makeMove] clears both castling
    rights of White, leaves those of Black as they were, and puts the
    white king on g1 and the white rook on f1, in the mailbox and in the
    bitboards.  [makeMove] does not consult the castling rights: the
    conclusion holds whether or not the king-side right is present. *)
Theorem C6_white_kingside_castling T (upd : bool) m b (n : Net) :
  wf_position T b = true -> move_contract b m = true ->
  sideToMove b = White -> piece m = KING ->
  at_sq (board b) (to m) = WhiteRook ->
  0 <= from m < 8 -> from m < to m ->
  exists b' nn,
    makeMove T upd m (b, n) = Some (tt, (b', nn))
    /\ Z.land (castlingRights b') (Z.lor wk wq) = 0
    /\ Z.land (castlingRights b') (Z.lor bk bq) = Z.land (castlingRights b) (Z.lor bk bq)
    /\ at_sq (board b') 6 = WhiteKing
    /\ at_sq (board b') 5 = WhiteRook
    /\ Z.testbit (bbv (piecesBB b') WhiteKing) 6 = true
    /\ Z.testbit (bbv (piecesBB b') WhiteRook) 5 = true.
Proof.
  intros Hwf Hc Hstm Hking Hrook Hf Hlt.
  apply wf_position_inv in Hwf. destruct Hwf as [Hwf _].
  destruct (contract_common b m Hc) as (Hf' & Ht & Hne & Hpt & _).
  assert (Hpr : promoted m = false).
  { destruct (contract_cases b m Hc) as [(_ & _ & Hnk & _)|(Hpr & _)];
      [congruence|assumption]. }
  assert (Hfrom : at_sq (board b) (from m) = makePiece (piece m) (sideToMove b)).
  { destruct (contract_cases b m Hc) as [(Hpr' & _)|(_ & Hfrom & _)];
      [congruence|assumption]. }
  assert (HisC : code_isCastling b m = true).
  { rewrite (code_isCastling_spec b m Hfrom). unfold is_castling.
    now rewrite Hking, Hrook, Hstm. }
  destruct (makeMove_run T upd m b n (proj1 Hwf) Hf' Ht Hpt) as (bh & Hhash & _ & Hrun).
  rewrite HisC in Hhash.
  destruct (hash_castling T m b _ _ bh Hking Hpr Hhash) as (Hcr & _ & _).
  destruct (make_unmake T upd upd m b n n Hwf Hc) as (b' & Hrun' & Hwf' & Hrep & _).
  rewrite Hrun in Hrun'. injection Hrun' as <-.
  exists (final_state T m b bh), (n ++ makeMove_calls T upd m b). split; [exact Hrun|].
  change (castlingRights (final_state T m b bh)) with (castlingRights bh).
  rewrite Hcr, Hstm.
  split; [apply land_lnot_clear|]. split; [now apply land_lnot_keep|].
  destruct (castle_squares_rank1 m Hf Hlt) as [HkT HrT].
  assert (Hrep' : rep (final_state T m b bh)
                  = pl WhiteRook 5 (pl WhiteKing 6
                      (rm WhiteRook (to m) (rm WhiteKing (from m) (rep b))))).
  { rewrite Hrep, HisC. unfold pieces_rep, pieces_rep1. cbv zeta.
    rewrite Hpr, Hking, Hstm, HkT, HrT. reflexivity. }
  assert (Hl : lens (rm WhiteRook (to m) (rm WhiteKing (from m) (rep b))))
    by (apply lens_rm, lens_rm, Hwf).
  change (board (final_state T m b bh)) with (snd (rep (final_state T m b bh))).
  change (piecesBB (final_state T m b bh)) with (fst (rep (final_state T m b bh))).
  rewrite Hrep'.
  repeat split.
  - rewrite at_pl, at_pl by first [lens_solve | lia]. reflexivity.
  - rewrite at_pl by first [lens_solve | lia]. reflexivity.
  - rewrite bbv_pl by first [lens_solve | discriminate].
    cbn [Piece_eqb Piece_to_nat Nat.eqb].
    rewrite bbv_pl by first [lens_solve | discriminate].
    cbn [Piece_eqb Piece_to_nat Nat.eqb]. rewrite testbit_set by lia.
    apply orb_true_r.
  - rewrite bbv_pl by first [lens_solve | discriminate].
    cbn [Piece_eqb Piece_to_nat Nat.eqb]. rewrite testbit_set by lia.
    apply orb_true_r.
Qed.

Lemma C6_witness :
  exists b' nn,
    makeMove example_tables true e1h1 (castle_board, []) = Some (tt, (b', nn))
    /\ Z.land (castlingRights b') (Z.lor wk wq) = 0
    /\ Z.land (castlingRights b') (Z.lor bk bq)
       = Z.land (castlingRights castle_board) (Z.lor bk bq)
    /\ at_sq (board b') 6 = WhiteKing
    /\ at_sq (board b') 5 = WhiteRook
    /\ Z.testbit (bbv (piecesBB b') WhiteKing) 6 = true
    /\ Z.testbit (bbv (piecesBB b') WhiteRook) 5 = true.
Proof.
  apply (C6_white_kingside_castling example_tables true e1h1 castle_board []).
  - vm_compute. reflexivity.
  - vm_compute. reflexivity.
  - reflexivity.
  - reflexivity.
  - vm_compute. reflexivity.
  - simpl. lia.
  - simpl. lia.
Defined.

(** C4: after a two-square pawn advance the en-passant square is the
    passed-over square exactly when an enemy pawn stands on a file beside
    the destination, on the destination's rank, and is no square
    otherwise. *)
Theorem C4_enPassant_square_gated T (upd : bool) b m (n : Net) :
  wf_position T b = true ->
  two_square_advance b m = true ->
  enPassant_rank_ok b = true ->
  exists b' nn,
    makeMove T upd m (b, n) = Some (tt, (b', nn))
    /\ enPassantSquare b'
       = if enemy_pawn_beside b m then (from m + to m) / 2 else NO_SQ.
Proof.
  intros Hwf H2 Hr. apply wf_position_inv in Hwf. destruct Hwf as [Hwf _].
  pose proof (epMask_beside b m Hwf H2) as [Hmask Hsq].
  pose proof H2 as H2'. unfold two_square_advance in H2'.
  rewrite !andb_true_iff in H2'. destruct H2' as [[Hp He] Hs].
  apply PieceType_eqb_eq in Hp. apply Piece_eqb_eq in He.
  assert (Hft : 0 <= from m < 64 /\ 0 <= to m < 64 /\ 24 <= to m < 40
                /\ Z.abs (from m - to m) = 16)
    by (destruct (sideToMove b); lia).
  destruct Hft as (Hf & Ht & Ht' & Habs).
  assert (Hep : (to m =? enPassantSquare b) = false).
  { unfold enPassant_rank_ok, NO_SQ in Hr. lia. }
  assert (Hc : code_isCastling b m = false).
  { unfold code_isCastling. rewrite Hp. reflexivity. }
  destruct Hwf as (Hl & _).
  destruct (makeMove_run T upd m b n Hl Hf Ht) as (bh & Hh & _ & Hrun).
  { rewrite Hp. discriminate. }
  cbv zeta in Hh. rewrite He, Hep, Hc in Hh.
  apply hash_double_push in Hh; auto.
  rewrite Hmask, Hsq in Hh.
  eexists _, _. split; [exact Hrun|].
  unfold final_state, with_rep. cbv zeta. norm_state. exact Hh.
Qed.

Lemma C4_witness :
  exists b' nn,
    makeMove example_tables true e2e4 (gating_board, []) = Some (tt, (b', nn))
    /\ enPassantSquare b'
       = if enemy_pawn_beside gating_board e2e4 then (from e2e4 + to e2e4) / 2 else NO_SQ.
Proof.
  apply (C4_enPassant_square_gated example_tables true gating_board e2e4 []);
    vm_compute; reflexivity.
Defined.
(** * Further properties of the code *)

(** ** The piece primitives *)

Lemma bit_None sq : forall w, bit sq w = None <-> ~ 0 <= sq < 64.
Proof.
  intros w. unfold bit. destruct (in_board sq) eqn:E.
  - apply in_board_iff in E. split; [discriminate|tauto].
  - split; [|reflexivity]. intros _ H. apply in_board_iff in H. congruence.
Qed.

Lemma prim_defined p sq b (n : Net) (prim : Piece -> Z -> M unit) :
  (prim = placePiece \/ prim = removePiece) ->
  lens (rep b) ->
  (prim p sq (b, n) = None <-> p = NonePiece \/ ~ 0 <= sq < 64).
Proof.
  intros Hprim Hl. split.
  - intros Hrun.
    destruct (Piece_eqb p NonePiece) eqn:Hp; [left; now apply Piece_eqb_eq|].
    apply Piece_eqb_neq in Hp.
    destruct (in_board sq) eqn:Hsq.
    + destruct Hprim as [-> | ->];
        [rewrite placePiece_run in Hrun by assumption
        |rewrite removePiece_run in Hrun by assumption]; discriminate.
    + right. intros H. apply in_board_iff in H. congruence.
  - intros [-> | Hsq].
    + destruct Hl as [Hl _]. simpl in Hl.
      destruct Hprim as [-> | ->];
        unfold placePiece, removePiece, piecesBB_get, bind, gets; simpl;
        rewrite lookup_ge_None_2 by (simpl; lia); reflexivity.
    + assert (Hb : in_board sq = false).
      { apply not_true_is_false. intros H. now apply in_board_iff in H. }
      destruct Hprim as [-> | ->];
        unfold placePiece, removePiece, bit, bind; rewrite Hb;
        now destruct (piecesBB_get p (b, n)) as [[? ?]|].
Qed.

(** X1: [placePiece] and [removePiece] are defined exactly on a piece
    other than [None] and a square of the board: with [None] they index
    the bitboard array past its end, with a square outside 0..63 they
    shift out of range and write past the mailbox. *)
Theorem primitives_defined_iff p sq b (n : Net) :
  wf_rep b = true ->
  (placePiece p sq (b, n) = None <-> p = NonePiece \/ ~ 0 <= sq < 64)
  /\ (removePiece p sq (b, n) = None <-> p = NonePiece \/ ~ 0 <= sq < 64).
Proof.
  intros Hwf. apply wf_rep_wf in Hwf. destruct Hwf as (Hl & _).
  split; apply prim_defined; auto.
Qed.

Lemma primitives_defined_iff_witness :
  (placePiece NonePiece 64 (startpos, []) = None <-> NonePiece = NonePiece \/ ~ 0 <= 64 < 64)
  /\ (removePiece NonePiece 64 (startpos, []) = None
      <-> NonePiece = NonePiece \/ ~ 0 <= 64 < 64).
Proof.
  apply (primitives_defined_iff NonePiece 64 startpos []). vm_compute. reflexivity.
Defined.

(** X2: [movePiece] is [removePiece] at the origin followed by
    [placePiece] at the destination, on every board and for every
    argument, the undefined cases included. *)
Theorem movePiece_is_remove_then_place p fromSq toSq w :
  movePiece p fromSq toSq w = (removePiece p fromSq ;;; placePiece p toSq) w.
Proof.
  destruct w as [b n]. destruct b as [bbs brd stm eps cr hmc fmn hk pk hh ph sh].
  unfold movePiece, removePiece, placePiece, piecesBB_get, piecesBB_put, board_put, bit,
    bind, gets, modify, ret, ub.
  simpl.
  repeat (rewrite ?length_insert;
          match goal with
          | |- context [match ?x with _ => _ end] =>
              match x with
              | context [match _ with _ => _ end] => fail 1
              | _ => destruct x eqn:?
              end
          | |- context [if ?x then _ else _] =>
              match x with
              | context [if _ then _ else _] => fail 1
              | _ => destruct x eqn:?
              end
          end; simpl);
  try reflexivity; try congruence;
  repeat match goal with H : Some _ = Some _ |- _ => injection H as <- end;
  reflexivity.
Qed.
(** X3: on a well-formed board, placing a piece on an empty square and
    removing it again, or removing the occupant of a square and placing it
    back, restores the bitboards and the mailbox exactly. *)
Theorem place_remove_roundtrip p sq b (n : Net) :
  wf_rep b = true -> p <> NonePiece -> 0 <= sq < 64 ->
  (at_sq (board b) sq = NonePiece ->
   (placePiece p sq ;;; removePiece p sq) (b, n) = Some (tt, (b, n)))
  /\ (at_sq (board b) sq = p ->
      (removePiece p sq ;;; placePiece p sq) (b, n) = Some (tt, (b, n))).
Proof.
  intros Hwf Hp Hsq. apply wf_rep_wf in Hwf. pose proof Hwf as (Hl & _).
  assert (Hin : in_board sq = true) by now apply in_board_iff.
  split; intros Hat.
  - erewrite bind_run by (now apply placePiece_run).
    rewrite removePiece_run; rewrite ?rep_with_rep; auto using lens_pl.
    now rewrite with_rep_with_rep, rm_pl_id, with_rep_rep.
  - erewrite bind_run by (now apply removePiece_run).
    rewrite placePiece_run; rewrite ?rep_with_rep; auto using lens_rm.
    now rewrite with_rep_with_rep, pl_rm_id, with_rep_rep.
Qed.

Lemma place_remove_roundtrip_witness :
  (at_sq (board startpos) 28 = NonePiece ->
   (placePiece WhitePawn 28 ;;; removePiece WhitePawn 28) (startpos, [])
   = Some (tt, (startpos, [])))
  /\ (at_sq (board startpos) 28 = WhitePawn ->
      (removePiece WhitePawn 28 ;;; placePiece WhitePawn 28) (startpos, [])
      = Some (tt, (startpos, []))).
Proof.
  apply (place_remove_roundtrip WhitePawn 28 startpos []).
  - vm_compute. reflexivity.
  - discriminate.
  - lia.
Defined.

(** X4: [placePiece] does not clear the previous occupant: placing a
    piece on a square that another piece occupies leaves the bit of the
    square set in two bitboards, so the bitboards and the mailbox no longer
    agree.  A capture has to remove the captured piece first. *)
Theorem placePiece_on_occupied p q sq b (n : Net) :
  wf_rep b = true -> p <> NonePiece -> q <> NonePiece -> p <> q -> 0 <= sq < 64 ->
  at_sq (board b) sq = q ->
  exists b',
    placePiece p sq (b, n) = Some (tt, (b', n))
    /\ at_sq (board b') sq = p
    /\ Z.testbit (bbv (piecesBB b') p) sq = true
    /\ Z.testbit (bbv (piecesBB b') q) sq = true
    /\ wf_rep b' = false.
Proof.
  intros Hwf Hp Hq Hpq Hsq Hat. apply wf_rep_wf in Hwf. pose proof Hwf as (Hl & _ & Hc).
  assert (Hin : in_board sq = true) by now apply in_board_iff.
  eexists. split; [now apply placePiece_run|].
  assert (H1 : at_sq (board (with_rep (pl p sq (rep b)) b)) sq = p).
  { change (board (with_rep (pl p sq (rep b)) b)) with (snd (pl p sq (rep b))).
    rewrite at_pl by assumption. now rewrite Z.eqb_refl. }
  assert (H2 : Z.testbit (bbv (piecesBB (with_rep (pl p sq (rep b)) b)) q) sq = true).
  { change (piecesBB (with_rep (pl p sq (rep b)) b)) with (fst (pl p sq (rep b))).
    rewrite bbv_pl by assumption.
    replace (Piece_eqb q p) with false
      by (symmetry; apply Piece_eqb_neq; congruence).
    now apply Hc. }
  split; [exact H1|]. split; [|split; [exact H2|]].
  - change (piecesBB (with_rep (pl p sq (rep b)) b)) with (fst (pl p sq (rep b))).
    rewrite bbv_pl, Piece_eqb_refl, testbit_set by (assumption || lia).
    rewrite Z.eqb_refl. apply orb_true_r.
  - apply not_true_is_false. intros Hwf'. apply wf_rep_wf in Hwf'.
    destruct Hwf' as (_ & _ & Hc'). apply Hc' in H2; [|assumption|assumption].
    cbn [snd rep] in H2. congruence.
Qed.

Lemma placePiece_on_occupied_witness :
  exists b',
    placePiece WhiteQueen 12 (startpos, []) = Some (tt, (b', []))
    /\ at_sq (board b') 12 = WhiteQueen
    /\ Z.testbit (bbv (piecesBB b') WhiteQueen) 12 = true
    /\ Z.testbit (bbv (piecesBB b') WhitePawn) 12 = true
    /\ wf_rep b' = false.
Proof.
  apply (placePiece_on_occupied WhiteQueen WhitePawn 12 startpos []);
    first [discriminate | lia | vm_compute; reflexivity].
Defined.

Lemma then_calls_when (m : M unit) (upd : bool) c w :
  bind m (fun _ => when upd (call c)) w
  = then_calls (m w) (fun _ => if upd then [c] else []).
Proof.
  unfold bind, then_calls. destruct (m w) as [[[] [b n]]|]; [|reflexivity].
  destruct upd; unfold when, call, ret; simpl; [reflexivity|now rewrite app_nil_r].
Qed.

Lemma bind_ext {A B} (m : M A) (k k' : A -> M B) w :
  (forall a w', k a w' = k' a w') -> bind m k w = bind m k' w.
Proof. intros H. unfold bind. destruct (m w) as [[a w']|]; auto. Qed.

Lemma then_calls_bind {A} (m : M A) (k : A -> M unit) cs w :
  then_calls (bind m k w) cs = bind m (fun a w' => then_calls (k a w') cs) w.
Proof. unfold bind. destruct (m w) as [[a w']|]; reflexivity. Qed.

(** X5: the templated primitives change the bitboards and the mailbox
    exactly as the plain ones do, fail exactly when they do, and then make
    one evaluator call when [updateNNUE] is set and none otherwise:
    an accumulator removal, an accumulator addition, and for [movePiece]
    either a refresh on the board after the move (a king crossing a bucket
    boundary or the mirror line) or an accumulator move. *)
Theorem templated_primitives T (upd : bool) p sq toSq kW kB w :
  removePieceT upd p sq kW kB w
  = then_calls (removePiece p sq w) (fun _ => calls_remove upd p sq kW kB)
  /\ placePieceT upd p sq kW kB w
     = then_calls (placePiece p sq w) (fun _ => calls_place upd p sq kW kB)
  /\ movePieceT T upd p sq toSq kW kB w
     = then_calls (movePiece p sq toSq w)
         (fun b' => calls_move T upd (sideToMove b') (rep b') p sq toSq kW kB).
Proof.
  split; [|split].
  - unfold removePieceT, removePiece, calls_remove.
    rewrite !then_calls_bind. apply bind_ext; intros bb w1.
    rewrite !then_calls_bind. apply bind_ext; intros m w2.
    rewrite !then_calls_bind. apply bind_ext; intros u w3.
    apply then_calls_when.
  - unfold placePieceT, placePiece, calls_place.
    rewrite !then_calls_bind. apply bind_ext; intros bb w1.
    rewrite !then_calls_bind. apply bind_ext; intros m w2.
    rewrite !then_calls_bind. apply bind_ext; intros u w3.
    apply then_calls_when.
  - unfold movePieceT, movePiece.
    rewrite !then_calls_bind. apply bind_ext; intros bb w1.
    rewrite !then_calls_bind. apply bind_ext; intros m w2.
    rewrite !then_calls_bind. apply bind_ext; intros u w3.
    rewrite !then_calls_bind. apply bind_ext; intros bb' w4.
    rewrite !then_calls_bind. apply bind_ext; intros m' w5.
    rewrite !then_calls_bind. apply bind_ext; intros u' w6.
    rewrite !then_calls_bind. apply bind_ext; intros u'' w7.
    unfold bind, then_calls. destruct (board_put toSq p w7) as [[[] [b n]]|]; [|reflexivity].
    unfold calls_move, when, refresh, bind, gets, call, ret. destruct upd; simpl.
    + now destruct (PieceType_eqb (type_of_piece p) KING
                    && bucket_crossing T (sideToMove b) sq toSq).
    + now rewrite app_nil_r.
Qed.
(** ** Rules for partial-correctness triples *)

Lemma ptriple_bind {A B} P Q R (m : M A) (k : A -> M B) :
  ptriple P m Q -> (forall a, ptriple Q (k a) R) -> ptriple P (bind m k) R.
Proof.
  intros Hm Hk w c w'' Hw Hrun. apply bind_inv in Hrun.
  destruct Hrun as (a & w' & Hm' & Hk'). eapply Hk; [|exact Hk']. eapply Hm; eauto.
Qed.

Lemma ptriple_pinv {A} I (m : M A) : pinv I m -> ptriple I m I.
Proof. intros H w a w' Hw Hrun. eapply H; eauto. Qed.

Lemma ptriple_modify (P Q : World -> Prop) f :
  (forall b n, P (b, n) -> Q (f b, n)) -> ptriple P (modify f) Q.
Proof.
  intros H [b n] a w' Hw Hrun. unfold modify in Hrun. simpl in Hrun.
  injection Hrun as _ <-. now apply H.
Qed.

Lemma ptriple_weaken {A} (P P' Q Q' : World -> Prop) (m : M A) :
  ptriple P' m Q' -> (forall w, P w -> P' w) -> (forall w, Q' w -> Q w) -> ptriple P m Q.
Proof. intros H HP HQ w a w' Hw Hrun. apply HQ. eapply H; eauto. Qed.

Lemma pinv_call (I : World -> Prop) c :
  (forall b n, I (b, n) -> I (b, n ++ [c])) -> pinv I (call c).
Proof.
  intros H [b n] a w' Hw Hrun. unfold call in Hrun. simpl in Hrun.
  injection Hrun as _ <-. now apply H.
Qed.

(** One step of a proof that a computation keeps an invariant which the
    setters in [solve_modify]'s reach do not disturb. *)
Ltac keep_step solve_modify solve_call :=
  cbv iota;
  first
    [ apply pinv_ret
    | apply pinv_ub
    | apply pinv_gets
    | apply pinv_when
    | apply pinv_modify; solve_modify
    | apply pinv_call; solve_call
    | apply pinv_bind; [|intros ?]
    | match goal with
      | |- pinv _ (if ?c then _ else _) => destruct c
      | |- pinv _ (match ?c with _ => _ end) => destruct c
      end ].

Ltac unfold_all :=
  unfold makeMove, unmakeMove, makeMove_pieces, makeMove_hashOut, makeMove_hashMove,
    removePieceT, placePieceT, movePieceT, removePiece, placePiece, movePiece, refresh,
    pop_stateHistory, pop_hashHistory, pop_pawnKeyHistory,
    updateKeyCastling, xor_hashKey, xor_pawnKey,
    removeCastlingRightsAll, removeCastlingRightsRook,
    colorOf, pieceAtB, board_get, board_put, piecesBB_get, piecesBB_put, bit;
  cbv zeta.

Section Evaluator.

Variable T : Tables.

(** The net only grows: whatever a computation of the move engine does,
    the calls made before it remain a prefix of the trace. *)
Lemma makeMove_push m (n0 : Net) :
  ptriple (fun w => snd w = n0) (makeMove T true m)
    (fun w => exists rest, snd w = (n0 ++ [nnue_push]) ++ rest).
Proof.
  unfold makeMove. cbv zeta.
  apply ptriple_bind with (Q := fun w => snd w = n0);
    [apply ptriple_pinv; unfold_all;
     repeat keep_step ltac:(intros ? ? H; exact H) ltac:(fail)|intros stm].
  apply ptriple_bind with (Q := fun w => snd w = n0);
    [apply ptriple_pinv; unfold_all;
     repeat keep_step ltac:(intros ? ? H; exact H) ltac:(fail)|intros capture].
  do 3 (apply ptriple_bind with (Q := fun w => snd w = n0);
        [apply ptriple_pinv; unfold_all;
         repeat keep_step ltac:(intros ? ? H; exact H) ltac:(fail)|intros _]).
  apply ptriple_bind with (Q := fun w => exists rest, snd w = (n0 ++ [nnue_push]) ++ rest).
  - intros [b n] a w' Hw Hrun. unfold when, call in Hrun. simpl in *.
    injection Hrun as _ <-. exists []. simpl. now rewrite Hw, app_nil_r.
  - intros _. apply ptriple_pinv. unfold_all.
    repeat keep_step ltac:(intros ? ? H; exact H)
                     ltac:(intros ? ? [rest Hr]; simpl in *; rewrite Hr, <- app_assoc; eauto).
Qed.

Lemma makeMove_silent m (n0 : Net) : pinv (fun w => snd w = n0) (makeMove T false m).
Proof.
  unfold_all. unfold when. cbn [andb].
  repeat keep_step ltac:(intros ? ? H; exact H) ltac:(fail).
Qed.

Lemma unmakeMove_tail_silent (n0 : Net) m restore :
  pinv (fun w => snd w = n0)
    (modify (set_enPassantSquare (enPassant restore)) ;;;
     modify (set_castlingRights (castling restore)) ;;;
     modify (set_halfMoveClock (halfMove restore)) ;;;
     let capture := capturedPiece restore in
     modify (fun b => set_fullMoveNumber (wrap (fullMoveNumber_bits T) (fullMoveNumber b - 1)) b) ;;;
     let from_sq := from m in
     let to_sq := to m in
     let promotion := promoted m in
     modify (fun b => set_sideToMove (flip (sideToMove b)) b) ;;;
     let pt := piece m in
     stm <- gets sideToMove ;;
     let p := makePiece pt stm in
     let isCastling :=
       (Piece_eqb p WhiteKing && Piece_eqb capture WhiteRook)
       || (Piece_eqb p BlackKing && Piece_eqb capture BlackRook) in
     let after (to_sq : Z) : M unit :=
       eps <- gets enPassantSquare ;;
       if (to_sq =? eps) && PieceType_eqb pt PAWN then
         let offset := match stm with White => -8 | Black => 8 end in
         placePiece (makePiece PAWN (flip stm)) (Square (eps + offset))
       else if negb (Piece_eqb capture NonePiece) && negb isCastling then
         placePiece capture to_sq
       else ret tt in
     if isCastling then
       let rookToSq := to_sq in
       let rook := match stm with White => WhiteRook | Black => BlackRook end in
       let rookFromSq := file_rank_square (if from_sq <? to_sq then FILE_F else FILE_D)
                           (square_rank from_sq) in
       let to_sq := file_rank_square (if from_sq <? to_sq then FILE_G else FILE_C)
                      (square_rank from_sq) in
       removePiece rook rookFromSq ;;;
       removePiece p to_sq ;;;
       placePiece p from_sq ;;;
       placePiece rook rookToSq ;;;
       after to_sq
     else if promotion then
       removePiece p to_sq ;;;
       placePiece (makePiece PAWN stm) from_sq ;;;
       when (negb (Piece_eqb capture NonePiece)) (placePiece capture to_sq)
     else
       movePiece p to_sq from_sq ;;;
       after to_sq).
Proof.
  unfold_all.
  repeat keep_step ltac:(intros ? ? H; exact H) ltac:(fail).
Qed.

End Evaluator.

(** X6: [makeMove<false>] never calls the evaluator, and the first
    call of [makeMove<true>] is [push]: whatever the position and the move,
    when [makeMove] returns the trace of evaluator calls is unchanged in
    the first case and extended by [push] and further calls in the second. *)
Theorem makeMove_evaluator_calls T (upd : bool) m b (n : Net) b' n' :
  makeMove T upd m (b, n) = Some (tt, (b', n')) ->
  if upd then exists rest, n' = n ++ nnue_push :: rest else n' = n.
Proof.
  intros Hrun. destruct upd.
  - destruct (makeMove_push T m n (b, n) tt (b', n') eq_refl Hrun) as [rest Hr].
    exists rest. simpl in Hr. now rewrite Hr, <- app_assoc.
  - now apply (makeMove_silent T m n (b, n) tt (b', n')).
Qed.

Lemma makeMove_evaluator_calls_witness :
  makeMove example_tables true e2e4 (startpos, []) = Some (tt, (e4_board, e4_net))
  /\ exists rest, e4_net = [] ++ nnue_push :: rest.
Proof.
  split; [vm_compute; reflexivity|].
  apply (makeMove_evaluator_calls example_tables true e2e4 startpos [] e4_board e4_net).
  vm_compute. reflexivity.
Defined.

(** X7: [unmakeMove<true>] makes exactly one evaluator call, [pull],
    and [unmakeMove<false>] makes none: the pieces are put back with the
    plain primitives, without accumulator updates. *)
Theorem unmakeMove_evaluator_calls T (upd : bool) m b (n : Net) b' n' :
  unmakeMove T upd m (b, n) = Some (tt, (b', n')) ->
  n' = n ++ (if upd then [nnue_pull] else []).
Proof.
  intros Hrun.
  assert (H : ptriple (fun w => snd w = n) (unmakeMove T upd m)
                (fun w => snd w = n ++ (if upd then [nnue_pull] else []))).
  { unfold unmakeMove.
    apply ptriple_bind with (Q := fun w => snd w = n);
      [apply ptriple_pinv; unfold_all;
       repeat keep_step ltac:(intros ? ? H; exact H) ltac:(fail)|intros restore].
    do 2 (apply ptriple_bind with (Q := fun w => snd w = n);
          [apply ptriple_pinv; unfold_all;
           repeat keep_step ltac:(intros ? ? H; exact H) ltac:(fail)|intros _]).
    apply ptriple_bind with (Q := fun w => snd w = n ++ (if upd then [nnue_pull] else [])).
    - intros [b0 n0] a w' Hw Hr. simpl in Hw. subst n0.
      destruct upd; unfold when, call, ret in Hr; simpl in Hr; injection Hr as _ <-;
        simpl; [reflexivity|now rewrite app_nil_r].
    - intros _. apply ptriple_pinv. apply unmakeMove_tail_silent. }
  exact (H (b, n) tt (b', n') eq_refl Hrun).
Qed.

Lemma unmakeMove_evaluator_calls_witness :
  unmakeMove example_tables true e2e4 (e4_board, e4_net)
  = Some (tt, (startpos, e4_net ++ [nnue_pull]))
  /\ e4_net ++ [nnue_pull] = e4_net ++ [nnue_pull].
Proof.
  split; [vm_compute; reflexivity|].
  apply (unmakeMove_evaluator_calls example_tables true e2e4 e4_board e4_net startpos
           (e4_net ++ [nnue_pull])).
  vm_compute. reflexivity.
Defined.
(** ** The scalars of the position after [makeMove] *)

Lemma final_state_scalars T m b bh :
  sideToMove (final_state T m b bh) = flip (sideToMove b)
  /\ enPassantSquare (final_state T m b bh) = enPassantSquare bh
  /\ castlingRights (final_state T m b bh) = castlingRights bh
  /\ halfMoveClock (final_state T m b bh) = halfMoveClock bh
  /\ fullMoveNumber (final_state T m b bh) = fullMoveNumber bh
  /\ hashKey (final_state T m b bh) = hashKey bh
  /\ hashHistory (final_state T m b bh) = hashHistory bh
  /\ pawnKeyHistory (final_state T m b bh) = pawnKeyHistory bh
  /\ stateHistory (final_state T m b bh) = stateHistory bh.
Proof. unfold final_state, with_rep. cbv zeta. norm_state. repeat split. Qed.



Section Clock.

Variable T : Tables.

Ltac keep := repeat keep_step ltac:(intros ? ? H; exact H) ltac:(fail).

Lemma clock_reset v0 c (k : M unit) :
  pinv (clock_is v0 true) k ->
  ptriple (clock_is v0 c) (modify (set_halfMoveClock 0) ;;; k) (clock_is v0 true).
Proof.
  intros Hk. apply ptriple_bind with (Q := clock_is v0 true).
  - apply ptriple_modify. reflexivity.
  - intros _. now apply ptriple_pinv.
Qed.

Lemma hashOut_clock v0 c eps : pinv (clock_is v0 c) (makeMove_hashOut T eps).
Proof. unfold_all. keep. Qed.

Lemma hashMove_clock v0 m stm capture ep isCastling :
  ptriple (clock_is v0 false) (makeMove_hashMove T m stm capture ep isCastling)
    (clock_is v0
       (PieceType_eqb (piece m) PAWN
        || (negb (Piece_eqb capture NonePiece) && negb isCastling)
        || promoted m)).
Proof.
  unfold makeMove_hashMove. cbv zeta.
  apply ptriple_bind with (Q := clock_is v0 false);
    [apply ptriple_pinv; unfold_all; keep|intros _].
  apply ptriple_bind with (Q := clock_is v0 (PieceType_eqb (piece m) PAWN)).
  { destruct (piece m); cbn [PieceType_eqb]; cbv iota;
      try (apply ptriple_pinv; unfold_all; keep).
    apply clock_reset. unfold_all. keep. }
  intros _.
  apply ptriple_bind
    with (Q := clock_is v0 (PieceType_eqb (piece m) PAWN
                            || (negb (Piece_eqb capture NonePiece) && negb isCastling))).
  { destruct (negb (Piece_eqb capture NonePiece) && negb isCastling); unfold when.
    - rewrite orb_true_r. apply clock_reset. unfold_all. keep.
    - rewrite orb_false_r. apply ptriple_pinv. keep. }
  intros _.
  apply ptriple_bind
    with (Q := clock_is v0 (PieceType_eqb (piece m) PAWN
                            || (negb (Piece_eqb capture NonePiece) && negb isCastling)
                            || promoted m)).
  { destruct (promoted m).
    - rewrite orb_true_r. apply clock_reset. unfold_all. keep.
    - rewrite orb_false_r. apply ptriple_pinv. unfold_all. keep. }
  intros _. apply ptriple_pinv. unfold_all. keep.
Qed.

Lemma hashOut_ep_none eps : ptriple (fun _ => True) (makeMove_hashOut T eps) ep_none.
Proof.
  unfold makeMove_hashOut.
  apply ptriple_bind with (Q := fun _ => True);
    [apply ptriple_pinv; unfold_all; keep|intros _].
  apply ptriple_bind with (Q := ep_none).
  - apply ptriple_modify. reflexivity.
  - intros _. apply ptriple_pinv. unfold_all. keep.
Qed.

Lemma hashMove_ep_none m stm capture ep isCastling :
  PieceType_eqb (piece m) PAWN && negb ep && (Z.abs (from m - to m) =? 16) = false ->
  pinv ep_none (makeMove_hashMove T m stm capture ep isCastling).
Proof.
  intros Hcond. unfold makeMove_hashMove. cbv zeta.
  destruct (PieceType_eqb (piece m) PAWN) eqn:Hp, ep,
    (Z.abs (from m - to m) =? 16) eqn:Ha; try discriminate Hcond;
    unfold_all; keep.
Qed.

End Clock.

(** X9: the half-move clock after [makeMove] of a contractual move is 0
    when the move is a pawn move, a promotion, or lands on an occupied
    square without being a castling move, and the clock before the move
    plus one otherwise; a castling move, although it is encoded as the king
    taking its own rook, does not reset the clock. *)
Theorem makeMove_halfMoveClock T (upd : bool) m b (n : Net) :
  wf_rep b = true -> move_contract b m = true ->
  exists b' n',
    makeMove T upd m (b, n) = Some (tt, (b', n'))
    /\ halfMoveClock b'
       = if resets_clock b m then 0
         else wrap (halfMoveClock_bits T) (halfMoveClock b + 1).
Proof.
  intros Hwf Hc. apply wf_rep_wf in Hwf.
  destruct (contract_common b m Hc) as (Hf & Ht & _ & Hpt & _).
  destruct (makeMove_run T upd m b n (proj1 Hwf) Hf Ht Hpt) as (bh & Hhash & _ & Hrun).
  cbv zeta in Hhash.
  eexists _, _. split; [exact Hrun|].
  destruct (final_state_scalars T m b bh) as (_ & _ & _ & -> & _).
  apply bind_inv in Hhash. destruct Hhash as (u & w1 & Hout & Hmove).
  assert (H0 : clock_is (wrap (halfMoveClock_bits T) (halfMoveClock b + 1)) false
                 (header_state T (at_sq (board b) (to m)) b,
                  n ++ (if upd then [nnue_push] else []))).
  { unfold clock_is, header_state. destruct b. reflexivity. }
  pose proof (hashOut_clock T _ _ _ _ _ _ H0 Hout) as H1.
  exact (hashMove_clock T _ _ _ _ _ _ _ _ _ H1 Hmove).
Qed.

Lemma makeMove_halfMoveClock_witness :
  exists b' n',
    makeMove example_tables true e1h1 (castle_board, []) = Some (tt, (b', n'))
    /\ halfMoveClock b'
       = if resets_clock castle_board e1h1 then 0
         else wrap (halfMoveClock_bits example_tables) (halfMoveClock castle_board + 1).
Proof.
  apply (makeMove_halfMoveClock example_tables true e1h1 castle_board []);
    vm_compute; reflexivity.
Defined.

(** X10: [makeMove] clears the en-passant square on every contractual
    move that is not a two-square pawn advance: the square is set only in
    the branch of a pawn move that does not land on the en-passant square
    and whose origin and destination are sixteen squares apart. *)
Theorem makeMove_clears_enPassant T (upd : bool) m b (n : Net) :
  wf_rep b = true -> move_contract b m = true -> code_double_push b m = false ->
  exists b' n',
    makeMove T upd m (b, n) = Some (tt, (b', n'))
    /\ enPassantSquare b' = NO_SQ.
Proof.
  intros Hwf Hc Hd. apply wf_rep_wf in Hwf.
  destruct (contract_common b m Hc) as (Hf & Ht & _ & Hpt & _).
  destruct (makeMove_run T upd m b n (proj1 Hwf) Hf Ht Hpt) as (bh & Hhash & _ & Hrun).
  cbv zeta in Hhash.
  eexists _, _. split; [exact Hrun|].
  destruct (final_state_scalars T m b bh) as (_ & -> & _).
  apply bind_inv in Hhash. destruct Hhash as (u & w1 & Hout & Hmove).
  pose proof (hashOut_ep_none T _ _ _ _ I Hout) as H1.
  exact (hashMove_ep_none T _ _ _ _ _ Hd _ _ _ H1 Hmove).
Qed.

Lemma makeMove_clears_enPassant_witness :
  exists b' n',
    makeMove example_tables true e5d6 (ep_board, []) = Some (tt, (b', n'))
    /\ enPassantSquare b' = NO_SQ.
Proof.
  apply (makeMove_clears_enPassant example_tables true e5d6 ep_board []);
    vm_compute; reflexivity.
Defined.
(** ** The mailbox after [makeMove] *)

Lemma board_of_rep b r : rep b = r -> board b = snd r.
Proof. now intros <-. Qed.

(** X11: after [makeMove] of a contractual move that is neither a
    castling move nor an en-passant capture, the destination square holds
    the piece named by the move in the colour of the mover (for a promotion
    the piece promoted to), the origin square is empty, every other square
    is as before, and the bitboards agree with the mailbox again; a piece
    that stood on the destination is gone. *)
Theorem makeMove_ordinary_board T (upd : bool) m b (n : Net) :
  wf_rep b = true -> move_contract b m = true ->
  is_castling b m = false -> is_enPassant b m = false ->
  exists b' n',
    makeMove T upd m (b, n) = Some (tt, (b', n'))
    /\ wf_rep b' = true
    /\ forall sq, 0 <= sq < 64 ->
         at_sq (board b') sq
         = if sq =? to m then makePiece (piece m) (sideToMove b)
           else if sq =? from m then NonePiece
           else at_sq (board b) sq.
Proof.
  intros Hwf Hc HnC HnE. apply wf_rep_wf in Hwf.
  destruct (contract_common b m Hc) as (Hf & Ht & Hne & Hpt & _).
  destruct (make_unmake T upd upd m b n n Hwf Hc) as (b' & Hrun & Hwf' & Hrep & _).
  eexists _, _. split; [exact Hrun|]. split; [now apply wf_wf_rep|].
  intros sq Hsq. rewrite (board_of_rep _ _ Hrep).
  assert (HisC : code_isCastling b m = false).
  { destruct (contract_cases b m Hc) as [(_ & _ & Hnk & _)|(_ & Hfrom & _)].
    - now apply code_isCastling_not_king.
    - now rewrite (code_isCastling_spec b m Hfrom). }
  unfold is_enPassant in HnE.
  unfold pieces_rep, pieces_rep1. cbv zeta. rewrite HisC, HnE. cbn [negb andb].
  rewrite andb_true_r.
  destruct (step_capture (rep b) (at_sq (board b) (to m)) (to m) Hwf Ht eq_refl)
    as (Hwf1 & Hat1 & _).
  cbv zeta in Hwf1, Hat1.
  set (r1 := if negb (Piece_eqb (at_sq (board b) (to m)) NonePiece)
             then rm (at_sq (board b) (to m)) (to m) (rep b) else rep b) in *.
  destruct (promoted m); at_simpl; rewrite Hat1;
    destruct (sq =? to m) eqn:E1; try reflexivity;
    destruct (sq =? from m) eqn:E2; reflexivity.
Qed.

Lemma makeMove_ordinary_board_witness :
  exists b' n',
    makeMove example_tables true a7a8q (promo_board, []) = Some (tt, (b', n'))
    /\ wf_rep b' = true
    /\ forall sq, 0 <= sq < 64 ->
         at_sq (board b') sq
         = if sq =? to a7a8q then makePiece (piece a7a8q) (sideToMove promo_board)
           else if sq =? from a7a8q then NonePiece
           else at_sq (board promo_board) sq.
Proof.
  apply (makeMove_ordinary_board example_tables true a7a8q promo_board []);
    vm_compute; reflexivity.
Defined.

(** X12: after [makeMove] of an en-passant capture the capturing pawn
    stands on the en-passant square, its origin square and the square
    behind the en-passant square, where the captured pawn stood, are empty,
    and every other square is as before. *)
Theorem makeMove_enPassant_board T (upd : bool) m b (n : Net) :
  wf_rep b = true -> move_contract b m = true -> is_enPassant b m = true ->
  exists b' n',
    makeMove T upd m (b, n) = Some (tt, (b', n'))
    /\ wf_rep b' = true
    /\ forall sq, 0 <= sq < 64 ->
         at_sq (board b') sq
         = if sq =? to m then makePiece PAWN (sideToMove b)
           else if (sq =? from m) || (sq =? Z.lxor (to m) 8) then NonePiece
           else at_sq (board b) sq.
Proof.
  intros Hwf Hc HE. apply wf_rep_wf in Hwf.
  destruct (contract_common b m Hc) as (Hf & Ht & Hne & Hpt & _).
  destruct (make_unmake T upd upd m b n n Hwf Hc) as (b' & Hrun & Hwf' & Hrep & _).
  eexists _, _. split; [exact Hrun|]. split; [now apply wf_wf_rep|].
  intros sq Hsq. rewrite (board_of_rep _ _ Hrep).
  pose proof HE as HE'. unfold is_enPassant in HE'. apply andb_true_iff in HE'.
  destruct HE' as [Hp Heq]. apply PieceType_eqb_eq in Hp.
  assert (Hpr : promoted m = false).
  { destruct (contract_cases b m Hc) as [(_ & Hnp & _)|(Hpr & _)]; congruence. }
  destruct (xor8_square (to m) Ht) as (Hx & Hxr & _).
  unfold pieces_rep, pieces_rep1. cbv zeta.
  rewrite (code_isCastling_not_king b m) by congruence.
  rewrite Hp, Heq, Hpr, Hx. cbn [PieceType_eqb andb negb].
  destruct Hwf as (Hl & _).
  at_simpl. change (snd (rep b)) with (board b).
  destruct (sq =? to m) eqn:E1; [reflexivity|].
  destruct (sq =? from m) eqn:E2; [reflexivity|].
  cbn [orb]. reflexivity.
Qed.

Lemma makeMove_enPassant_board_witness :
  exists b' n',
    makeMove example_tables true e5d6 (ep_board, []) = Some (tt, (b', n'))
    /\ wf_rep b' = true
    /\ forall sq, 0 <= sq < 64 ->
         at_sq (board b') sq
         = if sq =? to e5d6 then makePiece PAWN (sideToMove ep_board)
           else if (sq =? from e5d6) || (sq =? Z.lxor (to e5d6) 8) then NonePiece
           else at_sq (board ep_board) sq.
Proof.
  apply (makeMove_enPassant_board example_tables true e5d6 ep_board []);
    vm_compute; reflexivity.
Defined.

(** X13: after [makeMove] of a castling move of either side and either
    wing (the king taking its own rook), the rook stands on the f- or
    d-file and the king on the g- or c-file of the king's rank, the squares
    the two pieces came from are empty unless one of them is a square just
    filled, and every other square is as before. *)
Theorem makeMove_castling_board T (upd : bool) m b (n : Net) :
  wf_rep b = true -> move_contract b m = true -> is_castling b m = true ->
  exists b' n',
    makeMove T upd m (b, n) = Some (tt, (b', n'))
    /\ wf_rep b' = true
    /\ forall sq, 0 <= sq < 64 ->
         at_sq (board b') sq
         = if sq =? castle_rookTo m then own_rook (sideToMove b)
           else if sq =? castle_kingTo m then makePiece KING (sideToMove b)
           else if (sq =? from m) || (sq =? to m) then NonePiece
           else at_sq (board b) sq.
Proof.
  intros Hwf Hc HC. apply wf_rep_wf in Hwf.
  destruct (contract_common b m Hc) as (Hf & Ht & Hne & Hpt & _).
  destruct (make_unmake T upd upd m b n n Hwf Hc) as (b' & Hrun & Hwf' & Hrep & _).
  eexists _, _. split; [exact Hrun|]. split; [now apply wf_wf_rep|].
  intros sq Hsq. rewrite (board_of_rep _ _ Hrep).
  assert (Hk : piece m = KING).
  { destruct (PieceType_eqb (piece m) KING) eqn:E; [now apply PieceType_eqb_eq|].
    rewrite is_castling_not_king in HC; [discriminate|].
    intros Hk. rewrite Hk in E. discriminate. }
  assert (Hcase : promoted m = false
                  /\ at_sq (board b) (from m) = makePiece (piece m) (sideToMove b)).
  { destruct (contract_cases b m Hc) as [(_ & _ & Hnk & _)|(Hpr & Hfrom & _)];
      [congruence|auto]. }
  destruct Hcase as (Hpr & Hfrom).
  pose proof (castle_kingTo_in m Hf) as HkT.
  pose proof (castle_rookTo_in m Hf) as HrT.
  unfold pieces_rep, pieces_rep1. cbv zeta.
  rewrite (code_isCastling_spec b m Hfrom), HC, Hpr, Hk. cbn [negb].
  destruct Hwf as (Hl & _).
  at_simpl. change (snd (rep b)) with (board b).
  destruct (sq =? castle_rookTo m); [reflexivity|].
  destruct (sq =? castle_kingTo m); [reflexivity|].
  destruct (sq =? to m) eqn:E1; [now rewrite orb_true_r|].
  destruct (sq =? from m) eqn:E2; reflexivity.
Qed.

Lemma makeMove_castling_board_witness :
  exists b' n',
    makeMove example_tables true e1h1 (castle_board, []) = Some (tt, (b', n'))
    /\ wf_rep b' = true
    /\ forall sq, 0 <= sq < 64 ->
         at_sq (board b') sq
         = if sq =? castle_rookTo e1h1 then own_rook (sideToMove castle_board)
           else if sq =? castle_kingTo e1h1 then makePiece KING (sideToMove castle_board)
           else if (sq =? from e1h1) || (sq =? to e1h1) then NonePiece
           else at_sq (board castle_board) sq.
Proof.
  apply (makeMove_castling_board example_tables true e1h1 castle_board []);
    vm_compute; reflexivity.
Defined.
(** ** The pawn key *)

Lemma pawn_contribution_makePiece T pt c sq :
  pawn_contribution T (makePiece pt c) sq
  = if PieceType_eqb pt PAWN then updateKeyPiece T (makePiece pt c) sq else 0.
Proof. destruct pt, c; reflexivity. Qed.

Lemma capture_contribution T c sq pk :
  (if Piece_eqb c WhitePawn || Piece_eqb c BlackPawn
   then Z.lxor pk (updateKeyPiece T c sq) else pk)
  = Z.lxor pk (pawn_contribution T c sq).
Proof. destruct c; cbn; now rewrite ?Z.lxor_0_r. Qed.

Lemma pawn_contribution_own_rook T c sq : pawn_contribution T (own_rook c) sq = 0.
Proof. now destruct c. Qed.

Section PawnKeyMoves.

Variable T : Tables.

Ltac keep := repeat keep_step ltac:(intros ? ? H; exact H) ltac:(fail).

Lemma hashMove_pawnKey_moved pk m stm capture ep isCastling :
  promoted m = false ->
  ptriple (fun w => pawnKey (fst w) = pk)
    (makeMove_hashMove T m stm capture ep isCastling)
    (fun w => pawnKey (fst w)
              = Z.lxor (Z.lxor pk (pawn_contribution T (makePiece (piece m) stm) (from m)))
                  (pawn_contribution T (makePiece (piece m) stm) (to m))).
Proof.
  intros Hpr. unfold makeMove_hashMove. cbv zeta. rewrite Hpr.
  do 3 (apply ptriple_bind with (Q := fun w => pawnKey (fst w) = pk);
        [apply ptriple_pinv; unfold_all; keep|intros _]).
  apply ptriple_bind
    with (Q := fun w => pawnKey (fst w)
              = Z.lxor (Z.lxor pk (pawn_contribution T (makePiece (piece m) stm) (from m)))
                  (pawn_contribution T (makePiece (piece m) stm) (to m))).
  - rewrite !pawn_contribution_makePiece.
    do 2 (apply ptriple_bind with (Q := fun w => pawnKey (fst w) = pk);
          [apply ptriple_pinv; unfold_all; keep|intros _]).
    destruct (PieceType_eqb (piece m) PAWN); unfold when, xor_pawnKey.
    + apply ptriple_bind
        with (Q := fun w => pawnKey (fst w)
                            = Z.lxor pk (updateKeyPiece T (makePiece (piece m) stm) (from m))).
      * apply ptriple_modify. intros b n Hb. simpl in *. now rewrite Hb.
      * intros _. apply ptriple_modify. intros b n Hb. simpl in *. now rewrite Hb.
    + intros w a w' Hw Hr. unfold ret in Hr. injection Hr as _ <-.
      now rewrite !Z.lxor_0_r.
  - intros _. apply ptriple_pinv. unfold_all. keep.
Qed.

Lemma hash_pawnKey_moved m b (n : Net) capture ep isCastling bh :
  promoted m = false ->
  bind (makeMove_hashOut T (enPassantSquare b))
    (fun _ => makeMove_hashMove T m (sideToMove b) capture ep isCastling)
    (header_state T capture b, n) = Some (tt, (bh, n)) ->
  pawnKey bh
  = Z.lxor (Z.lxor (pawnKey b)
              (pawn_contribution T (makePiece (piece m) (sideToMove b)) (from m)))
      (pawn_contribution T (makePiece (piece m) (sideToMove b)) (to m)).
Proof.
  intros Hpr Hrun. apply bind_inv in Hrun. destruct Hrun as (u & w1 & Hout & Hmove).
  assert (H1 : pawnKey (fst w1) = pawnKey b).
  { destruct (hashOut_pawnKey T (pawnKey b) (enPassantSquare b)
                (header_state T capture b, n)) as (a & w' & Hrun' & Hpk).
    - unfold header_state. destruct b. reflexivity.
    - rewrite Hout in Hrun'. injection Hrun' as _ <-. exact Hpk. }
  exact (hashMove_pawnKey_moved _ _ _ _ _ _ Hpr _ _ _ H1 Hmove).
Qed.

Lemma pawnKey_of_castled b K R f t kT rT :
  wf (rep b) -> 0 <= f < 64 -> 0 <= t < 64 -> 0 <= kT < 64 -> 0 <= rT < 64 ->
  f <> t -> kT <> rT ->
  pawn_contribution T K f = 0 -> pawn_contribution T K kT = 0 ->
  pawn_contribution T R t = 0 -> pawn_contribution T R rT = 0 ->
  at_sq (board b) f = K -> at_sq (board b) t = R ->
  (kT = f \/ kT = t \/ at_sq (board b) kT = NonePiece) ->
  (rT = f \/ rT = t \/ at_sq (board b) rT = NonePiece) ->
  fold_squares (pawn_contribution T)
    (snd (pl R rT (pl K kT (rm R t (rm K f (rep b)))))) 0
  = pawnKey_of T b.
Proof.
  intros (Hl & _) Hf Ht HkT HrT Hft Hkr HK1 HK2 HR1 HR2 HatK HatR HfreeK HfreeR.
  pose proof (lens_rm K f _ Hl) as Hl1.
  pose proof (lens_rm R t _ Hl1) as Hl2.
  pose proof (lens_pl K kT _ Hl2) as Hl3.
  rewrite fold_pl, fold_pl, fold_rm, fold_rm by assumption.
  rewrite !at_pl, !at_rm by assumption.
  change (snd (rep b)) with (board b).
  replace (rT =? kT) with false by lia.
  replace (t =? f) with false by lia.
  rewrite HatK, HatR, HK1, HK2, HR1, HR2.
  assert (H1 : pawn_contribution T
                 (if rT =? t then NonePiece
                  else if rT =? f then NonePiece else at_sq (board b) rT) rT = 0).
  { destruct (Z.eqb_spec rT t); [apply pawn_contribution_None|].
    destruct (Z.eqb_spec rT f); [apply pawn_contribution_None|].
    destruct HfreeR as [Hx|[Hx|Hx]]; [lia|lia|rewrite Hx; apply pawn_contribution_None]. }
  assert (H2 : pawn_contribution T
                 (if kT =? t then NonePiece
                  else if kT =? f then NonePiece else at_sq (board b) kT) kT = 0).
  { destruct (Z.eqb_spec kT t); [apply pawn_contribution_None|].
    destruct (Z.eqb_spec kT f); [apply pawn_contribution_None|].
    destruct HfreeK as [Hx|[Hx|Hx]]; [lia|lia|rewrite Hx; apply pawn_contribution_None]. }
  rewrite H1, H2, !pawn_contribution_None. unfold pawnKey_of.
  now rewrite !Z.lxor_0_r.
Qed.

Lemma pawnKey_of_moved b c p p0 f t :
  wf (rep b) -> 0 <= f < 64 -> 0 <= t < 64 -> f <> t ->
  at_sq (board b) f = p0 -> at_sq (board b) t = c ->
  fold_squares (pawn_contribution T)
    (snd (pl p t (rm p0 f (if negb (Piece_eqb c NonePiece) then rm c t (rep b) else rep b))))
    0
  = Z.lxor
      (Z.lxor (Z.lxor (pawnKey_of T b) (pawn_contribution T c t))
         (pawn_contribution T p0 f))
      (pawn_contribution T p t).
Proof.
  intros Hwf Hf Ht Hft Hp0 Hc.
  destruct (step_capture (rep b) c t Hwf Ht Hc) as ((Hl1 & _) & Hat1 & _).
  cbv zeta in Hl1, Hat1.
  set (r1 := if negb (Piece_eqb c NonePiece) then rm c t (rep b) else rep b) in *.
  assert (Hfold : fold_squares (pawn_contribution T) (snd r1) 0
                  = Z.lxor (pawnKey_of T b) (pawn_contribution T c t)).
  { unfold r1. destruct (Piece_eqb c NonePiece) eqn:E; cbn [negb].
    - apply Piece_eqb_eq in E. rewrite E, pawn_contribution_None.
      unfold pawnKey_of. now rewrite Z.lxor_0_r.
    - rewrite fold_rm by (apply Hwf || assumption).
      change (snd (rep b)) with (board b).
      rewrite Hc, pawn_contribution_None. unfold pawnKey_of. now rewrite Z.lxor_0_r. }
  pose proof (lens_rm p0 f _ Hl1) as Hl2.
  rewrite fold_pl, fold_rm by assumption.
  rewrite at_rm by assumption. rewrite !Hat1.
  replace (t =? f) with false by lia.
  replace (f =? t) with false by lia.
  rewrite Z.eqb_refl. change (snd (rep b)) with (board b).
  rewrite Hp0, Hfold, !pawn_contribution_None. now rewrite !Z.lxor_0_r.
Qed.

End PawnKeyMoves.

(** X14: [makeMove] keeps the pawn key for every contractual move that
    is neither a promotion nor an en-passant capture: if [pawnKey] is the
    xor of the constants of the pawns on the board before the move, as the
    loader computes it, it is so after the move, whether the move is quiet,
    a capture (of a pawn or of a piece), a pawn move or a castling move. *)
Theorem makeMove_keeps_pawnKey T (upd : bool) m b (n : Net) :
  wf_rep b = true -> move_contract b m = true ->
  promoted m = false -> is_enPassant b m = false ->
  pawnKey b = pawnKey_of T b ->
  exists b' n',
    makeMove T upd m (b, n) = Some (tt, (b', n'))
    /\ pawnKey b' = pawnKey_of T b'.
Proof.
  intros Hwf Hc Hpr HnE Hpk. apply wf_rep_wf in Hwf.
  destruct (contract_common b m Hc) as (Hf & Ht & Hne & Hpt & _).
  destruct (makeMove_run T upd m b n (proj1 Hwf) Hf Ht Hpt) as (bh & Hhash & _ & Hrun).
  cbv zeta in Hhash. apply hash_pawnKey_moved in Hhash; [|assumption].
  eexists _, _. split; [exact Hrun|].
  unfold pawnKey_of, final_state, with_rep. cbv zeta. norm_state.
  unfold is_enPassant in HnE.
  destruct (contract_cases b m Hc) as [(Hpr' & _)|(_ & Hfrom & Hk)]; [congruence|].
  rewrite (code_isCastling_spec b m Hfrom) in *.
  unfold pieces_pawnKey, pieces_rep, pieces_rep1. cbv zeta. rewrite HnE, Hpr.
  destruct Hk as [(Hking & Hrook & HfK & HfR)|[(_ & Hp & Heq & _)|(HnC & _)]].
  - assert (HC : is_castling b m = true).
    { unfold is_castling. rewrite Hking, Hrook. cbn [PieceType_eqb andb].
      destruct (sideToMove b); reflexivity. }
    rewrite HC. cbn [negb]. rewrite Hhash, Hking in *.
    rewrite !pawn_contribution_makePiece. cbn [PieceType_eqb].
    rewrite !Z.lxor_0_r, Hpk. symmetry.
    apply pawnKey_of_castled; auto using castle_kingTo_in, castle_rookTo_in,
      castle_squares_differ, pawn_contribution_own_rook, free_or_vacated_at.
    + apply pawn_contribution_makePiece.
    + apply pawn_contribution_makePiece.
  - rewrite Hp, <- Heq, Z.eqb_refl in HnE. discriminate.
  - rewrite HnC. cbn [negb]. rewrite andb_true_r.
    rewrite (pawnKey_of_moved T b (at_sq (board b) (to m))) by auto.
    rewrite Hhash, Hpk.
    destruct (Piece_eqb (at_sq (board b) (to m)) NonePiece) eqn:E; cbn [negb].
    + apply Piece_eqb_eq in E. rewrite E, pawn_contribution_None. xor_bits.
    + rewrite capture_contribution. xor_bits.
Qed.

Lemma makeMove_keeps_pawnKey_witness :
  exists b' n',
    makeMove example_tables true e2e4 (startpos, []) = Some (tt, (b', n'))
    /\ pawnKey b' = pawnKey_of example_tables b'.
Proof.
  apply (makeMove_keeps_pawnKey example_tables true e2e4 startpos []);
    vm_compute; reflexivity.
Defined.

(** X15: a promotion applied by [makeMove] leaves [pawnKey] as it was
    when the destination holds no pawn: the promoting pawn is not xored out
    at its origin square, because the two xors of the promotion branch are
    guarded by [pt == PAWN] while [pt] is the type promoted to.  The key
    therefore differs from the old key with the pawn xored out whenever the
    constant of that pawn is not zero. *)
Theorem promotion_leaves_pawnKey T (upd : bool) m b (n : Net) :
  wf_rep b = true -> move_contract b m = true ->
  promoted m = true -> captures_pawn b m = false ->
  updateKeyPiece T (makePiece PAWN (sideToMove b)) (from m) <> 0 ->
  exists b' n',
    makeMove T upd m (b, n) = Some (tt, (b', n'))
    /\ pawnKey b' = pawnKey b
    /\ pawnKey b'
       <> Z.lxor (pawnKey b) (updateKeyPiece T (makePiece PAWN (sideToMove b)) (from m)).
Proof.
  intros Hwf Hc Hpr Hcap Hkey. apply wf_rep_wf in Hwf.
  destruct (contract_common b m Hc) as (Hf & Ht & Hne & Hpt & _).
  destruct (contract_cases b m Hc) as [(_ & Hnp & Hnk & Hfrom)|(Hpr' & _)];
    [|congruence].
  destruct (makeMove_run T upd m b n (proj1 Hwf) Hf Ht Hpt) as (bh & Hhash & _ & Hrun).
  cbv zeta in Hhash. apply hash_not_pawn in Hhash; [|assumption].
  assert (Hpk : pawnKey (final_state T m b bh) = pawnKey b).
  { unfold final_state, with_rep. cbv zeta. norm_state.
    unfold pieces_pawnKey. rewrite (code_isCastling_not_king b m Hnk).
    apply PieceType_eqb_neq in Hnp. rewrite Hnp. cbn [andb negb].
    unfold captures_pawn in Hcap. rewrite Hcap, Hhash.
    now destruct (negb (Piece_eqb (at_sq (board b) (to m)) NonePiece) && true). }
  eexists _, _. split; [exact Hrun|]. split; [exact Hpk|].
  rewrite Hpk. intros Heq. symmetry in Heq. now apply lxor_fixed in Heq.
Qed.

Lemma promotion_leaves_pawnKey_witness :
  exists b' n',
    makeMove example_tables true a7a8q (promo_board, []) = Some (tt, (b', n'))
    /\ pawnKey b' = pawnKey promo_board
    /\ pawnKey b'
       <> Z.lxor (pawnKey promo_board)
            (updateKeyPiece example_tables (makePiece PAWN (sideToMove promo_board))
               (from a7a8q)).
Proof.
  apply (promotion_leaves_pawnKey example_tables true a7a8q promo_board []);
    vm_compute; (reflexivity || discriminate).
Defined.

(** X16: after a promotion or an en-passant capture [pawnKey] is no
    longer the xor of the constants of the pawns on the board.  From a
    well-formed position whose [pawnKey] is that xor, a promotion onto a
    square without a pawn keeps the constant of the pawn that has left the
    board, and an en-passant capture keeps the constant of the captured
    pawn, which is removed from the board but never xored out (lines
    247-251, against lines 255-257 for an ordinary capture). *)
Theorem pawnKey_stale_after_promotion_or_enPassant T (upd : bool) m b (n : Net) :
  wf_rep b = true -> move_contract b m = true ->
  pawnKey b = pawnKey_of T b ->
  (promoted m = true /\ captures_pawn b m = false
   /\ updateKeyPiece T (makePiece PAWN (sideToMove b)) (from m) <> 0)
  \/ (is_enPassant b m = true
      /\ updateKeyPiece T (makePiece PAWN (flip (sideToMove b))) (Z.lxor (to m) 8) <> 0) ->
  exists b' n',
    makeMove T upd m (b, n) = Some (tt, (b', n'))
    /\ wf_rep b' = true
    /\ pawnKey b' <> pawnKey_of T b'.
Proof.
  intros Hwf Hc Hpk Hcase. apply wf_rep_wf in Hwf.
  destruct (contract_common b m Hc) as (Hf & Ht & Hne & Hpt & _).
  destruct (make_unmake T upd upd m b n n Hwf Hc) as (b0 & Hrun0 & Hwf' & Hrep & _).
  destruct (makeMove_run T upd m b n (proj1 Hwf) Hf Ht Hpt) as (bh & Hhash & _ & Hrun).
  rewrite Hrun in Hrun0. injection Hrun0 as Hb0. subst b0.
  cbv zeta in Hhash.
  eexists _, _. split; [exact Hrun|]. split; [now apply wf_wf_rep|].
  unfold pawnKey_of. rewrite (board_of_rep _ _ Hrep).
  unfold final_state, with_rep. cbv zeta. norm_state.
  destruct Hcase as [(Hpr & Hcap & Hkey)|(HE & Hkey)].
  - destruct (contract_cases b m Hc) as [(_ & Hnp & Hnk & Hfrom)|(Hpr' & _)];
      [|congruence].
    apply hash_not_pawn in Hhash; [|assumption].
    unfold pieces_pawnKey, pieces_rep, pieces_rep1. cbv zeta.
    rewrite (code_isCastling_not_king b m Hnk), Hpr.
    rewrite (PieceType_eqb_neq _ _ Hnp). cbn [andb negb]. rewrite andb_true_r.
    unfold captures_pawn in Hcap. rewrite Hcap.
    rewrite (pawnKey_of_moved T b (at_sq (board b) (to m))) by auto.
    rewrite pawn_contribution_pawn, pawn_contribution_makePiece.
    rewrite (PieceType_eqb_neq _ _ Hnp).
    assert (Hc0 : pawn_contribution T (at_sq (board b) (to m)) (to m) = 0).
    { destruct (at_sq (board b) (to m)); try reflexivity; discriminate Hcap. }
    rewrite Hc0, !Z.lxor_0_r, Hhash, Hpk.
    destruct (negb (Piece_eqb (at_sq (board b) (to m)) NonePiece));
      intros Heq; symmetry in Heq; now apply lxor_fixed in Heq.
  - unfold is_enPassant in HE. apply andb_true_iff in HE. destruct HE as [Hp Heq].
    apply PieceType_eqb_eq in Hp.
    assert (Hcase : promoted m = false
                    /\ at_sq (board b) (from m) = makePiece PAWN (sideToMove b)
                    /\ at_sq (board b) (to m) = NonePiece
                    /\ at_sq (board b) (Z.lxor (to m) 8)
                       = makePiece PAWN (flip (sideToMove b))).
    { destruct (contract_cases b m Hc) as [(_ & Hnp & _)|(Hpr & Hfrom & Hk)];
        [congruence|].
      rewrite Hp in Hfrom.
      destruct Hk as [(Hking & _)|[(_ & _ & _ & Hto & Hx & _)|(_ & Hnep)]].
      - congruence.
      - auto.
      - unfold is_enPassant in Hnep. rewrite Hp, Heq in Hnep. discriminate. }
    destruct Hcase as (Hpr & Hfrom & Hto & Hx).
    rewrite Hto, Heq, (code_isCastling_not_king b m) in * by congruence.
    apply hash_enPassant in Hhash; [|assumption|assumption].
    unfold pieces_pawnKey, pieces_rep, pieces_rep1. cbv zeta.
    rewrite Hp, Hpr. cbn [PieceType_eqb andb negb].
    destruct (xor8_square (to m) Ht) as (-> & _).
    rewrite pawnKey_of_enPassant by assumption.
    rewrite Hhash, Hpk. intros Heq'. apply lxor_extra in Heq'. now apply Hkey.
Qed.

Lemma pawnKey_stale_after_promotion_or_enPassant_witness :
  exists b' n',
    makeMove example_tables true e5d6 (ep_board, []) = Some (tt, (b', n'))
    /\ wf_rep b' = true
    /\ pawnKey b' <> pawnKey_of example_tables b'.
Proof.
  apply (pawnKey_stale_after_promotion_or_enPassant example_tables true e5d6 ep_board []).
  - vm_compute. reflexivity.
  - vm_compute. reflexivity.
  - vm_compute. reflexivity.
  - right. split; [vm_compute; reflexivity|vm_compute; discriminate].
Defined.
(** ** The evaluator calls of [makeMove<true>] *)

Lemma type_of_makePiece pt c : pt <> NONETYPE -> type_of_piece (makePiece pt c) = pt.
Proof. destruct pt, c; (reflexivity || congruence). Qed.



(** X18: [makeMove<true>] refreshes the evaluator only for a king that
    crosses: for every contractual move that is not a king move, and for
    every king move, castling included, whose king stays in its bucket and
    does not cross the mirror line, the calls after [push] are all
    incremental accumulator updates. *)
Theorem no_refresh_without_crossing T m b (n : Net) :
  wf_rep b = true -> move_contract b m = true ->
  PieceType_eqb (piece m) KING
  && bucket_crossing T (sideToMove b) (from m) (king_destination b m) = false ->
  exists b' n' rest,
    makeMove T true m (b, n) = Some (tt, (b', n'))
    /\ n' = n ++ nnue_push :: rest
    /\ forallb is_incremental rest = true.
Proof.
  intros Hwf Hc Hx. apply wf_rep_wf in Hwf.
  destruct (contract_common b m Hc) as (Hf & Ht & Hne & Hpt & _).
  destruct (make_unmake T true true m b n n Hwf Hc) as (b' & Hrun & _).
  eexists _, _, _. split; [exact Hrun|]. split; [reflexivity|].
  unfold pieces_calls, calls_move, calls_remove, calls_place. cbv zeta.
  rewrite (type_of_makePiece _ _ Hpt).
  destruct (contract_cases b m Hc) as [(Hpr & Hnp & Hnk & _)|(Hpr & Hfrom & _)].
  - rewrite (code_isCastling_not_king b m Hnk), Hpr.
    rewrite (PieceType_eqb_neq _ _ Hnp). cbn [andb negb].
    now destruct (negb (Piece_eqb (at_sq (board b) (to m)) NonePiece) && true).
  - rewrite (code_isCastling_spec b m Hfrom), Hpr. unfold king_destination in Hx.
    destruct (is_castling b m) eqn:HC; cbn [andb negb].
    + assert (Hk : PieceType_eqb (piece m) KING = true).
      { unfold is_castling in HC. now apply andb_true_iff in HC. }
      rewrite Hk in Hx. cbn [andb] in Hx. rewrite Hx. reflexivity.
    + rewrite Hx.
      destruct (PieceType_eqb (piece m) PAWN && (to m =? enPassantSquare b));
        [reflexivity|].
      now destruct (negb (Piece_eqb (at_sq (board b) (to m)) NonePiece) && true).
Qed.

Lemma no_refresh_without_crossing_witness :
  exists b' n' rest,
    makeMove example_tables true e1h1 (castle_board, []) = Some (tt, (b', n'))
    /\ n' = [] ++ nnue_push :: rest
    /\ forallb is_incremental rest = true.
Proof.
  apply (no_refresh_without_crossing example_tables e1h1 castle_board []);
    vm_compute; reflexivity.
Defined.
(** ** Undoing without a history *)

Lemma bind_None {A B} (m : M A) (k : A -> M B) w :
  (forall a w', m w = Some (a, w') -> k a w' = None) -> bind m k w = None.
Proof. intros H. unfold bind. destruct (m w) as [[a w']|] eqn:E; auto. Qed.

(** X19: [unmakeMove] reads [back()] of the three history vectors
    before anything else, and [unmakeNullMove] that of the state history:
    on a board one of whose histories is empty the call is undefined. *)
Theorem undo_without_history T (upd : bool) m b (n : Net) :
  stateHistory b = [] \/ hashHistory b = [] \/ pawnKeyHistory b = [] ->
  unmakeMove T upd m (b, n) = None
  /\ (stateHistory b = [] -> unmakeNullMove T (b, n) = None).
Proof.
  intros H. split.
  - unfold unmakeMove. apply bind_None. intros restore w1 H1.
    unfold pop_stateHistory in H1. rewrite bind_gets in H1.
    destruct (stateHistory b) as [|s sh] eqn:Es; [discriminate|].
    rewrite bind_modify in H1. unfold ret in H1. injection H1 as _ <-.
    apply bind_None. intros u w2 H2.
    unfold pop_hashHistory in H2. rewrite bind_assoc, bind_gets in H2.
    cbn [hashHistory set_stateHistory] in H2.
    destruct (hashHistory b) as [|hk hh] eqn:Eh; [discriminate|].
    rewrite bind_assoc, bind_modify, bind_ret in H2. unfold modify in H2.
    injection H2 as _ <-. cbn [fst snd].
    apply bind_None. intros u' w3 H3.
    unfold pop_pawnKeyHistory in H3. rewrite bind_assoc, bind_gets in H3.
    cbn [pawnKeyHistory set_stateHistory set_hashHistory set_hashKey] in H3.
    destruct (pawnKeyHistory b) as [|pk ph] eqn:Ep; [discriminate|].
    destruct H as [H|[H|H]]; discriminate H.
  - intros Hs. unfold unmakeNullMove, pop_stateHistory.
    rewrite bind_assoc, bind_gets, Hs. reflexivity.
Qed.

Lemma undo_without_history_witness :
  unmakeMove example_tables true e2e4 (startpos, []) = None
  /\ (stateHistory startpos = [] -> unmakeNullMove example_tables (startpos, []) = None).
Proof.
  apply (undo_without_history example_tables true e2e4 startpos []).
  left. reflexivity.
Defined.

(** ** [is_capture] *)

Lemma is_capture_run m b (n : Net) :
  lens (rep b) -> 0 <= to m < 64 ->
  is_capture m (b, n)
  = Some (negb (Piece_eqb (at_sq (board b) (to m)) NonePiece), (b, n)).
Proof.
  intros Hl Ht. unfold is_capture, pieceAtB.
  erewrite bind_run by (now apply board_get_run). reflexivity.
Qed.


(** ** The loader *)

Lemma pinv_True {A} (m : M A) : pinv (fun _ => True) m.
Proof. intros w a w' _ _. exact I. Qed.

Lemma ptriple_param P R ps i (k : string -> M unit) :
  (forall s, ps !! i = Some s -> ptriple P (k s) R) -> ptriple P (bind (param ps i) k) R.
Proof.
  intros H w a w' Hw Hrun. apply bind_inv in Hrun.
  destruct Hrun as (s & w1 & Hp & Hk). apply param_inv in Hp. destruct Hp as [-> Hs].
  eapply H; eauto.
Qed.

Section LoaderKeeps.

Variable T : Tables.
Variable I : World -> Prop.
Hypothesis keeps_piecesBB : forall b n v, I (b, n) -> I (set_piecesBB v b, n).
Hypothesis keeps_board : forall b n v, I (b, n) -> I (set_board v b, n).
Hypothesis keeps_pawnKey : forall b n v, I (b, n) -> I (set_pawnKey v b, n).
Hypothesis keeps_castlingRights : forall b n v, I (b, n) -> I (set_castlingRights v b, n).

Ltac keep_fields :=
  repeat keep_step
    ltac:(intros ? ? ?;
          first [apply keeps_piecesBB | apply keeps_board | apply keeps_pawnKey
                | apply keeps_castlingRights]; assumption)
    ltac:(fail).

Lemma zero_loop_keeps :
  pinv I (fold_right (fun p k => piecesBB_put p 0 ;;; k) (ret tt) all_pieces).
Proof. cbn [fold_right all_pieces]. unfold piecesBB_put. keep_fields. Qed.

Lemma position_keeps position : forall sq, pinv I (applyFen_position T position sq).
Proof.
  induction position as [|c rest IH]; intros sq; cbn [applyFen_position].
  - apply pinv_ret.
  - destruct (charToPiece c).
    + apply pinv_bind; [unfold_all; keep_fields|intros _].
      apply pinv_bind; [unfold_all; keep_fields|intros _]. apply IH.
    + destruct (Ascii.eqb c "/"); [apply IH|]. destruct (isdigit c); apply IH.
Qed.

Lemma castling_keeps s : pinv I (applyFen_castling s).
Proof.
  induction s as [|c rest IH]; cbn [applyFen_castling].
  - apply pinv_ret.
  - apply pinv_bind; [|intros ?; exact IH]. keep_fields.
Qed.

Lemma rights_keeps c : pinv I (removeCastlingRightsAll c).
Proof. unfold removeCastlingRightsAll. keep_fields. Qed.

End LoaderKeeps.

Ltac keep_any :=
  repeat keep_step ltac:(intros ? ? H; exact H) ltac:(intros ? ? H; exact H).

Ltac loader_keeps :=
  first
    [ apply zero_loop_keeps; intros ? ? ? H; exact H
    | apply position_keeps; intros ? ? ? H; exact H
    | apply castling_keeps; intros ? ? ? H; exact H
    | apply rights_keeps; intros ? ? ? H; exact H
    | unfold param, stoi, string_at, zobristHash, refresh; cbv zeta; keep_any ].

Lemma bind_None_run {A B} (m : M A) (k : A -> M B) w :
  m w = None -> bind m k w = None.
Proof. unfold bind. now intros ->. Qed.

(** X21: a descriptor with fewer than four fields, the empty descriptor
    included, or with exactly five fields, makes [applyFen] read the vector
    of fields past its end: [params[3]] is read unconditionally, and
    [params[5]] is read under the test [params.size() > 4], which five
    fields pass. *)
Theorem applyFen_field_count T fen w :
  (length (splitInput fen) < 4)%nat \/ length (splitInput fen) = 5%nat ->
  applyFen T fen w = None.
Proof.
  intros Hlen. unfold applyFen. cbv zeta.
  apply bind_None. intros _ w1 _. apply bind_None. intros _ w2 _.
  apply bind_None. intros position w3 _. apply bind_None. intros move_right w4 _.
  apply bind_None. intros castling w5 _.
  destruct Hlen as [Hlen|Hlen].
  - apply bind_None_run. unfold param. now rewrite lookup_ge_None_2 by lia.
  - apply bind_None. intros en_passant w6 _. apply bind_None. intros hmc w7 _.
    apply bind_None_run. rewrite Hlen. cbn [Nat.ltb Nat.leb].
    unfold param. now rewrite lookup_ge_None_2 by lia.
Qed.

Lemma applyFen_field_count_witness :
  applyFen example_tables five_fields_fen (initial_board, []) = None.
Proof.
  apply (applyFen_field_count example_tables five_fields_fen (initial_board, [])).
  right. vm_compute. reflexivity.
Defined.

(** X22: when [applyFen] returns, the state history is empty, the key
    history holds exactly the key of the loaded position and the pawn-key
    history exactly its pawn key, whatever the histories held before; and
    the evaluator has been refreshed on the loaded bitboards and mailbox and
    then had its accumulators reset, by the last two calls and by no
    other call. *)
Theorem applyFen_histories T fen b0 (n0 : Net) b n :
  applyFen T fen (b0, n0) = Some (tt, (b, n)) ->
  stateHistory b = []
  /\ hashHistory b = [hashKey b]
  /\ pawnKeyHistory b = [pawnKey b]
  /\ n = n0 ++ [nnue_refresh (piecesBB b) (board b); nnue_reset_accumulators].
Proof.
  intros Hrun.
  assert (H : ptriple (fun w => snd w = n0) (applyFen T fen)
                (fun w => stateHistory (fst w) = []
                          /\ hashHistory (fst w) = [hashKey (fst w)]
                          /\ pawnKeyHistory (fst w) = [pawnKey (fst w)]
                          /\ snd w = n0 ++ [nnue_refresh (piecesBB (fst w)) (board (fst w));
                                            nnue_reset_accumulators])).
  { unfold applyFen. cbv zeta.
    do 17 (apply ptriple_bind with (Q := fun w => snd w = n0);
           [apply ptriple_pinv; loader_keeps|intros ?]).
    intros [bx nx] u w' Hw Hr. cbn [snd] in Hw. subst nx.
    unfold zobristHash, refresh in Hr.
    rewrite !bind_assoc, bind_gets, !bind_modify, !bind_assoc, !bind_gets in Hr.
    unfold bind, call in Hr. cbn [fst snd] in Hr. injection Hr as _ <-.
    cbn. rewrite <- app_assoc. repeat split. }
  exact (H (b0, n0) tt (b, n) eq_refl Hrun).
Qed.

Lemma applyFen_histories_witness :
  stateHistory startpos = []
  /\ hashHistory startpos = [hashKey startpos]
  /\ pawnKeyHistory startpos = [pawnKey startpos]
  /\ [nnue_refresh (piecesBB startpos) (board startpos); nnue_reset_accumulators]
     = [] ++ [nnue_refresh (piecesBB startpos) (board startpos); nnue_reset_accumulators].
Proof.
  apply (applyFen_histories example_tables startpos_fen initial_board [] startpos).
  vm_compute. reflexivity.
Defined.

(** X23: [applyFen] gives the move to White exactly when the second
    field of the descriptor is the one-letter string w; any other second
    field, b or not, gives the move to Black. *)
Theorem applyFen_sideToMove T fen w b n side :
  applyFen T fen w = Some (tt, (b, n)) ->
  splitInput fen !! 1%nat = Some side ->
  sideToMove b = if String.eqb side "w" then White else Black.
Proof.
  intros Hrun Hside.
  assert (H : ptriple (fun _ => True) (applyFen T fen)
                (fun w => sideToMove (fst w)
                          = if String.eqb side "w" then White else Black)).
  { unfold applyFen. cbv zeta.
    do 2 (apply ptriple_bind with (Q := fun _ => True);
          [apply ptriple_pinv, pinv_True|intros _]).
    apply ptriple_param. intros position _.
    apply ptriple_param. intros move_right Hm.
    rewrite Hside in Hm. injection Hm as <-.
    do 4 (apply ptriple_bind with (Q := fun _ => True);
          [apply ptriple_pinv, pinv_True|intros ?]).
    apply ptriple_bind
      with (Q := fun w => sideToMove (fst w)
                          = if String.eqb side "w" then White else Black).
    - apply ptriple_modify. reflexivity.
    - intros _. apply ptriple_pinv.
      repeat (apply pinv_bind; [loader_keeps|intros ?]). loader_keeps. }
  exact (H w tt (b, n) I Hrun).
Qed.

Lemma applyFen_sideToMove_witness :
  sideToMove startpos = if String.eqb "w" "w" then White else Black.
Proof.
  apply (applyFen_sideToMove example_tables startpos_fen (initial_board, []) startpos
           [nnue_refresh (piecesBB startpos) (board startpos); nnue_reset_accumulators] "w");
    vm_compute; reflexivity.
Defined.

Lemma ptriple_ret_bind {A} P R (a : A) (k : A -> M unit) :
  ptriple P (k a) R -> ptriple P (bind (ret a) k) R.
Proof. intros H w x w' Hw Hr. exact (H w x w' Hw Hr). Qed.

(** X24: a descriptor with exactly four fields loads with the half-move
    clock at 0 and the full-move counter at 2, the move number 1 counted
    in half moves. *)
Theorem applyFen_four_fields T fen w b n :
  length (splitInput fen) = 4%nat ->
  applyFen T fen w = Some (tt, (b, n)) ->
  halfMoveClock b = 0 /\ fullMoveNumber b = wrap (fullMoveNumber_bits T) 2.
Proof.
  intros Hlen Hrun.
  assert (H : ptriple (fun _ => True) (applyFen T fen)
                (fun w => halfMoveClock (fst w) = 0
                          /\ fullMoveNumber (fst w) = wrap (fullMoveNumber_bits T) 2)).
  { unfold applyFen. cbv zeta. rewrite Hlen. cbn [Nat.ltb Nat.leb].
    do 6 (apply ptriple_bind with (Q := fun _ => True);
          [apply ptriple_pinv, pinv_True|intros ?]).
    do 2 apply ptriple_ret_bind.
    do 7 (apply ptriple_bind with (Q := fun _ => True);
          [apply ptriple_pinv, pinv_True|intros ?]).
    apply ptriple_bind with (Q := fun w => halfMoveClock (fst w) = 0).
    { intros [bx nx] u w' _ Hr. unfold bind in Hr.
      change (stoi "0" (bx, nx)) with (Some (0, (bx, nx))) in Hr.
      unfold modify in Hr. injection Hr as _ <-. reflexivity. }
    intros _.
    apply ptriple_bind
      with (Q := fun w => halfMoveClock (fst w) = 0
                          /\ fullMoveNumber (fst w) = wrap (fullMoveNumber_bits T) 2).
    { intros [bx nx] u w' Hw Hr. unfold bind in Hr.
      change (stoi "1" (bx, nx)) with (Some (1, (bx, nx))) in Hr.
      cbn [andb Z.mul Z.leb INT_MIN INT_MAX] in Hr.
      change ((INT_MIN <=? 1 * 2) && (1 * 2 <=? INT_MAX)) with true in Hr.
      unfold modify in Hr. injection Hr as _ <-. split; [exact Hw|reflexivity]. }
    intros _. apply ptriple_pinv.
    repeat (apply pinv_bind; [loader_keeps|intros ?]). loader_keeps. }
  exact (H w tt (b, n) I Hrun).
Qed.

Lemma applyFen_four_fields_witness :
  halfMoveClock four_fields_board = 0
  /\ fullMoveNumber four_fields_board = wrap (fullMoveNumber_bits example_tables) 2.
Proof.
  apply (applyFen_four_fields example_tables four_fields_fen (initial_board, [])
           four_fields_board (load_calls four_fields_board));
    vm_compute; reflexivity.
Defined.

(** X25: an en-passant field made of a file letter a..h and a rank
    digit 1..8 loads as the square of that file and rank, rank 1 first and
    file a first within a rank; the loader checks neither the rank nor what
    follows the two characters. *)
Theorem applyFen_enPassant_square T fen w b n (l d : ascii) (f r : nat) rest :
  applyFen T fen w = Some (tt, (b, n)) ->
  splitInput fen !! 3%nat = Some (String l (String d rest)) ->
  nat_of_ascii l = (97 + f)%nat -> nat_of_ascii d = (49 + r)%nat ->
  (f < 8)%nat -> (r < 8)%nat ->
  enPassantSquare b = Z.of_nat (8 * r + f).
Proof.
  intros Hrun Hfield Hl Hd Hf Hr.
  assert (H : ptriple (fun _ => True) (applyFen T fen)
                (fun w => enPassantSquare (fst w) = Z.of_nat (8 * r + f))).
  { unfold applyFen. cbv zeta.
    do 2 (apply ptriple_bind with (Q := fun _ => True);
          [apply ptriple_pinv, pinv_True|intros _]).
    do 3 (apply ptriple_param; intros ? _).
    apply ptriple_param. intros en_passant He.
    rewrite Hfield in He. injection He as <-.
    do 8 (apply ptriple_bind with (Q := fun _ => True);
          [apply ptriple_pinv, pinv_True|intros ?]).
    apply ptriple_bind with (Q := fun w => enPassantSquare (fst w) = Z.of_nat (8 * r + f)).
    - cbn [String.eqb]. destruct (Ascii.eqb l "-"); cbv iota;
        unfold string_at; cbn [String.get Nat.eqb Nat.pred];
        intros [bx nx] u w' _ Hrun'; unfold bind, ret, modify in Hrun';
        cbn [fst snd] in Hrun'; injection Hrun' as _ <-;
        cbn [fst enPassantSquare set_enPassantSquare];
        rewrite Hl, Hd; unfold Square; rewrite Z.mod_small by lia; lia.
    - intros _. apply ptriple_pinv.
      repeat (apply pinv_bind; [loader_keeps|intros ?]). loader_keeps. }
  exact (H w tt (b, n) I Hrun).
Qed.

Lemma applyFen_enPassant_square_witness : enPassantSquare ep_board = Z.of_nat (8 * 5 + 3).
Proof.
  apply (applyFen_enPassant_square example_tables ep_fen (initial_board, []) ep_board
           (load_calls ep_board) "d" "6" 3 5 EmptyString);
    first [lia | vm_compute; reflexivity].
Defined.

(** X26: a descriptor whose placement field puts every piece on a
    square of the board, and no two on the same square, loads into bitboards
    and a mailbox that agree, whatever the board held before, and the
    loaded [pawnKey] is the xor of the constants of the pawns on the
    board. *)
Theorem applyFen_well_formed T fen b0 (n0 : Net) b n :
  length (piecesBB b0) = 12%nat -> length (board b0) = 64%nat ->
  placement_ok fen = true ->
  applyFen T fen (b0, n0) = Some (tt, (b, n)) ->
  wf_rep b = true /\ pawnKey b = pawnKey_of T b.
Proof.
  intros Hl1 Hl2 Hok Hrun.
  destruct (applyFen_loads T fen b0 n0 b n (conj Hl1 Hl2) Hok Hrun) as (Hwf & Hpk & _).
  split; [now apply wf_wf_rep|exact Hpk].
Qed.

Lemma applyFen_well_formed_witness :
  wf_rep startpos = true /\ pawnKey startpos = pawnKey_of example_tables startpos.
Proof.
  apply (applyFen_well_formed example_tables startpos_fen initial_board [] startpos
           (load_calls startpos));
    vm_compute; reflexivity.
Defined.
(** ** Moves off the board *)

Lemma bit_off sq w : in_board sq = false -> bit sq w = None.
Proof. intros H. unfold bit. now rewrite H. Qed.

Lemma remove_off (upd : bool) p sq kW kB w :
  in_board sq = false ->
  removePiece p sq w = None /\ removePieceT upd p sq kW kB w = None.
Proof.
  intros H. split; unfold removePiece, removePieceT;
    apply bind_None; intros bb w1 _; apply bind_None_run; now apply bit_off.
Qed.

Lemma move_off T (upd : bool) p sq toSq kW kB w :
  in_board sq = false -> movePieceT T upd p sq toSq kW kB w = None.
Proof.
  intros H. unfold movePieceT.
  apply bind_None; intros bb w1 _; apply bind_None_run; now apply bit_off.
Qed.

Lemma pieces_off T (upd : bool) m stm capture ep isCastling kW kB w :
  in_board (from m) = false ->
  makeMove_pieces T upd m stm capture ep isCastling kW kB w = None.
Proof.
  intros H. unfold makeMove_pieces. cbv zeta. destruct isCastling.
  - apply bind_None_run.
    destruct (upd && bucket_crossing T stm (from m)
                       (file_rank_square (if from m <? to m then FILE_G else FILE_C)
                          (square_rank (from m))));
      apply bind_None_run; now apply (remove_off upd).
  - apply bind_None. intros u w1 _. destruct (promoted m); cbn [negb].
    + apply bind_None_run. now apply (remove_off upd).
    + now apply move_off.
Qed.

(** X30: [makeMove] reads [board[to_sq]] before the assertions on the
    squares of the move, and clears and sets bits at both squares: for a
    move whose origin or destination is not a square of the board it is
    undefined, on every board. *)
Theorem makeMove_off_board T (upd : bool) m w :
  ~ 0 <= from m < 64 \/ ~ 0 <= to m < 64 -> makeMove T upd m w = None.
Proof.
  intros H. unfold makeMove. cbv zeta.
  apply bind_None. intros stm w1 _.
  destruct (in_board (to m)) eqn:Et.
  - assert (Ef : in_board (from m) = false).
    { apply not_true_is_false. intros Ef. apply in_board_iff in Ef, Et. tauto. }
    do 13 (apply bind_None; intros ? ? _).
    apply bind_None_run. now apply pieces_off.
  - apply bind_None_run. unfold board_get. destruct w1 as [b1 n1].
    rewrite bind_gets. now rewrite Et.
Qed.

Lemma makeMove_off_board_witness :
  makeMove example_tables true (mkMove 12 64 PAWN false) (startpos, []) = None.
Proof.
  apply (makeMove_off_board example_tables true (mkMove 12 64 PAWN false) (startpos, [])).
  right. cbn. lia.
Defined.
